(** * ATP dashboard: the ingestion pipeline, the bracket reconstructor and
      the display-name augmenter

    A shallow embedding of the ingestion script (normalisation, identifier
    assignment, match and derived records, bracket reconstruction) and of
    [src/data/addCommonNames.ts], with the properties of the specification
    stated and proved over it.

    Conventions of the embedding.
    - A JavaScript string is a [string]; its characters are read as UTF-16
      code units in the range 0..255.  Case conversion is the ASCII one.
    - A JavaScript number is a [Z]; where the value NaN can flow it is an
      [option Z] with [None] for NaN.  The numeric columns of the input
      hold integers.
    - [null] and [undefined] are [None].
    - The messages of [console.warn] are a list, an exception is an
      outcome of a computation ([Eff]); [console.log] is not modelled.
    - A [Map] that is enumerated is a list of entries in insertion order
      ([OMap]); one that is only searched is a [gmap]. *)

From Stdlib Require Import ZArith List String Ascii Bool Lia.
From Stdlib Require Import DecimalString DecimalPos DecimalZ.
From stdpp Require Import gmap strings list.
From Equations Require Import Equations.

Open Scope Z_scope.
Set Warnings "-register-all".

(** ** The JavaScript runtime *)

Module JS.

(** *** Strings *)

Definition charCode (c : ascii) : Z := Z.of_nat (nat_of_ascii c).

Fixpoint charCodes (s : string) : list Z :=
  match s with
  | EmptyString => []
  | String c s' => charCode c :: charCodes s'
  end.

(** WhiteSpace and LineTerminator code units below 256. *)
Definition isWhiteSpace (c : ascii) : bool :=
  let n := charCode c in
  ((9 <=? n) && (n <=? 13)) || (n =? 32) || (n =? 160).

Definition isDigit (c : ascii) : bool :=
  let n := charCode c in (48 <=? n) && (n <=? 57).

Definition isUpper (c : ascii) : bool :=
  let n := charCode c in (65 <=? n) && (n <=? 90).

Definition isLower (c : ascii) : bool :=
  let n := charCode c in (97 <=? n) && (n <=? 122).

(** [\w] of a regular expression without the unicode flag. *)
Definition isWord (c : ascii) : bool :=
  isDigit c || isUpper c || isLower c || (charCode c =? 95).

Definition toUpperChar (c : ascii) : ascii :=
  if isLower c then ascii_of_nat (nat_of_ascii c - 32) else c.

Definition toLowerChar (c : ascii) : ascii :=
  if isUpper c then ascii_of_nat (nat_of_ascii c + 32) else c.

Fixpoint mapChars (f : ascii → ascii) (s : string) : string :=
  match s with
  | EmptyString => EmptyString
  | String c s' => String (f c) (mapChars f s')
  end.

Definition toUpperCase : string → string := mapChars toUpperChar.
Definition toLowerCase : string → string := mapChars toLowerChar.

Fixpoint trimStart (s : string) : string :=
  match s with
  | EmptyString => EmptyString
  | String c s' => if isWhiteSpace c then trimStart s' else s
  end.

Fixpoint trimEnd (s : string) : string :=
  match s with
  | EmptyString => EmptyString
  | String c s' =>
      match trimEnd s' with
      | EmptyString => if isWhiteSpace c then EmptyString else String c EmptyString
      | r => String c r
      end
  end.

Definition trim (s : string) : string := trimEnd (trimStart s).

Fixpoint startsWith (s p : string) {struct p} : bool :=
  match p, s with
  | EmptyString, _ => true
  | String a p', String b s' => Ascii.eqb a b && startsWith s' p'
  | String _ _, EmptyString => false
  end.

Fixpoint includes (s sub : string) : bool :=
  startsWith s sub ||
  match s with
  | EmptyString => false
  | String _ s' => includes s' sub
  end.

(** [s.split(sep)] for a separator of one character. *)
Fixpoint split (sep : ascii) (s : string) : list string :=
  match s with
  | EmptyString => [EmptyString]
  | String c s' =>
      if Ascii.eqb c sep then EmptyString :: split sep s'
      else match split sep s' with
           | [] => [String c EmptyString]
           | p :: ps => String c p :: ps
           end
  end.

(** [parts.join(sep)]. *)
Fixpoint join (sep : string) (parts : list string) : string :=
  match parts with
  | [] => EmptyString
  | [p] => p
  | p :: ps => p +:+ sep +:+ join sep ps
  end.

(** [s.substring(0, n)]. *)
Fixpoint take (n : nat) (s : string) : string :=
  match n, s with
  | S n', String c s' => String c (take n' s')
  | _, _ => EmptyString
  end.

Definition strlen (s : string) : Z := Z.of_nat (String.length s).

(** *** Numbers *)

(** Number::toString of an integer. *)
Definition numberToString (z : Z) : string := NilZero.string_of_int (Z.to_int z).

(** Template-literal rendering of a number that may be NaN. *)
Definition numToString (n : option Z) : string :=
  match n with
  | Some z => numberToString z
  | None => "NaN"
  end.

Definition digitValue (radix : Z) (c : ascii) : option Z :=
  let n := charCode c in
  let v := if isDigit c then Some (n - 48)
           else if isLower c then Some (n - 87)
           else if isUpper c then Some (n - 55)
           else None in
  match v with
  | Some d => if d <? radix then Some d else None
  | None => None
  end.

(** The longest prefix of radix digits, read most significant first:
    [(number of digits read, their value)]. *)
Fixpoint readDigits (radix : Z) (acc : Z) (count : nat) (s : string) : nat * Z :=
  match s with
  | EmptyString => (count, acc)
  | String c s' =>
      match digitValue radix c with
      | Some d => readDigits radix (acc * radix + d) (S count) s'
      | None => (count, acc)
      end
  end.

(** [s.substring(n)]. *)
Fixpoint drop (n : nat) (s : string) : string :=
  match n, s with
  | S n', String _ s' => drop n' s'
  | _, _ => s
  end.

(** [parseInt(s)] with no radix argument; [None] is NaN. *)
Definition parseInt (s : string) : option Z :=
  let s1 := trimStart s in
  let sign := if startsWith s1 "-" then -1 else 1 in
  let s2 := if startsWith s1 "-" || startsWith s1 "+" then drop 1 s1 else s1 in
  let hex := startsWith s2 "0x" || startsWith s2 "0X" in
  let radix := if hex then 16 else 10 in
  let s3 := if hex then drop 2 s2 else s2 in
  match readDigits radix 0 0 s3 with
  | (O, _) => None
  | (_, v) => Some (sign * v)
  end.

(** Every character of [s] is in the class [p]. *)
Fixpoint every (p : ascii → bool) (s : string) : bool :=
  match s with
  | EmptyString => true
  | String c s' => p c && every p s'
  end.

End JS.


(** *** Dates

    [new Date(year, month, date).toISOString().split('T')[0]] depends on
    the time zone of the process and fails with a RangeError when the time
    value is not finite or out of range.  [Number(s)] is the string to
    number conversion.  Both are taken from the runtime. *)

Class Runtime := {
  (** [Number(s)]; [None] is NaN. *)
  Number : string → option Z;
  (** The date part of the ISO rendering of the local date
      [(year, month, date)]; [None] when [toISOString] throws. *)
  toISODate : Z → Z → Z → option string;
}.

(** A runtime whose local time zone is UTC, for running the model. *)
Module UTC.

(** Days between 1970-01-01 and the first day of month [m] (1..12) of
    year [y] plus [d - 1], in the proleptic Gregorian calendar. *)
Definition daysFromCivil (y m d : Z) : Z :=
  let y' := if m <=? 2 then y - 1 else y in
  let era := y' / 400 in
  let yoe := y' - era * 400 in
  let mp := (m + 9) mod 12 in
  let doy := (153 * mp + 2) / 5 + d - 1 in
  let doe := yoe * 365 + yoe / 4 - yoe / 100 + doy in
  era * 146097 + doe - 719468.

Definition civilFromDays (days : Z) : Z * Z * Z :=
  let z := days + 719468 in
  let era := z / 146097 in
  let doe := z - era * 146097 in
  let yoe := (doe - doe / 1460 + doe / 36524 - doe / 146096) / 365 in
  let doy := doe - (365 * yoe + yoe / 4 - yoe / 100) in
  let mp := (5 * doy + 2) / 153 in
  let d := doy - (153 * mp + 2) / 5 + 1 in
  let m := if mp <? 10 then mp + 3 else mp - 9 in
  let y := yoe + era * 400 in
  (if m <=? 2 then y + 1 else y, m, d).

Fixpoint zeros (n : nat) : string :=
  match n with
  | O => EmptyString
  | S n' => String "0" (zeros n')
  end.

(** [String(z).padStart(width, '0')] for [0 <= z]. *)
Definition pad (width : nat) (z : Z) : string :=
  let s := JS.numberToString z in
  zeros (width - String.length s) +:+ s.

Definition isoDateString (y m d : Z) : string :=
  (if (0 <=? y) && (y <=? 9999) then pad 4 y
   else (if y <? 0 then "-" else "+") +:+ pad 6 (Z.abs y))
  +:+ "-" +:+ pad 2 m +:+ "-" +:+ pad 2 d.

Definition msPerDay : Z := 86400000.
Definition maxTime : Z := 8640000000000000.

(** The Date constructor on three integers (years 0 to 99 are 1900 to
    1999, months and days overflow into the next units), the range of a
    time value, and the date part of [toISOString]. *)
Definition toISODate (year month date : Z) : option string :=
  let yr := if (0 <=? year) && (year <=? 99) then 1900 + year else year in
  let ym := yr + month / 12 in
  let mn := month mod 12 in
  let day := daysFromCivil ym (mn + 1) 1 + date - 1 in
  if Z.abs (day * msPerDay) <=? maxTime
  then let '(y, m, d) := civilFromDays day in Some (isoDateString y m d)
  else None.

(** [Number(s)] on an optionally signed run of decimal digits, and NaN on
    the strings outside that form. *)
Definition Number (s : string) : option Z :=
  let t := JS.trim s in
  let '(sign, body) :=
    match t with
    | String "-" r => (-1, r)
    | String "+" r => (1, r)
    | _ => (1, t)
    end in
  match body with
  | EmptyString => if String.eqb t EmptyString then Some 0 else None
  | _ =>
      if JS.every JS.isDigit body then Some (sign * snd (JS.readDigits 10 0 0 body))
      else None
  end.

End UTC.

Definition utcRuntime : Runtime :=
  {| Number := UTC.Number; toISODate := UTC.toISODate |}.

(** *** Warnings and exceptions *)

Inductive Exn :=
| RangeError (message : string)
| TypeError (message : string).

Inductive Outcome (A : Type) :=
| Returned (a : A)
| Thrown (e : Exn).
Arguments Returned {A} a.
Arguments Thrown {A} e.

(** A computation: the messages it passed to [console.warn], in order,
    and how it ended. *)
Record Eff (A : Type) := mkEff { warnings : list string; outcome : Outcome A }.
Arguments mkEff {A} warnings outcome.
Arguments warnings {A} e.
Arguments outcome {A} e.

Definition ret {A} (a : A) : Eff A := mkEff [] (Returned a).
Definition throw {A} (e : Exn) : Eff A := mkEff [] (Thrown e).
Definition warn (message : string) : Eff unit := mkEff [message] (Returned tt).

Definition bind {A B} (m : Eff A) (k : A → Eff B) : Eff B :=
  match outcome m with
  | Returned a => let r := k a in mkEff (warnings m ++ warnings r) (outcome r)
  | Thrown e => mkEff (warnings m) (Thrown e)
  end.

#[export] Instance eff_ret : MRet Eff := @ret.
#[export] Instance eff_bind : MBind Eff := λ A B k m, bind m k.

(** A loop whose body may warn or throw. *)
Fixpoint forEach {S A} (body : S → A → Eff S) (st : S) (items : list A) : Eff S :=
  match items with
  | [] => mret st
  | item :: rest => st' ← body st item; forEach body st' rest
  end.

(** ** Types ([src/types.ts]) *)

Inductive Round :=
| R_1R | R_2R | R_3R | R_4R | R_QF | R_SF | R_F | R_RR | R_Q1 | R_Q2 | R_Q3.

#[export] Instance Round_eq_dec : EqDecision Round.
Proof. solve_decision. Defined.

(** The string of a round in the persisted files. *)
Definition roundName (r : Round) : string :=
  match r with
  | R_1R => "1R" | R_2R => "2R" | R_3R => "3R" | R_4R => "4R"
  | R_QF => "QF" | R_SF => "SF" | R_F => "F" | R_RR => "RR"
  | R_Q1 => "Q1" | R_Q2 => "Q2" | R_Q3 => "Q3"
  end.

Inductive Series := GrandSlam | Masters | ATP500 | ATP250.
Inductive Court := Indoor | Outdoor.
Inductive Surface := Hard | Clay | Grass | Carpet.

Record Player := mkPlayer { p_id : string; p_name : string }.

Record Tournament := mkTournament {
  t_id : string;
  t_year : option Z;
  t_name : string;
  t_location : string;
  t_series : Series;
  t_court : Court;
  t_surface : Surface;
}.

Record Match := mkMatch {
  id : string;
  tournamentId : string;
  date : string;
  round : Round;
  bestOf : Z;
  winnerId : string;
  loserId : string;
  wRank : option Z;
  lRank : option Z;
  wPts : option Z;
  lPts : option Z;
  w : list Z;
  l : list Z;
  wsets : Z;
  lsets : Z;
  comment : option string;
}.

Record Derived := mkDerived {
  matchId : string;
  rankDiff : option Z;
  ptsDiff : option Z;
  totalGames : option Z;
  setsPlayed : Z;
  straightSets : bool;
  hasTiebreak : bool;
  upset : option bool;
}.

Record Attributes := mkAttributes {
  a_round : Round;
  winnerName : string;
  loserName : string;
  score : string;
}.

Inductive BracketNode :=
| Node (name : string) (attributes : Attributes) (children : list BracketNode).

Definition name (n : BracketNode) : string := let 'Node x _ _ := n in x.
Definition attributes (n : BracketNode) : Attributes := let 'Node _ a _ := n in a.
Definition children (n : BracketNode) : list BracketNode := let 'Node _ _ c := n in c.

(** The columns of a row that the pipeline reads.  A column that is
    missing from the file reads as the empty string: every use below
    treats [undefined] and [''] alike. *)
Record CSVRow := mkCSVRow {
  Location : string;
  Tournament_ : string;
  Date : string;
  Series_ : string;
  Court_ : string;
  Surface_ : string;
  Round_ : string;
  BestOf : string;
  Winner : string;
  Loser : string;
  WRank : string;
  LRank : string;
  WPts : string;
  LPts : string;
  W1 : string; L1 : string;
  W2 : string; L2 : string;
  W3 : string; L3 : string;
  W4 : string; L4 : string;
  W5 : string; L5 : string;
  Wsets : string;
  Lsets : string;
  Comment : string;
}.

(** ** Normalizer *)

Section Normalizer.
Context `{Runtime}.

Definition normalizeValue (value : string) : option string :=
  if String.eqb value "" || String.eqb (JS.trim value) ""
     || String.eqb (JS.toUpperCase (JS.trim value)) "N/A"
  then None
  else Some (JS.trim value).

Definition normalizeNumber (value : string) : option Z :=
  match normalizeValue value with
  | None => None
  | Some normalized => Number normalized
  end.

(** [new Date(year, month, date).toISOString().split('T')[0]]: an
    argument that is NaN gives an invalid date. *)
Definition isoDate (year month date : option Z) : Eff string :=
  match year, month, date with
  | Some y, Some m, Some d =>
      match toISODate y m d with
      | Some s => mret s
      | None => throw (RangeError "Invalid time value")
      end
  | _, _, _ => throw (RangeError "Invalid time value")
  end.

(** An element of a destructured array that may be [undefined], as
    [parseInt] reads it. *)
Definition element (parts : list string) (i : nat) : string :=
  default "undefined" (parts !! i).

Definition parseDateSlashes (dateStr normalized : string) : Eff string :=
  let parts := JS.split "/" normalized in
  match parts with
  | [month; day; year] =>
      let fullYear := if JS.strlen year =? 2 then "20" +:+ year else year in
      isoDate (JS.parseInt fullYear) (Z.pred <$> JS.parseInt month) (JS.parseInt day)
  | _ =>
      _ ← warn ("Could not parse date: " +:+ dateStr);
      mret ""
  end.

Definition parseDate (dateStr : string) : Eff string :=
  match normalizeValue dateStr with
  | None => mret ""
  | Some normalized =>
      if JS.includes normalized "-" then
        let parts := JS.split "-" normalized in
        let y := element parts 0 in
        let m := element parts 1 in
        let d := element parts 2 in
        if JS.strlen y =? 4 then
          isoDate (JS.parseInt y) (Z.pred <$> JS.parseInt m) (JS.parseInt d)
        else parseDateSlashes dateStr normalized
      else parseDateSlashes dateStr normalized
  end.

End Normalizer.

(** ** Entity resolver: identifiers *)

Fixpoint filterChars (keep : ascii → bool) (s : string) : string :=
  match s with
  | EmptyString => EmptyString
  | String c s' => if keep c then String c (filterChars keep s') else filterChars keep s'
  end.

(** [s.replace(/C+/g, '-')] for a character class [C]; [inRun] tells that
    the previous character was in the class. *)
Fixpoint replaceRuns (inClass : ascii → bool) (inRun : bool) (s : string) : string :=
  match s with
  | EmptyString => EmptyString
  | String c s' =>
      if inClass c then
        if inRun then replaceRuns inClass true s'
        else String "-" (replaceRuns inClass true s')
      else String c (replaceRuns inClass false s')
  end.

Definition isHyphen (c : ascii) : bool := Ascii.eqb c "-".
Definition isPeriod (c : ascii) : bool := Ascii.eqb c ".".

Definition slugify (text : string) : string :=
  let s1 := JS.toLowerCase text in
  let s2 := filterChars (λ c, negb (isPeriod c)) s1 in
  let s3 := filterChars (λ c, JS.isWord c || JS.isWhiteSpace c || isHyphen c) s2 in
  let s4 := replaceRuns JS.isWhiteSpace false s3 in
  let s5 := replaceRuns isHyphen false s4 in
  JS.trim s5.

(** [createPlayerID(name, existingIDs)]: the identifier and the counter
    map after the call. *)
Definition createPlayerID (name : string) (existingIDs : gmap string Z)
  : string * gmap string Z :=
  let base := slugify name in
  match existingIDs !! base with
  | None => (base, <[base := 0]> existingIDs)
  | Some n =>
      let count := n + 1 in
      (base +:+ "-" +:+ JS.numberToString count, <[base := count]> existingIDs)
  end.

(** ToInt32. *)
Definition toInt32 (z : Z) : Z :=
  let m := z mod 2 ^ 32 in
  if m <? 2 ^ 31 then m else m - 2 ^ 32.

(** [x << n] and [x & y] on numbers. *)
Definition shl (x n : Z) : Z := toInt32 (Z.shiftl (toInt32 x) (n mod 32)).
Definition band (x y : Z) : Z := toInt32 (Z.land (toInt32 x) (toInt32 y)).

(** One turn of the hash loop, for the code unit [char]. *)
Definition hashStep (hash char : Z) : Z :=
  let hash := (shl hash 5 - hash) + char in
  band hash hash.

Definition hashString (str : string) : Z :=
  fold_left hashStep (JS.charCodes str) 0.

Definition createTournamentID (year : option Z) (tournament location : string) : string :=
  let str := JS.numToString year +:+ "-" +:+ tournament +:+ "-" +:+ location in
  "t" +:+ JS.numberToString (Z.abs (hashString str)).

Definition createMatchID (tournamentId date round winnerId loserId : string) : string :=
  let str := tournamentId +:+ "-" +:+ date +:+ "-" +:+ round +:+ "-"
             +:+ winnerId +:+ "-" +:+ loserId in
  "m" +:+ JS.numberToString (Z.abs (hashString str)).

(** ** Categorical fields *)

Definition normalizeRound (round : string) : Eff Round :=
  let normalized := JS.trim (JS.toLowerCase round) in
  let equals x := String.eqb normalized x in
  let contains x := JS.includes normalized x in
  if contains "1st round" || equals "1r" then mret R_1R
  else if contains "2nd round" || equals "2r" then mret R_2R
  else if contains "3rd round" || equals "3r" then mret R_3R
  else if contains "4th round" || equals "4r" then mret R_4R
  else if contains "quarterfinal" || equals "qf" then mret R_QF
  else if contains "semifinal" || equals "sf" then mret R_SF
  else if contains "the final" || (contains "final" && negb (contains "semifinal")) then mret R_F
  else if contains "round robin" || equals "rr" then mret R_RR
  else if equals "q1" || contains "qualifying 1" then mret R_Q1
  else if equals "q2" || contains "qualifying 2" then mret R_Q2
  else if equals "q3" || contains "qualifying 3" then mret R_Q3
  else
    _ ← warn ("Unknown round type: " +:+ round +:+ ". Defaulting to 1R.");
    mret R_1R.

Definition normalizeSeries (series : string) : Series :=
  let normalized := JS.trim (JS.toUpperCase series) in
  if JS.includes normalized "GRAND SLAM" then GrandSlam
  else if JS.includes normalized "MASTERS" then Masters
  else if JS.includes normalized "ATP500" then ATP500
  else ATP250.

Definition normalizeCourt (court : string) : Court :=
  let normalized := JS.trim (JS.toUpperCase court) in
  if JS.includes normalized "INDOOR" then Indoor else Outdoor.

Definition normalizeSurface (surface : string) : Surface :=
  let normalized := JS.trim (JS.toUpperCase surface) in
  if JS.includes normalized "HARD" then Hard
  else if JS.includes normalized "CLAY" then Clay
  else if JS.includes normalized "GRASS" then Grass
  else if JS.includes normalized "CARPET" then Carpet
  else Hard.

(** ** Derived statistics *)

(** Truthiness of an optional number: [undefined] and [0] are falsy. *)
Definition truthy (n : option Z) : bool :=
  match n with
  | Some z => negb (z =? 0)
  | None => false
  end.

(** [a[i] || 0]. *)
Definition at0 (a : list Z) (i : nat) : Z := default 0 (a !! i).

(** [match.w.reduce((sum, w, i) => sum + w + (match.l[i] || 0), 0)],
    from index [i] on. *)
Fixpoint sumGames (ws ls : list Z) (i : nat) (sum : Z) : Z :=
  match ws with
  | [] => sum
  | w :: ws' => sumGames ws' ls (S i) (sum + w + at0 ls i)
  end.

(** [match.w.some((w, i) => ...)], from index [i] on. *)
Fixpoint someTiebreak (ws ls : list Z) (i : nat) : bool :=
  match ws with
  | [] => false
  | w :: ws' =>
      let l := at0 ls i in
      ((w =? 7) && (5 <=? l)) || ((l =? 7) && (5 <=? w)) || someTiebreak ws' ls (S i)
  end.

Definition computeDerived (m : Match) : Derived :=
  let rankDiff :=
    if truthy (wRank m) && truthy (lRank m)
    then Some (default 0 (wRank m) - default 0 (lRank m)) else None in
  let ptsDiff :=
    if truthy (wPts m) && truthy (lPts m)
    then Some (default 0 (wPts m) - default 0 (lPts m)) else None in
  let totalGames := sumGames (w m) (l m) 0 0 in
  let setsPlayed := wsets m + lsets m in
  let straightSets := lsets m =? 0 in
  let hasTiebreak := someTiebreak (w m) (l m) 0 in
  let upset :=
    if truthy (wRank m) && truthy (lRank m)
    then Some (default 0 (lRank m) <? default 0 (wRank m)) else None in
  {| matchId := id m;
     rankDiff := rankDiff;
     ptsDiff := ptsDiff;
     totalGames := if 0 <? totalGames then Some totalGames else None;
     setsPlayed := setsPlayed;
     straightSets := straightSets;
     hasTiebreak := hasTiebreak;
     upset := upset |}.

(** ** Computations that warn or throw *)

Lemma outcome_bind {A B} (m : Eff A) (k : A → Eff B) (b : B) :
  outcome (m ≫= k) = Returned b ↔ ∃ a, outcome m = Returned a ∧ outcome (k a) = Returned b.
Proof.
  unfold mbind, eff_bind, bind. destruct (outcome m) as [a|e]; simpl.
  - split; [by exists a|]. by intros (a' & [= <-] & Hk).
  - split; [done|]. by intros (a' & [=] & _).
Qed.

Lemma outcome_mret {A} (a b : A) : outcome (mret a) = Returned b ↔ a = b.
Proof. simpl. split; [by intros [= ->]|by intros ->]. Qed.

(** A property that the body of a loop keeps holds after the loop. *)
Lemma forEach_invariant {S A} (body : S → A → Eff S) (P : S → Prop) :
  (∀ st item st', P st → outcome (body st item) = Returned st' → P st') →
  ∀ items st st', P st → outcome (forEach body st items) = Returned st' → P st'.
Proof.
  intros Hbody. induction items as [|item items IH]; intros st st' HP Hrun; simpl in Hrun.
  - by injection Hrun as <-.
  - apply outcome_bind in Hrun as (st1 & H1 & Hrest). eauto.
Qed.

Lemma bind_returned {A B} (m : Eff A) (k : A → Eff B) (a : A) :
  outcome m = Returned a →
  m ≫= k = mkEff (warnings m ++ warnings (k a)) (outcome (k a)).
Proof. intros Hm. unfold mbind, eff_bind, bind. by rewrite Hm. Qed.

Lemma mret_bind {A B} (a : A) (k : A → Eff B) : mret a ≫= k = k a.
Proof. unfold mbind, eff_bind, bind. simpl. by destruct (k a). Qed.

(** ** Bracket reconstructor *)

(** Key: the current round.  Value: the round that feeds into it. *)
Definition roundPrecedence (r : Round) : option Round :=
  match r with
  | R_F => Some R_SF
  | R_SF => Some R_QF
  | R_QF => Some R_4R
  | R_4R => Some R_3R
  | R_3R => Some R_2R
  | R_2R => Some R_1R
  | R_1R => Some R_Q3
  | R_Q3 => Some R_Q2
  | R_Q2 => Some R_Q1
  | R_Q1 => None
  | R_RR => None
  end.

(** The number of precedence steps below a round. *)
Definition hops (r : Round) : nat :=
  match r with
  | R_F => 9 | R_SF => 8 | R_QF => 7 | R_4R => 6 | R_3R => 5 | R_2R => 4
  | R_1R => 3 | R_Q3 => 2 | R_Q2 => 1 | R_Q1 => 0 | R_RR => 0
  end%nat.

(** [`${wScore}-${l[i]}`] for the sets from index [i] on. *)
Fixpoint setScores (ws ls : list Z) (i : nat) : list string :=
  match ws with
  | [] => []
  | wScore :: ws' =>
      (JS.numberToString wScore +:+ "-"
       +:+ default "undefined" (JS.numberToString <$> ls !! i))
      :: setScores ws' ls (S i)
  end.

Definition formatScore (w l : list Z) (comment : option string) : string :=
  if bool_decide (comment = Some "Retired")
  then JS.join " " (setScores w l 0) +:+ " (RET)"
  else JS.join " " (setScores w l 0).

(** [playerMap.get(id)?.name || 'Unknown']. *)
Definition playerName (playerMap : gmap string Player) (playerId : string) : string :=
  match playerMap !! playerId with
  | Some p => if String.eqb (p_name p) "" then "Unknown" else p_name p
  | None => "Unknown"
  end.

(** The test of the two searches for a previous match. *)
Definition feeds (childRound : Round) (playerId : string) (m : Match) : bool :=
  bool_decide (round m = childRound) && String.eqb (winnerId m) playerId.

(** The node of a match, given its children. *)
Definition matchNode (playerMap : gmap string Player) (m : Match)
    (children : list BracketNode) : BracketNode :=
  let winnerName := playerName playerMap (winnerId m) in
  let loserName := playerName playerMap (loserId m) in
  Node (winnerName +:+ " d. " +:+ loserName)
       {| a_round := round m;
          winnerName := winnerName;
          loserName := loserName;
          score := formatScore (w m) (l m) (comment m) |}
       children.

(** The node of a player who got a bye in [childRound]. *)
Definition byeNode (childRound : Round) (player : string) : BracketNode :=
  Node player
       {| a_round := childRound; winnerName := player; loserName := "BYE"; score := "BYE" |}
       [].

Definition inspect {A} (a : A) : {b | a = b} := exist _ a eq_refl.

Equations? findChildrenForMatch (currentMatch : Match)
    (allTournamentMatches : list Match) (playerMap : gmap string Player)
  : BracketNode by wf (hops (round currentMatch)) lt :=
findChildrenForMatch currentMatch allTournamentMatches playerMap
  with inspect (roundPrecedence (round currentMatch)) := {
  | exist _ None _ => matchNode playerMap currentMatch []
  | exist _ (Some childRound) Hc
    with inspect (find (feeds childRound (winnerId currentMatch)) allTournamentMatches),
         inspect (find (feeds childRound (loserId currentMatch)) allTournamentMatches) := {
    | exist _ (Some winnerPrevMatch) Hw, exist _ (Some loserPrevMatch) Hl =>
        matchNode playerMap currentMatch
          [findChildrenForMatch winnerPrevMatch allTournamentMatches playerMap;
           findChildrenForMatch loserPrevMatch allTournamentMatches playerMap]
    | exist _ (Some winnerPrevMatch) Hw, exist _ None _ =>
        matchNode playerMap currentMatch
          [findChildrenForMatch winnerPrevMatch allTournamentMatches playerMap;
           byeNode childRound (playerName playerMap (loserId currentMatch))]
    | exist _ None _, exist _ (Some loserPrevMatch) Hl =>
        matchNode playerMap currentMatch
          [byeNode childRound (playerName playerMap (winnerId currentMatch));
           findChildrenForMatch loserPrevMatch allTournamentMatches playerMap]
    | exist _ None _, exist _ None _ =>
        matchNode playerMap currentMatch
          [byeNode childRound (playerName playerMap (winnerId currentMatch));
           byeNode childRound (playerName playerMap (loserId currentMatch))]
    }
  }.
Proof.
  all: match goal with
       | Hf : find _ _ = Some ?m |- (hops (round ?m) < _)%nat =>
           apply find_some in Hf as [_ Hf];
           apply andb_true_iff in Hf as [Hr _];
           apply bool_decide_eq_true in Hr; rewrite Hr
       end.
  all: destruct (round currentMatch); inversion Hc; subst; simpl; lia.
Qed.

(** [new Map(allPlayers.map((p) => [p.id, p]))]. *)
Definition playerMapOf (allPlayers : list Player) : gmap string Player :=
  fold_left (λ acc p, <[p_id p := p]> acc) allPlayers ∅.

(** The body of the loop over the tournaments: [written] holds the bracket
    files written so far, in order, as pairs of the tournament identifier
    that names the file and the tree. *)
Definition writeBracket (allMatches : list Match) (playerMap : gmap string Player)
    (written : list (string * BracketNode)) (tournament : Tournament)
  : Eff (list (string * BracketNode)) :=
  let tournamentMatches :=
    List.filter (λ m, String.eqb (tournamentId m) (t_id tournament)) allMatches in
  match tournamentMatches with
  | [] => mret written
  | _ =>
      match find (λ m, bool_decide (round m = R_F)) tournamentMatches with
      | None =>
          if negb (existsb (λ m, bool_decide (round m = R_RR)) tournamentMatches)
          then _ ← warn ("  - No Final found for " +:+ t_name tournament
                         +:+ ", skipping bracket.");
               mret written
          else mret written
      | Some finalMatch =>
          let bracketTree := findChildrenForMatch finalMatch tournamentMatches playerMap in
          mret (written ++ [(t_id tournament, bracketTree)])
      end
  end.

Definition generateBracketData (allMatches : list Match) (allPlayers : list Player)
    (allTournaments : list Tournament) : Eff (list (string * BracketNode)) :=
  forEach (writeBracket allMatches (playerMapOf allPlayers)) [] allTournaments.

(** ** Ingestion *)

(** A [Map] in insertion order. *)
Module OMap.

Fixpoint get {V} (key : string) (m : list (string * V)) : option V :=
  match m with
  | [] => None
  | (k, v) :: m' => if String.eqb k key then Some v else get key m'
  end.

Definition has {V} (key : string) (m : list (string * V)) : bool :=
  match get key m with Some _ => true | None => false end.

Fixpoint set {V} (key : string) (value : V) (m : list (string * V)) : list (string * V) :=
  match m with
  | [] => [(key, value)]
  | (k, v) :: m' => if String.eqb k key then (key, value) :: m' else (k, v) :: set key value m'
  end.

Definition values {V} (m : list (string * V)) : list V := map snd m.

End OMap.

(** The consolidated structures that [ingest] shares between files. *)
Record State := mkState {
  playersMap : list (string * Player);
  playerIDs : gmap string Z;
  tournamentsMap : list (string * Tournament);
  allMatches : list Match;
  allDerived : list Derived;
}.

Definition initialState : State :=
  {| playersMap := []; playerIDs := ∅; tournamentsMap := [];
     allMatches := []; allDerived := [] |}.

(** The block that creates a player on the first encounter of a name; the
    source has it once for the winner and once for the loser. *)
Definition resolvePlayer (name : string) (st : State) : State :=
  if OMap.has name (playersMap st) then st
  else
    let '(playerId, ids) := createPlayerID name (playerIDs st) in
    {| playersMap := OMap.set name {| p_id := playerId; p_name := name |} (playersMap st);
       playerIDs := ids;
       tournamentsMap := tournamentsMap st;
       allMatches := allMatches st;
       allDerived := allDerived st |}.

Section Ingest.
Context `{Runtime}.

Definition slots (row : CSVRow) : list (string * string) :=
  [(W1 row, L1 row); (W2 row, L2 row); (W3 row, L3 row); (W4 row, L4 row); (W5 row, L5 row)].

(** The loop over the set slots: the arrays [w] and [l]. *)
Fixpoint scanSets (slots : list (string * string)) : list Z * list Z :=
  match slots with
  | [] => ([], [])
  | (ws, ls) :: rest =>
      match normalizeNumber ws, normalizeNumber ls with
      | Some wScore, Some lScore =>
          let '(w, l) := scanSets rest in (wScore :: w, lScore :: l)
      | None, None => ([], [])
      | wScore, lScore =>
          let '(w, l) := scanSets rest in (default 0 wScore :: w, default 0 lScore :: l)
      end
  end.

(** The test that skips a match with no score data. *)
Definition skipsMatch (w : list Z) (wsets lsets : option Z) (comment : option string) : bool :=
  bool_decide (w = []) && (bool_decide (wsets = Some 0) && bool_decide (lsets = Some 0))
  && negb (bool_decide (comment = Some "Retired"))
  && negb (bool_decide (comment = Some "Walkover")).

Definition resolveTournament (year : option Z) (row : CSVRow) (st : State) : string * State :=
  let tournamentName := default "Unknown Tournament" (normalizeValue (Tournament_ row)) in
  let location := default "Unknown Location" (normalizeValue (Location row)) in
  let tournamentKey := JS.numToString year +:+ "-" +:+ tournamentName +:+ "-" +:+ location in
  if OMap.has tournamentKey (tournamentsMap st) then (tournamentKey, st)
  else
    let tournamentId := createTournamentID year tournamentName location in
    (tournamentKey,
     {| playersMap := playersMap st;
        playerIDs := playerIDs st;
        tournamentsMap :=
          OMap.set tournamentKey
            {| t_id := tournamentId; t_year := year; t_name := tournamentName;
               t_location := location;
               t_series := normalizeSeries (Series_ row);
               t_court := normalizeCourt (Court_ row);
               t_surface := normalizeSurface (Surface_ row) |}
            (tournamentsMap st);
        allMatches := allMatches st;
        allDerived := allDerived st |}).

(** [map.get(key)!] followed by a property access. *)
Definition getOrThrow {V} (key : string) (m : list (string * V)) : Eff V :=
  match OMap.get key m with
  | Some v => mret v
  | None => throw (TypeError "Cannot read properties of undefined")
  end.

(** The [Match] object that the row yields. *)
Definition buildMatch (row : CSVRow) (date : string) (round : Round)
    (winner loser : Player) (tournament : Tournament) : Match :=
  let matchId :=
    createMatchID (t_id tournament) date (roundName round) (p_id winner) (p_id loser) in
  let '(w, l) := scanSets (slots row) in
  let wsets := normalizeNumber (Wsets row) in
  let lsets := normalizeNumber (Lsets row) in
  let comment := normalizeValue (Comment row) in
  {| id := matchId;
     tournamentId := t_id tournament;
     date := date;
     round := round;
     bestOf := if bool_decide (normalizeNumber (BestOf row) = Some 5) then 5 else 3;
     winnerId := p_id winner;
     loserId := p_id loser;
     wRank := normalizeNumber (WRank row);
     lRank := normalizeNumber (LRank row);
     wPts := normalizeNumber (WPts row);
     lPts := normalizeNumber (LPts row);
     w := w;
     l := l;
     wsets := default 0 wsets;
     lsets := default 0 lsets;
     comment := comment |}.

(** The test on a row that skips a match with no score data. *)
Definition skipsRow (row : CSVRow) : bool :=
  skipsMatch (scanSets (slots row)).1 (normalizeNumber (Wsets row))
             (normalizeNumber (Lsets row)) (normalizeValue (Comment row)).

(** [allMatches.push(match); allDerived.push(computeDerived(match))]. *)
Definition pushMatch (m : Match) (st : State) : State :=
  {| playersMap := playersMap st;
     playerIDs := playerIDs st;
     tournamentsMap := tournamentsMap st;
     allMatches := allMatches st ++ [m];
     allDerived := allDerived st ++ [computeDerived m] |}.

(** [!row.Tournament || !row.Winner || !row.Loser || !row.Date]. *)
Definition missingEssential (row : CSVRow) : bool :=
  String.eqb (Tournament_ row) "" || String.eqb (Winner row) ""
  || String.eqb (Loser row) "" || String.eqb (Date row) "".

(** The state in which the builder of a row that is not dropped runs. *)
Definition resolved (row : CSVRow) (date winnerName loserName : string) (st : State) : State :=
  (resolveTournament (JS.parseInt (JS.take 4 date)) row
     (resolvePlayer loserName (resolvePlayer winnerName st))).2.

(** The body of the loop over the rows of a file. *)
Definition processRow (st : State) (row : CSVRow) : Eff State :=
  if missingEssential row then mret st
  else
    date ← parseDate (Date row);
    if String.eqb date "" then mret st
    else
      let year := JS.parseInt (JS.take 4 date) in
      round ← normalizeRound (Round_ row);
      match normalizeValue (Winner row), normalizeValue (Loser row) with
      | Some winnerName, Some loserName =>
          let st := resolvePlayer winnerName st in
          let st := resolvePlayer loserName st in
          winner ← getOrThrow winnerName (playersMap st);
          loser ← getOrThrow loserName (playersMap st);
          let '(tournamentKey, st) := resolveTournament year row st in
          tournament ← getOrThrow tournamentKey (tournamentsMap st);
          if skipsRow row then mret st
          else mret (pushMatch (buildMatch row date round winner loser tournament) st)
      | _, _ => mret st
      end.

(** The loops over the files and their rows. *)
Definition processFiles (csvFiles : list (list CSVRow)) : Eff State :=
  forEach (forEach processRow) initialState csvFiles.

(** What [ingest] persists. *)
Record Output := mkOutput {
  players : list Player;
  tournaments : list Tournament;
  matches : list Match;
  derived : list Derived;
  brackets : list (string * BracketNode);
}.

(** [ingest] on the parsed rows of the year files, in directory order;
    [None] when there is no file and nothing is written. *)
Definition ingest (csvFiles : list (list CSVRow)) : Eff (option Output) :=
  match csvFiles with
  | [] => mret None
  | _ =>
      st ← processFiles csvFiles;
      let players := OMap.values (playersMap st) in
      let tournaments := OMap.values (tournamentsMap st) in
      brackets ← generateBracketData (allMatches st) players tournaments;
      mret (Some {| players := players; tournaments := tournaments;
                    matches := allMatches st; derived := allDerived st;
                    brackets := brackets |})
  end.

End Ingest.

(** ** Display-name augmenter ([src/data/addCommonNames.ts]) *)

(** A value read by [JSON.parse]; an object is the list of its
    properties in enumeration order. *)
Inductive JSON :=
| JNull
| JBool (b : bool)
| JNumber (z : Z)
| JString (s : string)
| JArray (items : list JSON)
| JObject (properties : list (string * JSON)).

(** [new Map(entries)]: a later entry of a key replaces an earlier one. *)
Definition mapOfEntries (entries : list (string * string)) : gmap string string :=
  fold_left (λ m e, <[e.1 := e.2]> m) entries ∅.

Definition nameMapEntries : list (string * string) :=
  [ ("Brisbane International", "Brisbane International");
    ("Hong Kong Tennis Open", "Hong Kong Open");
    ("Adelaide International", "Adelaide International");
    ("ASB Classic", "Auckland Open");
    ("Australian Open", "Australian Open");
    ("Open Sud de France", "Montpellier Open");
    ("Dallas Open", "Dallas Open");
    ("ABN AMRO World Tennis Tournament", "Rotterdam Open");
    ("Argentina Open", "Buenos Aires Open");
    ("Delray Beach Open", "Delray Beach Open");
    ("Open 13", "Marseille Open");
    ("Qatar Exxon Mobil Open", "Doha Open");
    ("Rio Open", "Rio Open");
    ("Abierto Mexicano", "Acapulco Open");
    ("Dubai Tennis Championships", "Dubai Open");
    ("Chile Open", "Santiago Open");
    ("BNP Paribas Open", "Indian Wells");
    ("Miami Open", "Miami Open");
    ("Tiriac Open", "Bucharest Open");
    ("U.S. Men's Clay Court Championships", "Houston Open");
    ("Grand Prix Hassan II", "Marrakech Open");
    ("Monte Carlo Masters", "Monte Carlo Masters");
    ("Barcelona Open", "Barcelona Open");
    ("BMW Open", "Munich Open");
    ("Mutua Madrid Open", "Madrid Open");
    ("Internazionali BNL d'Italia", "Italian Open");
    ("Geneva Open", "Geneva Open");
    ("Hamburg Open", "Hamburg Open");
    ("French Open", "French Open");
    ("Stuttgart Open", "Stuttgart Open");
    ("Rosmalen Grass Court Championships", "Rosmalen Open");
    ("Halle Open", "Halle Open");
    ("Queen's Club Championships", "Queen's Club");
    ("Eastbourne International", "Eastbourne International");
    ("Mallorca Championships", "Mallorca Open");
    ("Wimbledon", "Wimbledon");
    ("Nordea Open", "Swedish Open");
    ("Suisse Open Gstaad", "Gstaad Open");
    ("Los Cabos Open", "Los Cabos Open");
    ("Generali Open", "Kitzb" +:+ String (ascii_of_nat 252) "hel Open");
    ("Croatia Open", "Umag Open");
    ("Citi Open", "Washington Open");
    ("Canadian Open", "Canadian Open");
    ("Western & Southern Financial Group Masters", "Cincinnati Masters");
    ("Winston-Salem Open at Wake Forest University", "Winston-Salem Open");
    ("US Open", "US Open");
    ("Chengdu Open", "Chengdu Open");
    ("Hangzhou Open", "Hangzhou Open");
    ("China Open", "China Open");
    ("Japan Open Tennis Championships", "Japan Open");
    ("Shanghai Masters", "Shanghai Masters");
    ("Almaty Open", "Almaty Open");
    ("European Open", "Antwerp Open");
    ("Nordic Open", "Stockholm Open");
    ("Swiss Indoors", "Basel Open");
    ("Vienna Open", "Vienna Open");
    ("BNP Paribas Masters", "Paris Masters") ].

Definition nameMap : gmap string string := mapOfEntries nameMapEntries.

(** [const { commonName: _, ...rest } = tournament]. *)
Definition withoutProperty (key : string) (object : list (string * JSON))
  : list (string * JSON) :=
  List.filter (λ p, negb (String.eqb p.1 key)) object.

(** [tournament.name] as a key of the table: only a string can be one. *)
Definition formalNameOf (tournament : list (string * JSON)) : option string :=
  match OMap.get "name" tournament with
  | Some (JString formalName) => Some formalName
  | _ => None
  end.

(** The function mapped over the tournaments, for a table [table]. *)
Definition mergeCommonName (table : gmap string string)
    (tournament : list (string * JSON)) : list (string * JSON) :=
  match formalNameOf tournament ≫= (table !!.) with
  | Some commonName => OMap.set "commonName" (JString commonName) tournament
  | None => withoutProperty "commonName" tournament
  end.

(** [addCommonNames] on the parsed content of the tournaments file: the
    value that is written back. *)
Definition addCommonNames (tournaments : list (list (string * JSON)))
  : list (list (string * JSON)) :=
  map (mergeCommonName nameMap) tournaments.

(** The subtree on the side of the participant [playerId] of a match whose
    round is fed by [childRound]: the tree of the participant's previous
    match, or a bye. *)
Definition sideNode (allTournamentMatches : list Match) (playerMap : gmap string Player)
    (childRound : Round) (playerId : string) : BracketNode :=
  match find (feeds childRound playerId) allTournamentMatches with
  | Some prevMatch => findChildrenForMatch prevMatch allTournamentMatches playerMap
  | None => byeNode childRound (playerName playerMap playerId)
  end.

(** The number of edges on the longest path from a node down to a leaf. *)
Fixpoint height (n : BracketNode) : nat :=
  let 'Node _ _ cs := n in
  (fix heights (l : list BracketNode) : nat :=
     match l with
     | [] => O
     | c :: l' => Nat.max (S (height c)) (heights l')
     end) cs.

(** The nodes of a tree, root first. *)
Fixpoint nodes (n : BracketNode) : list BracketNode :=
  let 'Node _ _ cs := n in
  n :: (fix below (l : list BracketNode) : list BracketNode :=
          match l with
          | [] => []
          | c :: l' => nodes c ++ below l'
          end) cs.

(** A node of the tree built from [all] and [playerMap] is a leaf, or it
    is the node of a match whose round has a feeding round and its
    children are the winner's side and the loser's side, in that order. *)
Definition wellShaped (all : list Match) (playerMap : gmap string Player)
    (n : BracketNode) : Prop :=
  children n = [] ∨
  ∃ (m : Match) (childRound : Round),
    n = findChildrenForMatch m all playerMap ∧
    roundPrecedence (round m) = Some childRound ∧
    children n = [sideNode all playerMap childRound (winnerId m);
                  sideNode all playerMap childRound (loserId m)].

(** A bye leaf of [player] at [childRound], as the specification words it. *)
Definition isByeLeaf (childRound : Round) (player : string) (n : BracketNode) : Prop :=
  attributes n = {| a_round := childRound; winnerName := player;
                    loserName := "BYE"; score := "BYE" |}
  ∧ children n = [].

(** The name that every node is said to carry. *)
Definition namedAfterResult (n : BracketNode) : Prop :=
  name n = winnerName (attributes n) +:+ " d. " +:+ loserName (attributes n).

(** What the nodes of a tree are named: the node of a match after its
    result, with the names of the registry or ['Unknown'], and a bye leaf
    after the player alone. *)
Definition nodeNamed (all : list Match) (playerMap : gmap string Player)
    (n : BracketNode) : Prop :=
  (∃ m : Match,
     n = findChildrenForMatch m all playerMap ∧
     winnerName (attributes n) = playerName playerMap (winnerId m) ∧
     loserName (attributes n) = playerName playerMap (loserId m) ∧
     namedAfterResult n)
  ∨ (loserName (attributes n) = "BYE" ∧ score (attributes n) = "BYE" ∧
     children n = [] ∧ name n = winnerName (attributes n)).

(** The scenario of the specification: a Final and two Semifinals, no
    Quarterfinal. *)
Module Scenario.
Definition mk (rd : Round) (mid wi li : string) : Match :=
  {| id := mid; tournamentId := "t1"; date := "2024-01-07"; round := rd; bestOf := 3;
     winnerId := wi; loserId := li; wRank := Some 1; lRank := Some 2;
     wPts := None; lPts := None; w := [6; 6]; l := [4; 3]; wsets := 2; lsets := 0;
     comment := None |}.
Definition final : Match := mk R_F "m1" "a" "b".
Definition semi1 : Match := mk R_SF "m2" "a" "c".
Definition semi2 : Match := mk R_SF "m3" "b" "d".
Definition tournament : list Match := [final; semi1; semi2].
Definition registry : gmap string Player :=
  <["a" := mkPlayer "a" "Alice"]> (<["b" := mkPlayer "b" "Bob"]>
  (<["c" := mkPlayer "c" "Carol"]> ∅)).
End Scenario.

(** ** The specification's words, for comparison with the code *)

(** The hash of the specification: [hash = hash*31 + charCode], wrapped to
    a signed 32-bit value at each step, starting from 0. *)
Definition polynomialHash (codes : list Z) : Z :=
  fold_left (λ hash charCode, toInt32 (hash * 31 + charCode)) codes 0.

(** An identifier of the specification: the type tag followed by the
    absolute value of the hash of the key. *)
Definition taggedHashID (tag key : string) : string :=
  tag +:+ JS.numberToString (Z.abs (polynomialHash (JS.charCodes key))).

(** The composite keys of the two generators. *)
Definition tournamentKeyOf (year : option Z) (tournament location : string) : string :=
  JS.numToString year +:+ "-" +:+ tournament +:+ "-" +:+ location.

Definition matchKeyOf (tournamentId date round winnerId loserId : string) : string :=
  tournamentId +:+ "-" +:+ date +:+ "-" +:+ round +:+ "-" +:+ winnerId +:+ "-" +:+ loserId.

(** The set-score builder in the specification's words: the slots up to
    the first one where both games are absent, a missing side read as 0. *)
Section RecordedSets.
Context `{Runtime}.

Definition bothAbsent (slot : string * string) : bool :=
  bool_decide (normalizeNumber slot.1 = None) && bool_decide (normalizeNumber slot.2 = None).

Fixpoint recordedSlots (slots : list (string * string)) : list (string * string) :=
  match slots with
  | [] => []
  | slot :: rest => if bothAbsent slot then [] else slot :: recordedSlots rest
  end.

Definition winnerGames (slot : string * string) : Z := default 0 (normalizeNumber slot.1).
Definition loserGames (slot : string * string) : Z := default 0 (normalizeNumber slot.2).

(** The invariant of a match of the pipeline. *)
Definition setsAligned (m : Match) : Prop :=
  length (w m) = length (l m) ∧ (length (w m) ≤ 5)%nat.

End RecordedSets.

(** A row of the 2024 file and variations of it, for running the model. *)
Module Sample.
Definition row : CSVRow :=
  {| Location := "Brisbane"; Tournament_ := "Brisbane International";
     Date := "01/02/24"; Series_ := "ATP250"; Court_ := "Outdoor"; Surface_ := "Hard";
     Round_ := "1st Round"; BestOf := "3"; Winner := "John Smith"; Loser := "Jane Doe";
     WRank := "12"; LRank := "40"; WPts := "3000"; LPts := "1200";
     W1 := "6"; L1 := "4"; W2 := "3"; L2 := ""; W3 := ""; L3 := "";
     W4 := "7"; L4 := "5"; W5 := ""; L5 := "";
     Wsets := "1"; Lsets := "0"; Comment := "Retired" |}.

(** The same row with no set scores, a set count and a comment. *)
Definition noScores (wsets lsets comment : string) : CSVRow :=
  {| Location := "Brisbane"; Tournament_ := "Brisbane International";
     Date := "01/02/24"; Series_ := "ATP250"; Court_ := "Outdoor"; Surface_ := "Hard";
     Round_ := "1st Round"; BestOf := "3"; Winner := "John Smith"; Loser := "Jane Doe";
     WRank := "12"; LRank := "40"; WPts := "3000"; LPts := "1200";
     W1 := ""; L1 := ""; W2 := ""; L2 := ""; W3 := ""; L3 := "";
     W4 := ""; L4 := ""; W5 := ""; L5 := "";
     Wsets := wsets; Lsets := lsets; Comment := comment |}.
End Sample.

(** ** Player identifiers in the specification's words *)

(** The names of a sequence in the order of their first occurrence. *)
Definition firstSeen (names : list string) : list string :=
  fold_left (λ order name, if decide (name ∈ order) then order else order ++ [name]) names [].

(** The number of names of [order] that slugify to the slug of [name]. *)
Definition sameSlugCount (name : string) (order : list string) : nat :=
  length (filter (λ n, slugify n = slugify name) order).

(** The bare slug for the first player of a slug, [slug-N] for the one
    after [N] earlier players of the slug. *)
Definition playerIdFor (slug : string) (earlier : nat) : string :=
  match earlier with
  | O => slug
  | S _ => slug +:+ "-" +:+ JS.numberToString (Z.of_nat earlier)
  end.

(** The player of the [i]-th distinct name [name] of [order]. *)
Definition expectedPlayer (order : list string) (i : nat) (name : string) : Player :=
  {| p_id := playerIdFor (slugify name) (sameSlugCount name (take i order));
     p_name := name |}.

(** The registry after the distinct names [order], in that order. *)
Definition registryOf (st : State) (order : list string) : Prop :=
  map fst (playersMap st) = order ∧
  NoDup order ∧
  (∀ slug, playerIDs st !! slug
           = match length (filter (λ n, slugify n = slug) order) with
             | O => None
             | S k => Some (Z.of_nat k)
             end) ∧
  (∀ i name, order !! i = Some name →
             OMap.get name (playersMap st) = Some (expectedPlayer order i name)).

(** The player blocks of the rows, run on a sequence of names. *)
Definition resolvePlayers (names : list string) (st : State) : State :=
  fold_left (λ st name, resolvePlayer name st) names st.

(** The names that a row brings to the player blocks. *)
Definition rowNames `{Runtime} (row : CSVRow) : list string :=
  if missingEssential row then []
  else match outcome (parseDate (Date row)) with
       | Returned date =>
           if String.eqb date "" then []
           else match normalizeValue (Winner row), normalizeValue (Loser row) with
                | Some winnerName, Some loserName => [winnerName; loserName]
                | _, _ => []
                end
       | Thrown _ => []
       end.

(** Two states with the same player registry. *)
Definition samePlayers (st1 st2 : State) : Prop :=
  playersMap st1 = playersMap st2 ∧ playerIDs st1 = playerIDs st2.

(** ** Date shapes in the specification's words *)

(** A run of [n] decimal digits. *)
Definition digits (n : nat) (s : string) : Prop :=
  String.length s = n ∧ JS.every JS.isDigit s = true.

(** The number that a run of decimal digits writes. *)
Definition digitsValue (s : string) : Z := (JS.readDigits 10 0 0 s).2.

(** [YYYY-MM-DD] and [MM/DD/YYYY]. *)
Definition dashed (y m d : string) : string := y +:+ "-" +:+ m +:+ "-" +:+ d.
Definition slashed (m d y : string) : string := m +:+ "/" +:+ d +:+ "/" +:+ y.

(** A runtime whose dates of the years 0 to 9999, with a month and a day
    of at most two digits, can be rendered. *)
Definition rendersCivilDates `{Runtime} : Prop :=
  ∀ y m d, 0 ≤ y ≤ 9999 → -1 ≤ m ≤ 98 → 0 ≤ d ≤ 99 → is_Some (toISODate y m d).

(** ** Further notions for the bracket files *)

(** A node with two children is fed by them: both are of the round that
    precedes its own, the first is won by its winner and the second by its
    loser. *)
Definition fedByChildren (n : BracketNode) : Prop :=
  match children n with
  | [] => True
  | [a; b] =>
      roundPrecedence (a_round (attributes n)) = Some (a_round (attributes a))
      ∧ a_round (attributes b) = a_round (attributes a)
      ∧ winnerName (attributes a) = winnerName (attributes n)
      ∧ winnerName (attributes b) = loserName (attributes n)
  | _ => False
  end.

(** The matches of a tournament, as [generateBracketData] filters them. *)
Definition tournamentMatchesOf (allMatches : list Match) (tournament : Tournament)
  : list Match :=
  List.filter (λ m, String.eqb (tournamentId m) (t_id tournament)) allMatches.

Definition isFinal (m : Match) : bool := bool_decide (round m = R_F).
Definition isRoundRobin (m : Match) : bool := bool_decide (round m = R_RR).

(** The bracket file of a tournament, when it has a Final. *)
Definition bracketOf (allMatches : list Match) (playerMap : gmap string Player)
    (tournament : Tournament) : option (string * BracketNode) :=
  match find isFinal (tournamentMatchesOf allMatches tournament) with
  | Some finalMatch =>
      Some (t_id tournament,
            findChildrenForMatch finalMatch (tournamentMatchesOf allMatches tournament)
                                 playerMap)
  | None => None
  end.

(** The warning about a tournament that has matches, no Final and no
    round-robin match. *)
Definition warningOf (allMatches : list Match) (tournament : Tournament) : option string :=
  let tournamentMatches := tournamentMatchesOf allMatches tournament in
  if bool_decide (tournamentMatches = []) || existsb isFinal tournamentMatches
     || existsb isRoundRobin tournamentMatches
  then None
  else Some ("  - No Final found for " +:+ t_name tournament +:+ ", skipping bracket.").

(** The ['w-l'] item of a set. *)
Definition setScore (wScore lScore : Z) : string :=
  JS.numberToString wScore +:+ "-" +:+ JS.numberToString lScore.

(** A Final and two rows of the same Semifinal, for the order of the list. *)
Module Duplicate.
Definition semi1' : Match := Scenario.mk R_SF "m4" "a" "z".
Definition tournament : list Match := [Scenario.final; Scenario.semi1; semi1'].
End Duplicate.

(** ** Further notions for identifiers *)

(** The characters of a slug: lower-case letters, digits, the underscore
    and the hyphen. *)
Definition isSlugChar (c : ascii) : bool :=
  JS.isLower c || JS.isDigit c || (JS.charCode c =? 95) || isHyphen c.

(** No hyphen of [s] follows another one; [afterHyphen] tells that the
    character before [s] is a hyphen. *)
Fixpoint singleHyphens (afterHyphen : bool) (s : string) : bool :=
  match s with
  | EmptyString => true
  | String c s' =>
      if isHyphen c then negb afterHyphen && singleHyphens true s'
      else singleHyphens false s'
  end.

(** The identifier of the registered name [name] after the names of a
    run. *)
Definition playerIdOf (names : list string) (name : string) : option string :=
  p_id <$> OMap.get name (playersMap (resolvePlayers names initialState)).

(** Three names of which the second gets the identifier that the third
    gets as its bare slug. *)
Module Clash.
Definition names : list string := ["A Smith"; "A. Smith"; "A Smith 1"].
End Clash.

(** ** Further notions for the normalizer *)

(** The values of the categorical types, as [src/types.ts] writes them. *)
Definition seriesName (x : Series) : string :=
  match x with
  | GrandSlam => "Grand Slam" | Masters => "Masters" | ATP500 => "ATP500" | ATP250 => "ATP250"
  end.

Definition courtName (x : Court) : string :=
  match x with Indoor => "Indoor" | Outdoor => "Outdoor" end.

Definition surfaceName (x : Surface) : string :=
  match x with Hard => "Hard" | Clay => "Clay" | Grass => "Grass" | Carpet => "Carpet" end.

(** The sum of the games of an array. *)
Definition sumOf (games : list Z) : Z := foldr Z.add 0 games.

(** ** Consistency of the consolidated data *)

(** The match names players and a tournament of the data. *)
Definition refersTo (players : list Player) (tournaments : list Tournament) (m : Match) : Prop :=
  winnerId m ∈ map p_id players ∧ loserId m ∈ map p_id players
  ∧ tournamentId m ∈ map t_id tournaments.

(** The identifier of the match is the one of its own fields. *)
Definition selfIdentified (m : Match) : Prop :=
  id m = createMatchID (tournamentId m) (date m) (roundName (round m)) (winnerId m) (loserId m).

(** The tournament has the identifier of its own fields, and a name and a
    location. *)
Definition registeredTournament (t : Tournament) : Prop :=
  t_id t = createTournamentID (t_year t) (t_name t) (t_location t)
  ∧ t_name t ≠ "" ∧ t_location t ≠ "".

(** What the loops of [ingest] keep true of the structures they share. *)
Definition consistent (st : State) : Prop :=
  allDerived st = map computeDerived (allMatches st)
  ∧ Forall (refersTo (OMap.values (playersMap st)) (OMap.values (tournamentsMap st)))
           (allMatches st)
  ∧ Forall (λ m, (bestOf m = 3 ∨ bestOf m = 5) ∧ date m ≠ "" ∧ selfIdentified m)
           (allMatches st)
  ∧ Forall (λ e : string * Player, p_name e.2 = e.1 ∧ normalizeValue e.1 = Some e.1)
           (playersMap st)
  ∧ Forall (λ e : string * Tournament,
              e.1 = tournamentKeyOf (t_year e.2) (t_name e.2) (t_location e.2)
              ∧ registeredTournament e.2)
           (tournamentsMap st)
  ∧ NoDup (map fst (playersMap st))
  ∧ NoDup (map fst (tournamentsMap st)).

(** The records of [st] are the first records of [st'], in the same
    order. *)
Definition extends (st st' : State) : Prop :=
  playersMap st `prefix_of` playersMap st'
  ∧ tournamentsMap st `prefix_of` tournamentsMap st'
  ∧ allMatches st `prefix_of` allMatches st'
  ∧ allDerived st `prefix_of` allDerived st'.


(** A run on two year files: a match, a row with no score data, which is
    skipped, and a row with set counts only, which is kept. *)
Module Run.
Definition firstYear : list CSVRow := [Sample.row; Sample.noScores "0" "0" "Completed"].
Definition secondYear : list CSVRow := [Sample.noScores "2" "0" "Completed"].
Definition files : list (list CSVRow) := [firstYear; secondYear].

(** A row whose date has three parts that are not numbers. *)
Definition invalidDate : CSVRow :=
  {| Location := "Brisbane"; Tournament_ := "Brisbane International";
     Date := "a/b/c"; Series_ := "ATP250"; Court_ := "Outdoor"; Surface_ := "Hard";
     Round_ := "1st Round"; BestOf := "3"; Winner := "John Smith"; Loser := "Jane Doe";
     WRank := "12"; LRank := "40"; WPts := "3000"; LPts := "1200";
     W1 := "6"; L1 := "4"; W2 := "6"; L2 := "2"; W3 := ""; L3 := "";
     W4 := ""; L4 := ""; W5 := ""; L5 := "";
     Wsets := "2"; Lsets := "0"; Comment := "Completed" |}.
End Run.


(** ** Display names (the tournament-name helper of the dashboard) *)




(** ** The bracket files on a file system that can fail *)

(** The file system as [generateBracketData] meets it: whether the bracket
    directory exists, the error with which [mkdirSync] fails when it does,
    and the error with which a [writeFileSync] fails when it does, given
    the files that the call has written before, the tournament identifier
    that names the file, and the tree. *)
Record FileSystem (E : Type) := mkFileSystem {
  existsSync : bool;
  mkdirSync : option E;
  writeFileSync : list (string * BracketNode) → string → BracketNode → option E;
}.
Arguments existsSync {E} _.
Arguments mkdirSync {E} _.
Arguments writeFileSync {E} _ _ _ _.

(** What a call of [generateBracketData] leaves: the warnings, the files
    that it wrote, in order, and the error that ended it, if any. *)
Record BracketRun (E : Type) := mkBracketRun {
  warned : list string;
  writtenFiles : list (string * BracketNode);
  failure : option E;
}.
Arguments mkBracketRun {E} _ _ _.
Arguments warned {E} _.
Arguments writtenFiles {E} _.
Arguments failure {E} _.

(** The loop over the tournaments, [written] being the files written so
    far. *)
Fixpoint writeBrackets {E} (fs : FileSystem E) (allMatches : list Match)
    (playerMap : gmap string Player) (written : list (string * BracketNode))
    (tournaments : list Tournament) : BracketRun E :=
  match tournaments with
  | [] => mkBracketRun [] written None
  | tournament :: rest =>
      let tournamentMatches :=
        List.filter (λ m, String.eqb (tournamentId m) (t_id tournament)) allMatches in
      match tournamentMatches with
      | [] => writeBrackets fs allMatches playerMap written rest
      | _ =>
          match find (λ m, bool_decide (round m = R_F)) tournamentMatches with
          | None =>
              if negb (existsb (λ m, bool_decide (round m = R_RR)) tournamentMatches)
              then
                let run := writeBrackets fs allMatches playerMap written rest in
                mkBracketRun
                  (("  - No Final found for " +:+ t_name tournament +:+ ", skipping bracket.")
                     :: warned run)
                  (writtenFiles run) (failure run)
              else writeBrackets fs allMatches playerMap written rest
          | Some finalMatch =>
              let bracketTree := findChildrenForMatch finalMatch tournamentMatches playerMap in
              match writeFileSync fs written (t_id tournament) bracketTree with
              | Some e => mkBracketRun [] written (Some e)
              | None =>
                  writeBrackets fs allMatches playerMap
                    (written ++ [(t_id tournament, bracketTree)]) rest
              end
          end
      end
  end.

(** [generateBracketData] on a file system. *)
Definition generateBracketDataOn {E} (fs : FileSystem E) (allMatches : list Match)
    (allPlayers : list Player) (allTournaments : list Tournament) : BracketRun E :=
  let playerMap := playerMapOf allPlayers in
  if existsSync fs then writeBrackets fs allMatches playerMap [] allTournaments
  else
    match mkdirSync fs with
    | Some e => mkBracketRun [] [] (Some e)
    | None => writeBrackets fs allMatches playerMap [] allTournaments
    end.

(** Two tournaments with a Final each, and a disk that takes the file of
    the first and fails on the file of the second. *)
Module Disk.
Definition tournamentOf (tid name : string) : Tournament :=
  {| t_id := tid; t_year := Some 2024; t_name := name; t_location := "Brisbane";
     t_series := ATP250; t_court := Outdoor; t_surface := Hard |}.
Definition final2 : Match :=
  {| id := "m9"; tournamentId := "t2"; date := "2024-01-14"; round := R_F; bestOf := 3;
     winnerId := "a"; loserId := "c"; wRank := Some 1; lRank := Some 3;
     wPts := None; lPts := None; w := [6; 6]; l := [2; 2]; wsets := 2; lsets := 0;
     comment := None |}.
Definition matches : list Match := Scenario.tournament ++ [final2].
Definition tournaments : list Tournament := [tournamentOf "t1" "First"; tournamentOf "t2" "Second"].
Definition players : list Player :=
  [mkPlayer "a" "Alice"; mkPlayer "b" "Bob"; mkPlayer "c" "Carol"].
Definition full : FileSystem string :=
  {| existsSync := true; mkdirSync := None;
     writeFileSync := λ _ name _, if String.eqb name "t2" then Some "ENOSPC" else None |}.
End Disk.

(** * Properties *)

(** ** Running the model *)

Example trim_ex : JS.trim "  N/a  " = "N/a".
Proof. reflexivity. Qed.

Example split_ex : JS.split "/" "01/02/24" = ["01"; "02"; "24"] ∧ JS.split "-" "" = [""].
Proof. split; reflexivity. Qed.

Example parseInt_ex :
  JS.parseInt " -012abc" = Some (-12) ∧ JS.parseInt "abc" = None
  ∧ JS.parseInt "0x1f" = Some 31 ∧ JS.parseInt "undefined" = None.
Proof. split_and!; reflexivity. Qed.

Example includes_ex : JS.includes "the semifinals" "final" = true.
Proof. reflexivity. Qed.

Example toISODate_ex :
  UTC.toISODate 2024 0 2 = Some "2024-01-02"
  ∧ UTC.toISODate 24 0 2 = Some "1924-01-02"
  ∧ UTC.toISODate 2024 12 0 = Some "2024-12-31"
  ∧ UTC.toISODate 2024 1 30 = Some "2024-03-01"
  ∧ UTC.toISODate (-1) 0 1 = Some "-000001-01-01"
  ∧ UTC.toISODate 275760 8 13 = Some "+275760-09-13"
  ∧ UTC.toISODate 275760 8 14 = None.
Proof. split_and!; reflexivity. Qed.

Example parseDate_ex :
  @parseDate utcRuntime "01/02/24" = mkEff [] (Returned "2024-01-02")
  ∧ @parseDate utcRuntime "2024-03-15" = mkEff [] (Returned "2024-03-15")
  ∧ @parseDate utcRuntime "March 3" = mkEff ["Could not parse date: March 3"] (Returned "").
Proof. split_and!; reflexivity. Qed.

Example slugify_ex :
  slugify "John Smith" = "john-smith"
  ∧ slugify "Auger-Aliassime F." = "auger-aliassime-f"
  ∧ slugify "O'Connell  C." = "oconnell-c".
Proof. split_and!; reflexivity. Qed.

Example hashString_ex : hashString "Aa" = 2112 ∧ hashString "BB" = 2112.
Proof. split; reflexivity. Qed.

Example normalizeRound_ex :
  normalizeRound "The Final" = mret R_F ∧ normalizeRound "Semifinals" = mret R_SF
  ∧ normalizeRound "Round of 16"
    = mkEff ["Unknown round type: Round of 16. Defaulting to 1R."] (Returned R_1R).
Proof. split_and!; reflexivity. Qed.

Example addCommonNames_ex :
  addCommonNames
    [[("id", JString "t1"); ("name", JString "BNP Paribas Open"); ("year", JNumber 2024)];
     [("id", JString "t2"); ("commonName", JString "Old"); ("name", JString "Foo")]]
  = [[("id", JString "t1"); ("name", JString "BNP Paribas Open"); ("year", JNumber 2024);
      ("commonName", JString "Indian Wells")];
     [("id", JString "t2"); ("name", JString "Foo")]].
Proof. vm_compute. reflexivity. Qed.

(** ** Bracket reconstructor *)

Lemma findChildrenForMatch_eq (m : Match) (all : list Match) (pm : gmap string Player) :
  findChildrenForMatch m all pm =
  matchNode pm m
    match roundPrecedence (round m) with
    | None => []
    | Some childRound =>
        [sideNode all pm childRound (winnerId m); sideNode all pm childRound (loserId m)]
    end.
Proof.
  funelim (findChildrenForMatch m all pm); unfold sideNode;
    repeat match goal with
           | E : roundPrecedence _ = _ |- _ => rewrite E
           | E : find _ _ = _ |- _ => rewrite E
           end; reflexivity.
Qed.

Lemma roundPrecedence_hops (r c : Round) :
  roundPrecedence r = Some c → hops r = S (hops c).
Proof. destruct r; intros [= <-]; reflexivity. Qed.

Lemma hops_le_9 (r : Round) : (hops r ≤ 9)%nat.
Proof. destruct r; simpl; lia. Qed.

Lemma feeds_round (c : Round) (pid : string) (all : list Match) (prev : Match) :
  find (feeds c pid) all = Some prev →
  prev ∈ all ∧ round prev = c ∧ winnerId prev = pid.
Proof.
  intros Hf. apply find_some in Hf as [Hin Hf].
  apply andb_true_iff in Hf as [Hr Hw].
  apply bool_decide_eq_true in Hr. apply String.eqb_eq in Hw.
  split; [by apply list_elem_of_In|done].
Qed.

(** Induction along the calls of [findChildrenForMatch]. *)
Lemma findChildrenForMatch_ind' (all : list Match) (pm : gmap string Player)
    (P : Match → BracketNode → Prop) :
  (∀ m, roundPrecedence (round m) = None → P m (matchNode pm m [])) →
  (∀ m c, roundPrecedence (round m) = Some c →
     (∀ pid prev, find (feeds c pid) all = Some prev →
        P prev (findChildrenForMatch prev all pm)) →
     P m (matchNode pm m [sideNode all pm c (winnerId m); sideNode all pm c (loserId m)])) →
  ∀ m, P m (findChildrenForMatch m all pm).
Proof.
  intros Hleaf Hnode m.
  remember (hops (round m)) as k eqn:Hk.
  revert m Hk. induction k as [k IH] using lt_wf_ind. intros m Hk.
  rewrite findChildrenForMatch_eq.
  destruct (roundPrecedence (round m)) as [c|] eqn:Hc; [|by apply Hleaf].
  apply Hnode; [done|]. intros pid prev Hf.
  apply feeds_round in Hf as (_ & Hr & _).
  apply (IH (hops (round prev))); [|done].
  rewrite Hk, (roundPrecedence_hops _ _ Hc), Hr. lia.
Qed.

Lemma height_matchNode2 (pm : gmap string Player) (m : Match) (a b : BracketNode) :
  height (matchNode pm m [a; b]) = S (Nat.max (height a) (height b)).
Proof. simpl. lia. Qed.

Lemma nodes_matchNode2 (pm : gmap string Player) (m : Match) (a b : BracketNode) :
  nodes (matchNode pm m [a; b]) = matchNode pm m [a; b] :: nodes a ++ nodes b.
Proof. simpl. by rewrite app_nil_r. Qed.

Lemma height_sideNode (all : list Match) (pm : gmap string Player) (c : Round) (pid : string) :
  (∀ prev, find (feeds c pid) all = Some prev →
     (height (findChildrenForMatch prev all pm) ≤ hops (round prev))%nat) →
  (height (sideNode all pm c pid) ≤ hops c)%nat.
Proof.
  intros IH. unfold sideNode.
  destruct (find (feeds c pid) all) as [prev|] eqn:Hf; [|simpl; lia].
  specialize (IH prev eq_refl). apply feeds_round in Hf as (_ & <- & _). done.
Qed.

Lemma height_findChildrenForMatch (m : Match) (all : list Match) (pm : gmap string Player) :
  (height (findChildrenForMatch m all pm) ≤ hops (round m))%nat.
Proof.
  revert m.
  apply (findChildrenForMatch_ind' all pm (λ m t, (height t ≤ hops (round m))%nat)).
  - intros m _. simpl. lia.
  - intros m c Hc IH. rewrite height_matchNode2, (roundPrecedence_hops _ _ Hc).
    pose proof (height_sideNode all pm c (winnerId m) (IH _)).
    pose proof (height_sideNode all pm c (loserId m) (IH _)). lia.
Qed.

Lemma wellShaped_sideNode (all : list Match) (pm : gmap string Player) (c : Round) (pid : string) :
  (∀ prev, find (feeds c pid) all = Some prev →
     Forall (wellShaped all pm) (nodes (findChildrenForMatch prev all pm))) →
  Forall (wellShaped all pm) (nodes (sideNode all pm c pid)).
Proof.
  intros IH. unfold sideNode.
  destruct (find (feeds c pid) all) as [prev|] eqn:Hf; [by apply IH|].
  simpl. constructor; [by left|constructor].
Qed.

Lemma wellShaped_findChildrenForMatch (m : Match) (all : list Match) (pm : gmap string Player) :
  Forall (wellShaped all pm) (nodes (findChildrenForMatch m all pm)).
Proof.
  revert m.
  apply (findChildrenForMatch_ind' all pm (λ _ t, Forall (wellShaped all pm) (nodes t))).
  - intros m _. simpl. constructor; [by left|constructor].
  - intros m c Hc IH. rewrite nodes_matchNode2. constructor.
    + right. exists m, c. split_and!; [|done|done].
      by rewrite findChildrenForMatch_eq, Hc.
    + apply Forall_app. split; apply wellShaped_sideNode; apply IH.
Qed.

Lemma writeBracket_returns (allMatches : list Match) (pm : gmap string Player)
    (written : list (string * BracketNode)) (tournament : Tournament) :
  outcome (writeBracket allMatches pm written tournament) = Returned written
  ∨ ∃ final tournamentMatches,
      round final = R_F ∧
      outcome (writeBracket allMatches pm written tournament)
      = Returned (written ++ [(t_id tournament, findChildrenForMatch final tournamentMatches pm)]).
Proof.
  unfold writeBracket.
  destruct (List.filter _ allMatches) as [|m0 tms] eqn:Hf; [by left|].
  destruct (find _ (m0 :: tms)) as [final|] eqn:Hfinal.
  - right. exists final, (m0 :: tms). split; [|done].
    apply find_some in Hfinal as [_ Hr]. by apply bool_decide_eq_true in Hr.
  - left. by destruct (negb _).
Qed.

(** Every bracket file holds the tree of a Final: its nodes have no or
    two children and it is at most 9 high. *)
Lemma generateBracketData_trees (allMatches : list Match) (allPlayers : list Player)
    (allTournaments : list Tournament) :
  ∃ written,
    outcome (generateBracketData allMatches allPlayers allTournaments) = Returned written ∧
    Forall (λ file, (height file.2 ≤ 9)%nat ∧
                    Forall (λ n, length (children n) = 0 ∨ length (children n) = 2)%nat
                           (nodes file.2))
           written.
Proof.
  unfold generateBracketData. generalize (playerMapOf allPlayers). intros pm.
  assert (Hgen : ∀ ts written,
            Forall (λ file, (height file.2 ≤ 9)%nat ∧
                      Forall (λ n, length (children n) = 0 ∨ length (children n) = 2)%nat
                             (nodes file.2)) written →
            ∃ written',
              outcome (forEach (writeBracket allMatches pm) written ts) = Returned written' ∧
              Forall (λ file, (height file.2 ≤ 9)%nat ∧
                        Forall (λ n, length (children n) = 0 ∨ length (children n) = 2)%nat
                               (nodes file.2)) written').
  { induction ts as [|t ts IH]; intros written Hw; [by exists written|].
    simpl.
    destruct (writeBracket_returns allMatches pm written t) as [Hr|(final & tms & HF & Hr)].
    - rewrite (bind_returned _ _ _ Hr). by apply IH.
    - rewrite (bind_returned _ _ _ Hr). apply IH. apply Forall_app. split; [done|].
      constructor; [|constructor]. simpl.
      pose proof (height_findChildrenForMatch final tms pm) as Hh.
      pose proof (hops_le_9 (round final)) as H9.
      split; [lia|]. eapply Forall_impl; [apply wellShaped_findChildrenForMatch|].
      intros n [Hn|(m' & c & _ & _ & Hn)]; rewrite Hn; [by left|by right]. }
  apply Hgen. constructor.
Qed.

(** C1. Every node of a reconstructed bracket tree, whatever the match
    list and the player registry, has no children or exactly two; the two
    children of a node are the subtree of the winner's side followed by
    the subtree of the loser's side; and the tree is at most as high as
    the number of precedence steps below the round of its root, which is
    at most 9 (9 for a Final).  The bracket files that are written hold
    such trees. *)
Theorem bracket_tree_binary_and_bounded
    (m : Match) (all : list Match) (pm : gmap string Player) :
  let tree := findChildrenForMatch m all pm in
  Forall (λ n, wellShaped all pm n ∧ (length (children n) = 0 ∨ length (children n) = 2)%nat)
         (nodes tree)
  ∧ (height tree ≤ hops (round m))%nat
  ∧ (hops (round m) ≤ 9)%nat
  ∧ hops R_F = 9%nat
  ∧ (∀ allMatches allPlayers allTournaments,
       ∃ written,
         outcome (generateBracketData allMatches allPlayers allTournaments) = Returned written ∧
         Forall (λ file, (height file.2 ≤ 9)%nat ∧
                         Forall (λ n, length (children n) = 0 ∨ length (children n) = 2)%nat
                                (nodes file.2))
                written).
Proof.
  intros tree. split_and!.
  - eapply Forall_impl; [apply wellShaped_findChildrenForMatch|].
    intros n Hn. split; [done|].
    destruct Hn as [Hn|(m' & c & _ & _ & Hn)]; rewrite Hn; [by left|by right].
  - apply height_findChildrenForMatch.
  - apply hops_le_9.
  - reflexivity.
  - apply generateBracketData_trees.
Qed.

Lemma find_none_iff {A} (f : A → bool) (l : list A) :
  find f l = None ↔ ∀ x, x ∈ l → f x = false.
Proof.
  split.
  - intros Hf x Hx. apply (find_none f l Hf). by apply list_elem_of_In.
  - induction l as [|a l IH]; [done|]. intros Hall. simpl.
    rewrite (Hall a) by left. apply IH. intros x Hx. apply Hall. by right.
Qed.

Lemma sideNode_bye (all : list Match) (pm : gmap string Player) (c : Round) (pid : string) :
  (∀ x, x ∈ all → ¬ (round x = c ∧ winnerId x = pid)) →
  sideNode all pm c pid = byeNode c (playerName pm pid).
Proof.
  intros Hno. unfold sideNode.
  replace (find (feeds c pid) all) with (@None Match); [done|].
  symmetry. apply find_none_iff. intros x Hx.
  apply not_true_is_false. intros Hf. apply (Hno x Hx).
  apply andb_true_iff in Hf as [Hr Hw].
  apply bool_decide_eq_true in Hr. by apply String.eqb_eq in Hw.
Qed.

Lemma isByeLeaf_byeNode (c : Round) (player : string) : isByeLeaf c player (byeNode c player).
Proof. by split. Qed.

(** C2. When the round of a match has a feeding round and the match list
    has no match of that round won by a participant, the side of that
    participant is a bye leaf with the participant's name, ['BYE'] as loser
    and score, the feeding round, and no children.  In particular a
    Semifinal of a tournament without Quarterfinal matches is a node with
    two bye leaves at round QF, not a leaf. *)
Theorem missing_previous_match_is_bye
    (m : Match) (all : list Match) (pm : gmap string Player) (childRound : Round) :
  roundPrecedence (round m) = Some childRound →
  ∃ winnerSide loserSide,
    children (findChildrenForMatch m all pm) = [winnerSide; loserSide] ∧
    ((∀ x, x ∈ all → ¬ (round x = childRound ∧ winnerId x = winnerId m)) →
       isByeLeaf childRound (playerName pm (winnerId m)) winnerSide) ∧
    ((∀ x, x ∈ all → ¬ (round x = childRound ∧ winnerId x = loserId m)) →
       isByeLeaf childRound (playerName pm (loserId m)) loserSide) ∧
    (round m = R_SF → (∀ x, x ∈ all → round x ≠ R_QF) →
       isByeLeaf R_QF (playerName pm (winnerId m)) winnerSide ∧
       isByeLeaf R_QF (playerName pm (loserId m)) loserSide).
Proof.
  intros Hc. rewrite findChildrenForMatch_eq, Hc.
  eexists _, _. split; [reflexivity|]. split_and!.
  - intros Hno. rewrite (sideNode_bye _ _ _ _ Hno). apply isByeLeaf_byeNode.
  - intros Hno. rewrite (sideNode_bye _ _ _ _ Hno). apply isByeLeaf_byeNode.
  - intros Hsf Hno. rewrite Hsf in Hc. injection Hc as <-.
    rewrite !sideNode_bye by (intros x Hx [Hr _]; by apply (Hno x Hx)).
    split; apply isByeLeaf_byeNode.
Qed.

(** The first Semifinal of the scenario, whose round is fed by QF. *)
Lemma missing_previous_match_is_bye_witness :
  ∃ winnerSide loserSide,
    children (findChildrenForMatch Scenario.semi1 Scenario.tournament Scenario.registry)
      = [winnerSide; loserSide] ∧
    ((∀ x, x ∈ Scenario.tournament →
        ¬ (round x = R_QF ∧ winnerId x = winnerId Scenario.semi1)) →
       isByeLeaf R_QF "Alice" winnerSide) ∧
    ((∀ x, x ∈ Scenario.tournament →
        ¬ (round x = R_QF ∧ winnerId x = loserId Scenario.semi1)) →
       isByeLeaf R_QF "Carol" loserSide) ∧
    (round Scenario.semi1 = R_SF → (∀ x, x ∈ Scenario.tournament → round x ≠ R_QF) →
       isByeLeaf R_QF "Alice" winnerSide ∧ isByeLeaf R_QF "Carol" loserSide).
Proof.
  apply (missing_previous_match_is_bye Scenario.semi1 Scenario.tournament
           Scenario.registry R_QF).
  reflexivity.
Defined.

(** The scenario itself: the tree of the Final. *)
Example scenario_tree :
  findChildrenForMatch Scenario.final Scenario.tournament Scenario.registry =
  matchNode Scenario.registry Scenario.final
    [matchNode Scenario.registry Scenario.semi1 [byeNode R_QF "Alice"; byeNode R_QF "Carol"];
     matchNode Scenario.registry Scenario.semi2 [byeNode R_QF "Bob"; byeNode R_QF "Unknown"]].
Proof. vm_compute. reflexivity. Qed.

Lemma nodeNamed_matchNode (all : list Match) (pm : gmap string Player) (m : Match)
    (cs : list BracketNode) :
  findChildrenForMatch m all pm = matchNode pm m cs →
  nodeNamed all pm (matchNode pm m cs).
Proof. intros Heq. left. exists m. by rewrite Heq. Qed.

Lemma nodeNamed_sideNode (all : list Match) (pm : gmap string Player) (c : Round) (pid : string) :
  (∀ prev, find (feeds c pid) all = Some prev →
     Forall (nodeNamed all pm) (nodes (findChildrenForMatch prev all pm))) →
  Forall (nodeNamed all pm) (nodes (sideNode all pm c pid)).
Proof.
  intros IH. unfold sideNode.
  destruct (find (feeds c pid) all) as [prev|] eqn:Hf; [by apply IH|].
  simpl. constructor; [by right|constructor].
Qed.

Lemma nodeNamed_findChildrenForMatch (m : Match) (all : list Match) (pm : gmap string Player) :
  Forall (nodeNamed all pm) (nodes (findChildrenForMatch m all pm)).
Proof.
  revert m.
  apply (findChildrenForMatch_ind' all pm (λ _ t, Forall (nodeNamed all pm) (nodes t))).
  - intros m Hc. simpl. constructor; [|constructor].
    apply nodeNamed_matchNode. by rewrite findChildrenForMatch_eq, Hc.
  - intros m c Hc IH. rewrite nodes_matchNode2. constructor.
    + apply nodeNamed_matchNode. by rewrite findChildrenForMatch_eq, Hc.
    + apply Forall_app. split; apply nodeNamed_sideNode; apply IH.
Qed.

(** C10, as the code has it.  [findChildrenForMatch] is a total function
    of the match, the match list and the player registry; a participant
    with no entry in the registry is named ['Unknown']; the node of a
    match is named ['<winnerName> d. <loserName>'] from these names; a bye
    leaf is named after its player alone. *)
Theorem bracket_names_total_in_registry
    (m : Match) (all : list Match) (pm : gmap string Player) :
  (∀ playerId, pm !! playerId = None → playerName pm playerId = "Unknown")
  ∧ name (findChildrenForMatch m all pm)
    = playerName pm (winnerId m) +:+ " d. " +:+ playerName pm (loserId m)
  ∧ Forall (nodeNamed all pm) (nodes (findChildrenForMatch m all pm)).
Proof.
  split_and!.
  - intros pid Hpid. unfold playerName. by rewrite Hpid.
  - by rewrite findChildrenForMatch_eq.
  - apply nodeNamed_findChildrenForMatch.
Qed.

(** C10 as stated fails on the bye leaves: with an empty registry the
    tree of a lone Final has two leaves named ["Unknown"], not
    ["Unknown d. BYE"]. *)
Lemma bye_leaf_not_named_after_result :
  ¬ Forall namedAfterResult
      (nodes (findChildrenForMatch Scenario.final [Scenario.final] ∅)).
Proof.
  intros Hall. apply Forall_cons in Hall as [_ Hall].
  apply Forall_cons in Hall as [Hbye _]. discriminate Hbye.
Qed.

(** ** Identifiers of tournaments and matches *)

Lemma toInt32_mod (z : Z) : toInt32 z mod 2 ^ 32 = z mod 2 ^ 32.
Proof.
  unfold toInt32. destruct (z mod 2 ^ 32 <? 2 ^ 31).
  - apply Z.mod_mod. lia.
  - rewrite <- (Z.mod_mod z (2 ^ 32)) at 2 by lia.
    rewrite <- (Z_mod_plus_full (z mod 2 ^ 32 - 2 ^ 32) 1 (2 ^ 32)).
    f_equal. lia.
Qed.

Lemma toInt32_congr (a b : Z) : a mod 2 ^ 32 = b mod 2 ^ 32 → toInt32 a = toInt32 b.
Proof. unfold toInt32. by intros ->. Qed.

Lemma toInt32_idem (z : Z) : toInt32 (toInt32 z) = toInt32 z.
Proof. apply toInt32_congr, toInt32_mod. Qed.

Lemma toInt32_range (z : Z) : - 2 ^ 31 ≤ toInt32 z < 2 ^ 31.
Proof.
  unfold toInt32. pose proof (Z.mod_pos_bound z (2 ^ 32) ltac:(lia)).
  destruct (z mod 2 ^ 32 <? 2 ^ 31) eqn:E; lia.
Qed.

Lemma band_diag (x : Z) : band x x = toInt32 x.
Proof. unfold band. by rewrite Z.land_diag, toInt32_idem. Qed.

Lemma shl_5 (x : Z) : shl x 5 = toInt32 (x * 32).
Proof.
  unfold shl. change (5 mod 32) with 5. rewrite Z.shiftl_mul_pow2 by lia.
  apply toInt32_congr. change (2 ^ 5) with 32.
  rewrite Z.mul_mod, toInt32_mod, <- Z.mul_mod by lia. done.
Qed.

(** One turn of the loop is one step of the polynomial hash. *)
Lemma hashStep_spec (hash char : Z) : hashStep hash char = toInt32 (hash * 31 + char).
Proof.
  unfold hashStep. rewrite band_diag, shl_5. apply toInt32_congr.
  rewrite <- Z.add_sub_swap, Zminus_mod, Zplus_mod, toInt32_mod.
  rewrite <- Zplus_mod, <- Zminus_mod. f_equal. lia.
Qed.

Lemma hashString_spec (str : string) : hashString str = polynomialHash (JS.charCodes str).
Proof.
  unfold hashString, polynomialHash. generalize 0.
  induction (JS.charCodes str) as [|c cs IH]; intros h; [done|].
  simpl. by rewrite hashStep_spec, IH.
Qed.

(** C7. Both generators return their type tag followed by the absolute
    value of the 32-bit polynomial hash of the composite key; the hash
    stays in the signed 32-bit range; keys with equal hashes get equal
    identifiers, and there are different keys with equal identifiers. *)
Theorem hashed_ids_are_tagged_polynomial_hashes :
  (∀ year tournament location,
     createTournamentID year tournament location
     = taggedHashID "t" (tournamentKeyOf year tournament location))
  ∧ (∀ tournamentId date round winnerId loserId,
       createMatchID tournamentId date round winnerId loserId
       = taggedHashID "m" (matchKeyOf tournamentId date round winnerId loserId))
  ∧ (∀ key, - 2 ^ 31 ≤ hashString key < 2 ^ 31)
  ∧ (∀ tag key1 key2,
       polynomialHash (JS.charCodes key1) = polynomialHash (JS.charCodes key2) →
       taggedHashID tag key1 = taggedHashID tag key2)
  ∧ (tournamentKeyOf (Some 2024) "Aa" "X" ≠ tournamentKeyOf (Some 2024) "BB" "X"
     ∧ createTournamentID (Some 2024) "Aa" "X" = createTournamentID (Some 2024) "BB" "X")
  ∧ (matchKeyOf "t1" "2024-01-07" "F" "Aa" "z" ≠ matchKeyOf "t1" "2024-01-07" "F" "BB" "z"
     ∧ createMatchID "t1" "2024-01-07" "F" "Aa" "z"
       = createMatchID "t1" "2024-01-07" "F" "BB" "z").
Proof.
  split_and!.
  - intros. unfold createTournamentID, taggedHashID, tournamentKeyOf.
    by rewrite hashString_spec.
  - intros. unfold createMatchID, taggedHashID, matchKeyOf. by rewrite hashString_spec.
  - intros key. rewrite hashString_spec. unfold polynomialHash.
    assert (Hgen : ∀ cs h, - 2 ^ 31 ≤ h < 2 ^ 31 →
              - 2 ^ 31 ≤ fold_left (λ hash c, toInt32 (hash * 31 + c)) cs h < 2 ^ 31).
    { induction cs as [|c cs IH]; intros h Hh; [done|]. simpl. apply IH, toInt32_range. }
    apply Hgen. lia.
  - intros tag key1 key2 Heq. unfold taggedHashID. by rewrite Heq.
  - discriminate.
  - vm_compute. reflexivity.
  - discriminate.
  - vm_compute. reflexivity.
Qed.

(** ** Derived statistics *)

(** Where both ranks are known and neither is 0, [upset] is defined and
    tells whether the loser's rank number is the lower one; where a rank is
    unknown, [upset] is absent. *)
Lemma upset_of_positive_ranks (m : Match) :
  (∀ wr lr, wRank m = Some wr → lRank m = Some lr → wr ≠ 0 → lr ≠ 0 →
     upset (computeDerived m) = Some (lr <? wr))
  ∧ (wRank m = None ∨ lRank m = None → upset (computeDerived m) = None).
Proof.
  split.
  - intros wr lr Hw Hl Hwr Hlr. unfold computeDerived. simpl. rewrite Hw, Hl. simpl.
    destruct (Z.eqb_spec wr 0); [done|]. destruct (Z.eqb_spec lr 0); [done|]. done.
  - intros [Hn|Hn]; unfold computeDerived; simpl; rewrite Hn; simpl; [done|].
    by rewrite andb_false_r.
Qed.

(** C5 fails where a known rank is 0: the winner's rank 0 and the loser's
    rank 5 are both known and [5 < 0] is false, yet [upset] is absent. *)
Lemma upset_absent_at_rank_zero :
  let m := {| id := "m1"; tournamentId := "t1"; date := "2024-01-07"; round := R_F;
              bestOf := 3; winnerId := "a"; loserId := "b";
              wRank := Some 0; lRank := Some 5; wPts := None; lPts := None;
              w := [6; 6]; l := [4; 3]; wsets := 2; lsets := 0; comment := None |} in
  wRank m = Some 0 ∧ lRank m = Some 5 ∧ upset (computeDerived m) = None.
Proof. by split_and!. Qed.

(** ** Display-name augmenter *)

Lemma OMap_get_set_eq {V} (key : string) (value : V) (m : list (string * V)) :
  OMap.get key (OMap.set key value m) = Some value.
Proof.
  induction m as [|[k v] m IH]; simpl.
  - by rewrite String.eqb_refl.
  - destruct (String.eqb k key) eqn:E; simpl; [by rewrite String.eqb_refl|by rewrite E].
Qed.

Lemma OMap_get_set_ne {V} (key key' : string) (value : V) (m : list (string * V)) :
  key ≠ key' → OMap.get key' (OMap.set key value m) = OMap.get key' m.
Proof.
  intros Hne. induction m as [|[k v] m IH]; simpl.
  - by apply String.eqb_neq in Hne as ->.
  - destruct (String.eqb k key) eqn:E; simpl.
    + apply String.eqb_eq in E as ->. by apply String.eqb_neq in Hne as ->.
    + by rewrite IH.
Qed.




Lemma withoutProperty_idem (key : string) (object : list (string * JSON)) :
  withoutProperty key (withoutProperty key object) = withoutProperty key object.
Proof.
  unfold withoutProperty. induction object as [|[k v] object IH]; [done|]. simpl.
  destruct (String.eqb k key) eqn:E; simpl; [done|]. by rewrite E, IH.
Qed.




(** ** Set scores *)

Section SetScores.
Context `{Runtime}.

Lemma scanSets_recorded (slots : list (string * string)) :
  scanSets slots = (map winnerGames (recordedSlots slots), map loserGames (recordedSlots slots)).
Proof.
  induction slots as [|[ws ls] rest IH]; [done|]. simpl.
  unfold bothAbsent, winnerGames, loserGames in *. simpl.
  destruct (normalizeNumber ws) as [wScore|] eqn:Ew, (normalizeNumber ls) as [lScore|] eqn:El;
    simpl; rewrite ?IH, ?Ew, ?El; done.
Qed.



Lemma recordedSlots_length (slots : list (string * string)) :
  (length (recordedSlots slots) ≤ length slots)%nat.
Proof.
  induction slots as [|slot rest IH]; simpl; [lia|].
  destruct (bothAbsent slot); simpl; lia.
Qed.

Lemma scanSets_aligned (row : CSVRow) :
  length (scanSets (slots row)).1 = length (scanSets (slots row)).2
  ∧ (length (scanSets (slots row)).1 ≤ 5)%nat.
Proof.
  rewrite scanSets_recorded. simpl. rewrite !length_map. split; [done|].
  apply (recordedSlots_length (slots row)).
Qed.

End SetScores.

(** ** The body of the row loop *)

Lemma normalizeRound_returns (s : string) : ∃ rnd, outcome (normalizeRound s) = Returned rnd.
Proof.
  unfold normalizeRound.
  repeat match goal with |- context [if ?b then _ else _] => destruct b end;
    by eexists.
Qed.

Lemma OMap_has_get {V} (key : string) (m : list (string * V)) :
  OMap.has key m = true ↔ is_Some (OMap.get key m).
Proof. unfold OMap.has. destruct (OMap.get key m); split; by inversion 1. Qed.

Lemma OMap_get_set {V} (key key' : string) (value : V) (m : list (string * V)) :
  OMap.get key' (OMap.set key value m)
  = if decide (key = key') then Some value else OMap.get key' m.
Proof.
  case_decide as Hk; [subst; apply OMap_get_set_eq|by apply OMap_get_set_ne].
Qed.

Lemma resolvePlayer_get_self (name : string) (st : State) :
  is_Some (OMap.get name (playersMap (resolvePlayer name st))).
Proof.
  unfold resolvePlayer. destruct (OMap.has name (playersMap st)) eqn:Hhas.
  - by apply OMap_has_get.
  - destruct (createPlayerID name (playerIDs st)) as [pid ids]. simpl.
    rewrite OMap_get_set_eq. by eexists.
Qed.

Lemma resolvePlayer_get_mono (name other : string) (st : State) :
  is_Some (OMap.get other (playersMap st)) →
  OMap.get other (playersMap (resolvePlayer name st)) = OMap.get other (playersMap st).
Proof.
  intros Hsome. unfold resolvePlayer. destruct (OMap.has name (playersMap st)) eqn:Hhas; [done|].
  destruct (createPlayerID name (playerIDs st)) as [pid ids]. simpl.
  rewrite OMap_get_set. case_decide as Hk; [|done]. subst.
  apply OMap_has_get in Hsome. congruence.
Qed.

Lemma getOrThrow_some {V} (key : string) (m : list (string * V)) (v : V) :
  OMap.get key m = Some v → getOrThrow key m = mret v.
Proof. intros Hget. unfold getOrThrow. by rewrite Hget. Qed.

Section RowLoop.
Context `{Runtime}.

Lemma resolveTournament_get (year : option Z) (row : CSVRow) (st : State) :
  is_Some (OMap.get (resolveTournament year row st).1
             (tournamentsMap (resolveTournament year row st).2)).
Proof.
  unfold resolveTournament.
  destruct (OMap.has _ (tournamentsMap st)) eqn:Hhas; simpl.
  - by apply OMap_has_get.
  - rewrite OMap_get_set_eq. by eexists.
Qed.

Lemma resolveTournament_others (year : option Z) (row : CSVRow) (st : State) :
  let st' := (resolveTournament year row st).2 in
  playersMap st' = playersMap st ∧ playerIDs st' = playerIDs st
  ∧ allMatches st' = allMatches st ∧ allDerived st' = allDerived st.
Proof. unfold resolveTournament. by destruct (OMap.has _ (tournamentsMap st)). Qed.

(** A row with its essential fields, a date that parses and two names
    reaches the builder; it is then skipped or yields one match, and the
    body of the loop returns. *)
Lemma processRow_builder (st : State) (row : CSVRow) (date winnerName loserName : string) :
  missingEssential row = false →
  outcome (parseDate (Date row)) = Returned date →
  date ≠ "" →
  normalizeValue (Winner row) = Some winnerName →
  normalizeValue (Loser row) = Some loserName →
  ∃ rnd winner loser tournament,
    outcome (normalizeRound (Round_ row)) = Returned rnd ∧
    OMap.get winnerName (playersMap (resolved row date winnerName loserName st)) = Some winner ∧
    OMap.get loserName (playersMap (resolved row date winnerName loserName st)) = Some loser ∧
    processRow st row =
      mkEff (warnings (parseDate (Date row)) ++ warnings (normalizeRound (Round_ row)))
            (Returned (if skipsRow row then resolved row date winnerName loserName st
                       else pushMatch (buildMatch row date rnd winner loser tournament)
                                      (resolved row date winnerName loserName st))).
Proof.
  intros Hess Hdate Hne Hw Hl.
  destruct (normalizeRound_returns (Round_ row)) as [rnd Hrnd].
  destruct (resolvePlayer_get_self loserName (resolvePlayer winnerName st)) as [loser Hloser].
  destruct (resolvePlayer_get_self winnerName st) as [winner Hwinner].
  rewrite <- (resolvePlayer_get_mono loserName) in Hwinner by by eexists.
  unfold resolved. set (st1 := resolvePlayer loserName (resolvePlayer winnerName st)) in *.
  pose proof (resolveTournament_get (JS.parseInt (JS.take 4 date)) row st1) as [tournament Ht].
  pose proof (resolveTournament_others (JS.parseInt (JS.take 4 date)) row st1) as (Hp & _).
  exists rnd, winner, loser, tournament.
  rewrite Hp. split_and!; [done..|].
  unfold processRow. rewrite Hess, (bind_returned _ _ _ Hdate).
  apply String.eqb_neq in Hne as ->.
  rewrite (bind_returned _ _ _ Hrnd), Hw, Hl. fold st1.
  rewrite !(getOrThrow_some _ _ _ Hwinner), !mret_bind.
  rewrite !(getOrThrow_some _ _ _ Hloser), !mret_bind.
  destruct (resolveTournament _ row st1) as [key st2] eqn:Hrt. simpl in *.
  rewrite !(getOrThrow_some _ _ _ Ht), !mret_bind.
  destruct (skipsRow row); simpl; by rewrite app_nil_r.
Qed.

End RowLoop.

Lemma resolvePlayer_others (name : string) (st : State) :
  tournamentsMap (resolvePlayer name st) = tournamentsMap st
  ∧ allMatches (resolvePlayer name st) = allMatches st
  ∧ allDerived (resolvePlayer name st) = allDerived st.
Proof.
  unfold resolvePlayer. destruct (OMap.has name (playersMap st)); [done|].
  by destruct (createPlayerID name (playerIDs st)).
Qed.

Section RowResults.
Context `{Runtime}.

Lemma resolved_matches (row : CSVRow) (date winnerName loserName : string) (st : State) :
  allMatches (resolved row date winnerName loserName st) = allMatches st
  ∧ allDerived (resolved row date winnerName loserName st) = allDerived st.
Proof.
  unfold resolved.
  pose proof (resolveTournament_others (JS.parseInt (JS.take 4 date)) row
                (resolvePlayer loserName (resolvePlayer winnerName st))) as (_ & _ & -> & ->).
  pose proof (resolvePlayer_others loserName (resolvePlayer winnerName st)) as (_ & -> & ->).
  pose proof (resolvePlayer_others winnerName st) as (_ & -> & ->). done.
Qed.

(** What a row does when the body of the loop returns: nothing, or what
    [processRow_builder] says. *)
Lemma processRow_cases (st : State) (row : CSVRow) (st' : State) :
  outcome (processRow st row) = Returned st' →
  (st' = st ∧ rowNames row = []) ∨
  ∃ date winnerName loserName rnd winner loser tournament,
    missingEssential row = false ∧
    outcome (parseDate (Date row)) = Returned date ∧ date ≠ "" ∧
    normalizeValue (Winner row) = Some winnerName ∧
    normalizeValue (Loser row) = Some loserName ∧
    rowNames row = [winnerName; loserName] ∧
    st' = if skipsRow row then resolved row date winnerName loserName st
          else pushMatch (buildMatch row date rnd winner loser tournament)
                         (resolved row date winnerName loserName st).
Proof.
  intros Hrun. unfold rowNames.
  destruct (missingEssential row) eqn:Hess.
  { left. unfold processRow in Hrun. rewrite Hess in Hrun. by injection Hrun. }
  destruct (outcome (parseDate (Date row))) as [date|e] eqn:Hdate; last first.
  { unfold processRow in Hrun. rewrite Hess in Hrun.
    apply outcome_bind in Hrun as (d & Hd & _). congruence. }
  destruct (String.eqb date "") eqn:Hne.
  { left. unfold processRow in Hrun.
    rewrite Hess, (bind_returned _ _ _ Hdate), Hne in Hrun. by injection Hrun. }
  destruct (normalizeRound_returns (Round_ row)) as [rnd' Hrnd].
  destruct (normalizeValue (Winner row)) as [winnerName|] eqn:Hw,
           (normalizeValue (Loser row)) as [loserName|] eqn:Hl.
  2-4: left; unfold processRow in Hrun;
       rewrite Hess, (bind_returned _ _ _ Hdate), Hne, (bind_returned _ _ _ Hrnd), Hw, ?Hl in Hrun;
       by injection Hrun.
  right. apply String.eqb_neq in Hne.
  destruct (processRow_builder st row date winnerName loserName Hess Hdate Hne Hw Hl)
    as (rnd & winner & loser & tournament & _ & _ & _ & Heq).
  rewrite Heq in Hrun. simpl in Hrun. injection Hrun as <-.
  by exists date, winnerName, loserName, rnd, winner, loser, tournament.
Qed.

Lemma buildMatch_sets (row : CSVRow) (date : string) (rnd : Round)
    (winner loser : Player) (tournament : Tournament) :
  w (buildMatch row date rnd winner loser tournament) = (scanSets (slots row)).1
  ∧ l (buildMatch row date rnd winner loser tournament) = (scanSets (slots row)).2.
Proof. unfold buildMatch. by destruct (scanSets (slots row)). Qed.

Lemma processRow_aligned (st : State) (row : CSVRow) (st' : State) :
  Forall setsAligned (allMatches st) →
  outcome (processRow st row) = Returned st' →
  Forall setsAligned (allMatches st').
Proof.
  intros Hinv Hrun.
  apply processRow_cases in Hrun
    as [[-> _]|(date & wn & ln & rnd & winner & loser & t & _ & _ & _ & _ & _ & _ & ->)];
    [done|].
  destruct (skipsRow row); simpl; rewrite (proj1 (resolved_matches _ _ _ _ _)); [done|].
  apply Forall_app. split; [done|]. constructor; [|constructor].
  unfold setsAligned.
  destruct (buildMatch_sets row date rnd winner loser t) as [-> ->].
  apply scanSets_aligned.
Qed.

Lemma processFiles_aligned (csvFiles : list (list CSVRow)) (st : State) :
  outcome (processFiles csvFiles) = Returned st → Forall setsAligned (allMatches st).
Proof.
  unfold processFiles.
  apply (forEach_invariant (forEach processRow) (λ st, Forall setsAligned (allMatches st)));
    [|constructor].
  intros st0 rows st1.
  apply (forEach_invariant processRow (λ st, Forall setsAligned (allMatches st))).
  intros ? ? ?. apply processRow_aligned.
Qed.

Lemma ingest_matches (csvFiles : list (list CSVRow)) (out : Output) :
  outcome (ingest csvFiles) = Returned (Some out) →
  ∃ st, outcome (processFiles csvFiles) = Returned st ∧ matches out = allMatches st
        ∧ derived out = allDerived st ∧ players out = OMap.values (playersMap st).
Proof.
  unfold ingest. destruct csvFiles as [|rows files]; [done|].
  intros Hrun. apply outcome_bind in Hrun as (st & Hst & Hrun).
  apply outcome_bind in Hrun as (written & _ & Hrun).
  injection Hrun as <-. by exists st.
Qed.

Lemma forEach_invariant_elem {S A} (body : S → A → Eff S) (P : S → Prop) (items : list A) :
  (∀ st item st', item ∈ items → P st → outcome (body st item) = Returned st' → P st') →
  ∀ st st', P st → outcome (forEach body st items) = Returned st' → P st'.
Proof.
  induction items as [|item items IH]; intros Hbody st st' HP Hrun.
  - by injection Hrun as <-.
  - cbn [forEach] in Hrun. apply outcome_bind in Hrun as (st1 & Hst1 & Hrun).
    eapply IH; [|by eapply (Hbody st item st1); [apply list_elem_of_here|..]|done].
    intros st2 item2 st3 Hin. apply Hbody. by apply list_elem_of_further.
Qed.

(** A row leaves the matches as they are or adds one match, whose arrays
    are the scan of the five slots of the row. *)
Lemma processRow_sets (st : State) (row : CSVRow) (st' : State) :
  outcome (processRow st row) = Returned st' →
  allMatches st' = allMatches st
  ∨ ∃ m, allMatches st' = allMatches st ++ [m]
         ∧ w m = (scanSets [(W1 row, L1 row); (W2 row, L2 row); (W3 row, L3 row);
                            (W4 row, L4 row); (W5 row, L5 row)]).1
         ∧ l m = (scanSets [(W1 row, L1 row); (W2 row, L2 row); (W3 row, L3 row);
                            (W4 row, L4 row); (W5 row, L5 row)]).2.
Proof.
  intros Hrun.
  apply processRow_cases in Hrun
    as [[-> _]|(date & wn & ln & rnd & winner & loser & t & _ & _ & _ & _ & _ & _ & ->)];
    [by left|].
  destruct (skipsRow row); simpl; rewrite (proj1 (resolved_matches _ _ _ _ _)); [by left|].
  right. eexists. split; [done|]. apply buildMatch_sets.
Qed.

(** Every match of a run comes from a row of the files, and its arrays are
    the scan of the five slots of that row. *)
Lemma processFiles_scanned (csvFiles : list (list CSVRow)) (st : State) :
  outcome (processFiles csvFiles) = Returned st →
  Forall (λ m, ∃ rows row, rows ∈ csvFiles ∧ row ∈ rows
               ∧ w m = (scanSets [(W1 row, L1 row); (W2 row, L2 row); (W3 row, L3 row);
                                  (W4 row, L4 row); (W5 row, L5 row)]).1
               ∧ l m = (scanSets [(W1 row, L1 row); (W2 row, L2 row); (W3 row, L3 row);
                                  (W4 row, L4 row); (W5 row, L5 row)]).2)
         (allMatches st).
Proof.
  unfold processFiles.
  apply (forEach_invariant_elem (forEach processRow)
           (λ st, Forall (λ m, ∃ rows row, rows ∈ csvFiles ∧ row ∈ rows ∧ _ ∧ _)
                         (allMatches st)));
    [|constructor].
  intros st0 rows st1 Hrows.
  apply (forEach_invariant_elem processRow
           (λ st, Forall (λ m, ∃ rows row, rows ∈ csvFiles ∧ row ∈ rows ∧ _ ∧ _)
                         (allMatches st))).
  intros st2 row st3 Hrow Hinv Hrun.
  apply processRow_sets in Hrun as [->|(m & -> & Hw & Hl)]; [done|].
  apply Forall_app. split; [done|]. constructor; [|constructor].
  by exists rows, row.
Qed.

(** A row that reaches the builder with a recorded slot yields a match. *)
Lemma processRow_recorded (st : State) (row : CSVRow) (date winnerName loserName : string) :
  missingEssential row = false →
  outcome (parseDate (Date row)) = Returned date →
  date ≠ "" →
  normalizeValue (Winner row) = Some winnerName →
  normalizeValue (Loser row) = Some loserName →
  recordedSlots [(W1 row, L1 row); (W2 row, L2 row); (W3 row, L3 row);
                 (W4 row, L4 row); (W5 row, L5 row)] ≠ [] →
  ∃ st' m, outcome (processRow st row) = Returned st'
           ∧ allMatches st' = allMatches st ++ [m]
           ∧ w m = (scanSets [(W1 row, L1 row); (W2 row, L2 row); (W3 row, L3 row);
                              (W4 row, L4 row); (W5 row, L5 row)]).1
           ∧ l m = (scanSets [(W1 row, L1 row); (W2 row, L2 row); (W3 row, L3 row);
                              (W4 row, L4 row); (W5 row, L5 row)]).2.
Proof.
  intros Hess Hdate Hne Hw Hl Hrec.
  destruct (processRow_builder st row date winnerName loserName Hess Hdate Hne Hw Hl)
    as (rnd & winner & loser & t & _ & _ & _ & Heq).
  assert (skipsRow row = false) as Hskip.
  { unfold skipsRow, skipsMatch, slots. rewrite scanSets_recorded. cbn [fst].
    rewrite bool_decide_eq_false_2; [done|].
    intros Hnil. apply Hrec. by apply map_eq_nil in Hnil. }
  rewrite Hskip in Heq. rewrite Heq. cbn [outcome].
  eexists _, _. split; [done|]. cbn [pushMatch allMatches].
  rewrite (proj1 (resolved_matches _ _ _ _ _)). split; [done|]. apply buildMatch_sets.
Qed.

(** C9. The set-score builder scans the slots 1 to 5 of the row in order:
    it keeps the slots up to the first one where both games are absent,
    and reads a missing side of a kept slot as 0.  A row adds no match or
    one match, whose [w] and [l] are the winner's and the loser's games of
    the kept slots of [W1]/[L1] to [W5]/[L5], in that order, and a row
    that reaches the builder with a kept slot adds one; every match
    that the pipeline produces comes so from a row of its files, and its
    [w] and [l] have the same length, at most 5. *)
Theorem set_scores_are_aligned :
  (∀ slots, scanSets slots
            = (map winnerGames (recordedSlots slots), map loserGames (recordedSlots slots)))
  ∧ recordedSlots [] = []
  ∧ (∀ slot rest, bothAbsent slot = true → recordedSlots (slot :: rest) = [])
  ∧ (∀ slot rest, bothAbsent slot = false →
       recordedSlots (slot :: rest) = slot :: recordedSlots rest)
  ∧ (∀ slot,
       (bothAbsent slot = true ↔ normalizeNumber slot.1 = None ∧ normalizeNumber slot.2 = None)
       ∧ winnerGames slot
         = match normalizeNumber slot.1 with Some games => games | None => 0 end
       ∧ loserGames slot
         = match normalizeNumber slot.2 with Some games => games | None => 0 end)
  ∧ (∀ st row st', outcome (processRow st row) = Returned st' →
       allMatches st' = allMatches st
       ∨ ∃ m, allMatches st' = allMatches st ++ [m]
              ∧ w m = map winnerGames
                        (recordedSlots [(W1 row, L1 row); (W2 row, L2 row); (W3 row, L3 row);
                                        (W4 row, L4 row); (W5 row, L5 row)])
              ∧ l m = map loserGames
                        (recordedSlots [(W1 row, L1 row); (W2 row, L2 row); (W3 row, L3 row);
                                        (W4 row, L4 row); (W5 row, L5 row)]))
  ∧ (∀ st row date winnerName loserName,
       missingEssential row = false →
       outcome (parseDate (Date row)) = Returned date → date ≠ "" →
       normalizeValue (Winner row) = Some winnerName →
       normalizeValue (Loser row) = Some loserName →
       recordedSlots [(W1 row, L1 row); (W2 row, L2 row); (W3 row, L3 row);
                      (W4 row, L4 row); (W5 row, L5 row)] ≠ [] →
       ∃ st' m, outcome (processRow st row) = Returned st'
                ∧ allMatches st' = allMatches st ++ [m]
                ∧ w m = map winnerGames
                          (recordedSlots [(W1 row, L1 row); (W2 row, L2 row);
                                          (W3 row, L3 row); (W4 row, L4 row);
                                          (W5 row, L5 row)])
                ∧ l m = map loserGames
                          (recordedSlots [(W1 row, L1 row); (W2 row, L2 row);
                                          (W3 row, L3 row); (W4 row, L4 row);
                                          (W5 row, L5 row)]))
  ∧ (∀ csvFiles out, outcome (ingest csvFiles) = Returned (Some out) →
       Forall (λ m, (∃ rows row, rows ∈ csvFiles ∧ row ∈ rows
                      ∧ w m = map winnerGames
                                (recordedSlots [(W1 row, L1 row); (W2 row, L2 row);
                                                (W3 row, L3 row); (W4 row, L4 row);
                                                (W5 row, L5 row)])
                      ∧ l m = map loserGames
                                (recordedSlots [(W1 row, L1 row); (W2 row, L2 row);
                                                (W3 row, L3 row); (W4 row, L4 row);
                                                (W5 row, L5 row)]))
                    ∧ length (w m) = length (l m) ∧ (length (w m) ≤ 5)%nat)
              (matches out)).
Proof.
  split_and!.
  - apply scanSets_recorded.
  - done.
  - intros slot rest Hab. simpl. by rewrite Hab.
  - intros slot rest Hab. simpl. by rewrite Hab.
  - intros slot. unfold bothAbsent, winnerGames, loserGames. split.
    + rewrite andb_true_iff, !bool_decide_eq_true. done.
    + by destruct (normalizeNumber slot.1), (normalizeNumber slot.2).
  - intros st row st' Hrun.
    apply processRow_sets in Hrun as [?|(m & ? & Hw & Hl)]; [by left|].
    right. exists m. rewrite scanSets_recorded in Hw, Hl. done.
  - intros st row date wn ln Hess Hdate Hne Hwn Hln Hrec.
    destruct (processRow_recorded st row date wn ln Hess Hdate Hne Hwn Hln Hrec)
      as (st' & m & Hrun & Hm & Hw & Hl).
    exists st', m. rewrite scanSets_recorded in Hw, Hl. done.
  - intros csvFiles out Hrun. apply ingest_matches in Hrun as (st & Hst & -> & _).
    pose proof (processFiles_scanned _ _ Hst) as Hscan.
    pose proof (processFiles_aligned _ _ Hst) as Halign.
    apply Forall_forall. intros m Hm.
    pose proof (proj1 (Forall_forall _ _) Hscan m Hm) as (rows & row & ? & ? & Hw & Hl).
    pose proof (proj1 (Forall_forall _ _) Halign m Hm) as [? ?].
    rewrite scanSets_recorded in Hw, Hl. split; [by exists rows, row|done].
Qed.

End RowResults.

(** ** Rows without set scores *)






(** ** Player identifiers *)

Lemma OMap_get_fst {V} (key : string) (m : list (string * V)) :
  is_Some (OMap.get key m) ↔ key ∈ map fst m.
Proof.
  induction m as [|[k v] m IH]; simpl.
  - split; [by intros [? ?]|by intros ?%elem_of_nil].
  - destruct (String.eqb_spec k key) as [->|Hne].
    + split; [intros _; by left|by eexists].
    + rewrite IH. split; [by right|]. intros [?|?]%elem_of_cons; [congruence|done].
Qed.

Lemma OMap_set_fresh {V} (key : string) (value : V) (m : list (string * V)) :
  OMap.has key m = false → OMap.set key value m = m ++ [(key, value)].
Proof.
  unfold OMap.has. induction m as [|[k v] m IH]; simpl; [done|].
  destruct (String.eqb k key); [done|]. intros Hm. by rewrite IH.
Qed.

Lemma registryOf_initial : registryOf initialState [].
Proof.
  split_and!; [done|apply NoDup_nil_2|done|].
  intros i name Hi. by rewrite lookup_nil in Hi.
Qed.

Lemma registryOf_known (st : State) (order : list string) (name : string) :
  registryOf st order → OMap.has name (playersMap st) = true ↔ name ∈ order.
Proof. intros (<- & _). rewrite OMap_has_get. apply OMap_get_fst. Qed.

Lemma playerIdFor_next (slug : string) (k : nat) :
  slug +:+ "-" +:+ JS.numberToString (Z.of_nat k + 1) = playerIdFor slug (S k).
Proof. unfold playerIdFor. by rewrite Nat2Z.inj_succ. Qed.

(** The block that resolves a player keeps the registry in step with the
    distinct names. *)
Lemma registryOf_step (name : string) (st : State) (order : list string) :
  registryOf st order →
  registryOf (resolvePlayer name st)
             (if decide (name ∈ order) then order else order ++ [name]).
Proof.
  intros Hreg. pose proof (registryOf_known st order name Hreg) as Hknown.
  destruct Hreg as (Hfst & Hnd & Hids & Hget).
  unfold resolvePlayer. case_decide as Hin.
  { apply Hknown in Hin. rewrite Hin. by split_and!. }
  destruct (OMap.has name (playersMap st)) eqn:Hhas; [exfalso; by apply Hin, Hknown|].
  set (player := expectedPlayer (order ++ [name]) (length order) name).
  assert (Hcreate : createPlayerID name (playerIDs st)
                    = (p_id player,
                       <[slugify name := Z.of_nat (sameSlugCount name order)]> (playerIDs st))).
  { unfold createPlayerID, player, expectedPlayer. simpl.
    rewrite take_app_length, Hids. fold (sameSlugCount name order).
    destruct (sameSlugCount name order) as [|k]; [done|].
    by rewrite playerIdFor_next, Nat2Z.inj_succ. }
  rewrite Hcreate. split_and!; simpl.
  - rewrite (OMap_set_fresh _ _ _ Hhas), map_app. simpl. by rewrite Hfst.
  - apply NoDup_app. split_and!; [done| |apply NoDup_singleton].
    intros x Hx ->%list_elem_of_singleton. done.
  - intros slug. rewrite filter_app, length_app.
    destruct (decide (slugify name = slug)) as [<-|Hne].
    + rewrite lookup_insert_eq, filter_cons_True, Nat.add_1_r by done. done.
    + rewrite lookup_insert_ne, filter_cons_False, Nat.add_0_r by done. apply Hids.
  - intros i n Hi. apply lookup_app_Some in Hi as [Hi|[Hlen Hi]].
    + assert (n ≠ name) as Hne.
      { intros ->. apply Hin. by eapply list_elem_of_lookup_2. }
      rewrite OMap_get_set_ne, (Hget i n Hi) by done.
      unfold expectedPlayer. rewrite take_app_le; [done|].
      apply lookup_lt_Some in Hi. lia.
    + apply list_lookup_singleton_Some in Hi as [Hi ->].
      rewrite OMap_get_set_eq. assert (i = length order) as -> by lia. done.
Qed.

Lemma registryOf_resolvePlayers (names : list string) (st : State) (order : list string) :
  registryOf st order →
  registryOf (resolvePlayers names st)
    (fold_left (λ order name, if decide (name ∈ order) then order else order ++ [name])
               names order).
Proof.
  revert st order. induction names as [|name names IH]; intros st order Hreg; [done|].
  simpl. apply IH. by apply registryOf_step.
Qed.

Lemma resolvePlayer_samePlayers (name : string) (st1 st2 : State) :
  samePlayers st1 st2 → samePlayers (resolvePlayer name st1) (resolvePlayer name st2).
Proof.
  intros [Hp Hi]. unfold resolvePlayer. rewrite Hp, Hi.
  destruct (OMap.has name (playersMap st2)); [done|].
  by destruct (createPlayerID name (playerIDs st2)).
Qed.

Lemma resolvePlayers_samePlayers (names : list string) (st1 st2 : State) :
  samePlayers st1 st2 → samePlayers (resolvePlayers names st1) (resolvePlayers names st2).
Proof.
  revert st1 st2. induction names as [|name names IH]; intros st1 st2 Hsame; [done|].
  simpl. by apply IH, resolvePlayer_samePlayers.
Qed.

Lemma resolvePlayers_app (names1 names2 : list string) (st : State) :
  resolvePlayers (names1 ++ names2) st = resolvePlayers names2 (resolvePlayers names1 st).
Proof. apply fold_left_app. Qed.

(** Of two distinct names with the same slug, the later one has more
    earlier names of that slug. *)
Lemma sameSlugCount_increases (order : list string) (i j : nat) (ni nj : string) :
  order !! i = Some ni → order !! j = Some nj → (i < j)%nat →
  slugify ni = slugify nj →
  (sameSlugCount ni (take i order) < sameSlugCount nj (take j order))%nat.
Proof.
  intros Hi Hj Hlt Hslug. unfold sameSlugCount. rewrite <- Hslug.
  pose proof (lookup_lt_Some _ _ _ Hi) as Hlen.
  rewrite <- (take_drop_middle order i ni Hi) at 2.
  rewrite take_app, filter_app, length_app, length_take, Nat.min_l by lia.
  destruct (j - i)%nat as [|k] eqn:Hk; [lia|].
  rewrite (take_ge (take i order) j) by (rewrite length_take; lia).
  rewrite firstn_cons, filter_cons_True by done. simpl. lia.
Qed.

Section PlayerRegistry.
Context `{Runtime}.

Lemma processRow_players (st : State) (row : CSVRow) (st' : State) :
  outcome (processRow st row) = Returned st' →
  samePlayers st' (resolvePlayers (rowNames row) st).
Proof.
  intros Hrun.
  apply processRow_cases in Hrun
    as [[-> ->]|(date & wn & ln & rnd & winner & loser & t & _ & _ & _ & _ & _ & -> & ->)];
    [done|].
  pose proof (resolveTournament_others (JS.parseInt (JS.take 4 date)) row
                (resolvePlayer ln (resolvePlayer wn st))) as (Hp & Hi & _).
  by destruct (skipsRow row).
Qed.

Lemma rows_players (rows : list CSVRow) (st st' reg : State) :
  samePlayers st reg →
  outcome (forEach processRow st rows) = Returned st' →
  samePlayers st' (resolvePlayers (concat (map rowNames rows)) reg).
Proof.
  revert st reg. induction rows as [|row rows IH]; intros st reg Hsame Hrun; simpl in *.
  - by injection Hrun as <-.
  - apply outcome_bind in Hrun as (st1 & Hrow & Hrest).
    rewrite resolvePlayers_app. apply (IH st1); [|done].
    apply processRow_players in Hrow as [Hp Hi].
    destruct (resolvePlayers_samePlayers (rowNames row) st reg Hsame) as [Hp' Hi'].
    split; congruence.
Qed.

Lemma files_players (csvFiles : list (list CSVRow)) (st st' reg : State) :
  samePlayers st reg →
  outcome (forEach (forEach processRow) st csvFiles) = Returned st' →
  samePlayers st' (resolvePlayers (concat (map rowNames (concat csvFiles))) reg).
Proof.
  revert st reg. induction csvFiles as [|rows files IH]; intros st reg Hsame Hrun; simpl in *.
  - by injection Hrun as <-.
  - apply outcome_bind in Hrun as (st1 & Hfile & Hrest).
    rewrite map_app, concat_app, resolvePlayers_app. apply (IH st1); [|done].
    by apply (rows_players rows st).
Qed.

(** C6. A name that is already registered creates no player.  The
    players of a run are the distinct names in the order of their first
    occurrence, one player each, and the player of a name has the bare slug
    of the name when no earlier distinct name has that slug, and [slug-N]
    when [N] earlier distinct names have it, so [N] counts 1, 2, 3, ... per
    slug and grows from one player of a slug to the next.  The names are
    those of all rows of all files of the run, in order. *)
Theorem player_ids_follow_first_occurrences :
  (∀ name st, OMap.has name (playersMap st) = true → resolvePlayer name st = st)
  ∧ (∀ names, map fst (playersMap (resolvePlayers names initialState)) = firstSeen names
              ∧ NoDup (firstSeen names))
  ∧ (∀ names i name, firstSeen names !! i = Some name →
       OMap.get name (playersMap (resolvePlayers names initialState))
       = Some {| p_id := playerIdFor (slugify name)
                           (sameSlugCount name (take i (firstSeen names)));
                 p_name := name |})
  ∧ (∀ slug, playerIdFor slug 0 = slug)
  ∧ (∀ slug k, playerIdFor slug (S k) = slug +:+ "-" +:+ JS.numberToString (Z.of_nat k + 1))
  ∧ (∀ names i j ni nj,
       firstSeen names !! i = Some ni → firstSeen names !! j = Some nj → (i < j)%nat →
       slugify ni = slugify nj →
       (sameSlugCount ni (take i (firstSeen names))
        < sameSlugCount nj (take j (firstSeen names)))%nat)
  ∧ (∀ csvFiles st, outcome (processFiles csvFiles) = Returned st →
       playersMap st
       = playersMap (resolvePlayers (concat (map rowNames (concat csvFiles))) initialState)).
Proof.
  split_and!.
  - intros name st Hhas. unfold resolvePlayer. by rewrite Hhas.
  - intros names.
    by destruct (registryOf_resolvePlayers names _ _ registryOf_initial) as (? & ? & _).
  - intros names i name Hi.
    destruct (registryOf_resolvePlayers names _ _ registryOf_initial) as (_ & _ & _ & Hget).
    apply (Hget i name Hi).
  - done.
  - intros slug k. symmetry. apply playerIdFor_next.
  - intros names. apply sameSlugCount_increases.
  - intros csvFiles st Hrun. by apply (files_players csvFiles initialState st initialState).
Qed.

End PlayerRegistry.

Example player_ids_ex :
  OMap.values (playersMap (resolvePlayers ["J. Doe"; "J Doe"; "J. Doe"; "Ann Lee"; "j doe"]
                                          initialState))
  = [mkPlayer "j-doe" "J. Doe"; mkPlayer "j-doe-1" "J Doe"; mkPlayer "ann-lee" "Ann Lee";
     mkPlayer "j-doe-2" "j doe"].
Proof. vm_compute. reflexivity. Qed.

(** ** Dates *)

Ltac char_class :=
  unfold JS.isWhiteSpace, JS.isDigit, JS.isLower, JS.isUpper in *;
  repeat match goal with
         | H : _ && _ = true |- _ => apply andb_true_iff in H as [? ?]
         | H : (_ <=? _) = true |- _ => apply Z.leb_le in H
         end;
  repeat match goal with
         | |- context [?a <=? ?b] => destruct (Z.leb_spec a b); try lia
         | |- context [?a =? ?b] => destruct (Z.eqb_spec a b); try lia
         | |- context [?a <? ?b] => destruct (Z.ltb_spec a b); try lia
         end;
  try reflexivity.

Lemma digit_not_space (c : ascii) : JS.isDigit c = true → JS.isWhiteSpace c = false.
Proof. intros Hd. char_class. Qed.

Lemma digit_not_lower (c : ascii) : JS.isDigit c = true → JS.isLower c = false.
Proof. intros Hd. char_class. Qed.

Lemma digit_neq (c sep : ascii) :
  JS.isDigit c = true → JS.isDigit sep = false → Ascii.eqb c sep = false.
Proof. intros Hc Hsep. apply Ascii.eqb_neq. intros ->. congruence. Qed.

Lemma digit_value (c : ascii) :
  JS.isDigit c = true →
  JS.digitValue 10 c = Some (JS.charCode c - 48) ∧ 0 ≤ JS.charCode c - 48 ≤ 9.
Proof.
  intros Hd. unfold JS.digitValue. rewrite Hd. char_class. split; [done|lia].
Qed.

Lemma every_app (p : ascii → bool) (a b : string) :
  JS.every p (a +:+ b) = JS.every p a && JS.every p b.
Proof. induction a as [|c a IH]; simpl; [done|]. by rewrite IH, andb_assoc. Qed.

Lemma every_impl (p q : ascii → bool) (s : string) :
  (∀ c, p c = true → q c = true) → JS.every p s = true → JS.every q s = true.
Proof.
  intros Hpq. induction s as [|c s IH]; simpl; [done|].
  intros [Hc Hs]%andb_true_iff. by rewrite (Hpq c Hc), IH.
Qed.

Lemma trimEnd_no_space (s : string) :
  JS.every (λ c, negb (JS.isWhiteSpace c)) s = true → JS.trimEnd s = s.
Proof.
  induction s as [|c s IH]; simpl; [done|].
  intros [Hc Hs]%andb_true_iff. rewrite (IH Hs).
  apply negb_true_iff in Hc. rewrite Hc. by destruct s.
Qed.

Lemma trim_no_space (s : string) :
  JS.every (λ c, negb (JS.isWhiteSpace c)) s = true → JS.trim s = s.
Proof.
  intros Hs. unfold JS.trim.
  assert (JS.trimStart s = s) as ->; [|by apply trimEnd_no_space].
  destruct s as [|c s]; simpl in *; [done|].
  apply andb_true_iff in Hs as [Hc _]. apply negb_true_iff in Hc. by rewrite Hc.
Qed.

(** A string without white space that starts with a digit is its own
    normal form. *)
Lemma normalizeValue_digit_first (c : ascii) (s : string) :
  JS.isDigit c = true →
  JS.every (λ c, negb (JS.isWhiteSpace c)) s = true →
  normalizeValue (String c s) = Some (String c s).
Proof.
  intros Hc Hs. unfold normalizeValue.
  rewrite trim_no_space by (simpl; by rewrite (digit_not_space c Hc)).
  simpl. unfold JS.toUpperChar. rewrite (digit_not_lower c Hc).
  by rewrite (digit_neq c "N" Hc).
Qed.

Lemma split_no_sep (sep : ascii) (s : string) :
  JS.every (λ c, negb (Ascii.eqb c sep)) s = true → JS.split sep s = [s].
Proof.
  induction s as [|c s IH]; simpl; [done|].
  intros [Hc Hs]%andb_true_iff. apply negb_true_iff in Hc. by rewrite Hc, (IH Hs).
Qed.

Lemma split_app_sep (sep : ascii) (a b : string) :
  JS.every (λ c, negb (Ascii.eqb c sep)) a = true →
  JS.split sep (a +:+ String sep b) = a :: JS.split sep b.
Proof.
  induction a as [|c a IH]; simpl.
  - intros _. by rewrite Ascii.eqb_refl.
  - intros [Hc Ha]%andb_true_iff. apply negb_true_iff in Hc. by rewrite Hc, (IH Ha).
Qed.

Lemma includes_sep (sep : ascii) (a b : string) :
  JS.includes (a +:+ String sep b) (String sep "") = true.
Proof.
  induction a as [|c a IH]; simpl.
  - by rewrite Ascii.eqb_refl.
  - rewrite IH. apply orb_true_r.
Qed.

Lemma includes_no_sep (sep : ascii) (s : string) :
  JS.every (λ c, negb (Ascii.eqb c sep)) s = true →
  JS.includes s (String sep "") = false.
Proof.
  induction s as [|c s IH]; simpl; [done|].
  intros [Hc Hs]%andb_true_iff. apply negb_true_iff in Hc.
  rewrite Ascii.eqb_sym in Hc. by rewrite Hc, (IH Hs).
Qed.

Lemma readDigits_acc (s : string) (acc : Z) (count : nat) :
  JS.every JS.isDigit s = true →
  JS.readDigits 10 acc count s
  = ((count + String.length s)%nat, acc * 10 ^ Z.of_nat (String.length s) + digitsValue s).
Proof.
  unfold digitsValue. revert acc count. induction s as [|c s IH]; intros acc count.
  - intros _. simpl. f_equal; lia.
  - intros [Hc Hs]%andb_true_iff. cbn [JS.readDigits String.length].
    destruct (digit_value c Hc) as [-> _].
    rewrite (IH _ _ Hs), (IH (0 * 10 + _) _ Hs). cbn [fst snd].
    rewrite Nat2Z.inj_succ, Z.pow_succ_r by lia. f_equal; lia.
Qed.

Lemma digitsValue_cons (c : ascii) (s : string) :
  JS.every JS.isDigit (String c s) = true →
  digitsValue (String c s)
  = (JS.charCode c - 48) * 10 ^ Z.of_nat (String.length s) + digitsValue s.
Proof.
  intros Hcs. pose proof Hcs as [Hc Hs]%andb_true_iff.
  unfold digitsValue at 1. cbn [JS.readDigits].
  destruct (digit_value c Hc) as [-> _]. by rewrite (readDigits_acc _ _ _ Hs).
Qed.

Lemma digitsValue_bound (s : string) :
  JS.every JS.isDigit s = true → 0 ≤ digitsValue s < 10 ^ Z.of_nat (String.length s).
Proof.
  induction s as [|c s IH]; [by intros _|].
  intros Hcs. rewrite (digitsValue_cons c s Hcs).
  apply andb_true_iff in Hcs as [Hc Hs]. specialize (IH Hs).
  destruct (digit_value c Hc) as [_ Hd].
  cbn [String.length]. rewrite Nat2Z.inj_succ, Z.pow_succ_r by lia. nia.
Qed.

Lemma digits_bound (n : nat) (s : string) :
  digits n s → 0 ≤ digitsValue s < 10 ^ Z.of_nat n.
Proof. intros [<- Hs]. by apply digitsValue_bound. Qed.

Lemma parseInt_digits (s : string) :
  s ≠ "" → JS.every JS.isDigit s = true → JS.parseInt s = Some (digitsValue s).
Proof.
  destruct s as [|c s]; [done|]. intros _ Hcs.
  pose proof Hcs as [Hc Hs]%andb_true_iff.
  assert (Hminus : JS.startsWith (String c s) "-" = false).
  { cbn [JS.startsWith]. by rewrite (Ascii.eqb_sym "-"), (digit_neq c "-" Hc). }
  assert (Hplus : JS.startsWith (String c s) "+" = false).
  { cbn [JS.startsWith]. by rewrite (Ascii.eqb_sym "+"), (digit_neq c "+" Hc). }
  assert (Hhex : JS.startsWith (String c s) "0x" || JS.startsWith (String c s) "0X" = false).
  { cbn [JS.startsWith]. destruct s as [|c2 s]; [by rewrite !andb_false_r|].
    apply andb_true_iff in Hs as [Hc2 _].
    rewrite (Ascii.eqb_sym "x"), (digit_neq c2 "x" Hc2), (Ascii.eqb_sym "X"),
      (digit_neq c2 "X" Hc2) by done.
    by rewrite !andb_false_r. }
  unfold JS.parseInt. cbn [JS.trimStart]. rewrite (digit_not_space c Hc).
  cbv zeta. rewrite Hminus, Hplus. cbn [orb]. rewrite Hhex.
  rewrite (readDigits_acc _ _ _ Hcs). cbn [String.length Nat.add].
  f_equal. lia.
Qed.

Lemma digits_nonempty (n : nat) (s : string) : digits (S n) s → s ≠ "".
Proof. by intros [Hlen _] ->. Qed.

Lemma digits_no (sep : ascii) (n : nat) (s : string) :
  JS.isDigit sep = false → digits n s → JS.every (λ c, negb (Ascii.eqb c sep)) s = true.
Proof.
  intros Hsep [_ Hs]. revert Hs. apply every_impl. intros c Hc.
  by rewrite (digit_neq c sep Hc Hsep).
Qed.

Lemma digits_no_space (n : nat) (s : string) :
  digits n s → JS.every (λ c, negb (JS.isWhiteSpace c)) s = true.
Proof.
  intros [_ Hs]. revert Hs. apply every_impl. intros c Hc. by rewrite (digit_not_space c Hc).
Qed.

Lemma digits_20 (yy : string) :
  digits 2 yy → digits 4 ("20" +:+ yy) ∧ digitsValue ("20" +:+ yy) = 2000 + digitsValue yy.
Proof.
  intros [Hlen Hyy]. change ("20" +:+ yy) with (String "2" (String "0" yy)).
  split; [split; [cbn [String.length]; by rewrite Hlen|done]|].
  rewrite !digitsValue_cons by done. cbn [String.length]. rewrite Hlen.
  change (JS.charCode "2" - 48) with 2. change (JS.charCode "0" - 48) with 0.
  change (10 ^ Z.of_nat 3) with 1000. lia.
Qed.

Lemma three_parts_normal (sep : ascii) (a b c : string) (na nb nc : nat) :
  JS.isWhiteSpace sep = false →
  digits (S na) a → digits nb b → digits nc c →
  normalizeValue (a +:+ String sep (b +:+ String sep c))
  = Some (a +:+ String sep (b +:+ String sep c)).
Proof.
  intros Hsep Ha Hb Hc.
  destruct a as [|c0 a]; [by destruct Ha|].
  assert (JS.isDigit c0 = true ∧ JS.every (λ c, negb (JS.isWhiteSpace c)) a = true)
    as [Hc0 Hsa].
  { destruct Ha as [_ Hd]. cbn [JS.every] in Hd. apply andb_true_iff in Hd as [? Hd].
    split; [done|]. revert Hd. apply every_impl. intros c1 Hc1.
    by rewrite (digit_not_space c1 Hc1). }
  cbn [append]. apply normalizeValue_digit_first; [done|].
  rewrite every_app, Hsa. cbn [JS.every andb]. rewrite Hsep. cbn [negb andb].
  rewrite every_app, (digits_no_space _ _ Hb). cbn [JS.every andb]. rewrite Hsep.
  cbn [negb andb]. apply (digits_no_space _ _ Hc).
Qed.

Lemma three_parts_split (sep : ascii) (a b c : string) (na nb nc : nat) :
  JS.isDigit sep = false →
  digits na a → digits nb b → digits nc c →
  JS.split sep (a +:+ String sep (b +:+ String sep c)) = [a; b; c].
Proof.
  intros Hsep Ha Hb Hc.
  rewrite !split_app_sep, split_no_sep; eauto using digits_no.
Qed.

Lemma three_parts_no (sep other : ascii) (a b c : string) (na nb nc : nat) :
  JS.isDigit other = false → Ascii.eqb sep other = false →
  digits na a → digits nb b → digits nc c →
  JS.includes (a +:+ String sep (b +:+ String sep c)) (String other "") = false.
Proof.
  intros Hother Hsep Ha Hb Hc. apply includes_no_sep.
  rewrite every_app, (digits_no other _ _ Hother Ha). cbn [JS.every andb]. rewrite Hsep.
  cbn [negb andb].
  rewrite every_app, (digits_no other _ _ Hother Hb). cbn [JS.every andb]. rewrite Hsep.
  cbn [negb andb]. apply (digits_no other _ _ Hother Hc).
Qed.

Lemma strlen_digits (n : nat) (s : string) : digits n s → JS.strlen s = Z.of_nat n.
Proof. intros [<- _]. done. Qed.

Section DateShapes.
Context `{Runtime}.

(** The date of three runs of digits that the runtime can render. *)
Lemma isoDate_digits (y m d : string) (ny nm nd : nat) (year : Z) :
  rendersCivilDates →
  digits (S ny) y → digits (S nm) m → digits (S nd) d →
  digitsValue y = year → 0 ≤ year ≤ 9999 → (S nm ≤ 2)%nat → (S nd ≤ 2)%nat →
  ∃ date, toISODate year (digitsValue m - 1) (digitsValue d) = Some date ∧
          isoDate (JS.parseInt y) (Z.pred <$> JS.parseInt m) (JS.parseInt d)
          = mkEff [] (Returned date).
Proof.
  intros Htotal Hy Hm Hd Hyear Hrange Hnm Hnd.
  pose proof (digits_bound _ _ Hm) as Bm. pose proof (digits_bound _ _ Hd) as Bd.
  assert (10 ^ Z.of_nat (S nm) ≤ 100) by (change 100 with (10 ^ 2); apply Z.pow_le_mono_r; lia).
  assert (10 ^ Z.of_nat (S nd) ≤ 100) by (change 100 with (10 ^ 2); apply Z.pow_le_mono_r; lia).
  destruct (Htotal year (digitsValue m - 1) (digitsValue d)) as [date Hdate]; [lia..|].
  exists date. split; [done|].
  rewrite !parseInt_digits by (eauto using digits_nonempty || by destruct Hy, Hm, Hd).
  cbn [fmap option_fmap option_map]. unfold isoDate, Z.pred.
  replace (digitsValue m + -1) with (digitsValue m - 1) by lia.
  by rewrite Hyear, Hdate.
Qed.

End DateShapes.

Lemma daysFromCivil_bound (y m : Z) :
  0 ≤ y ≤ 20000 → 1 ≤ m ≤ 12 → -10000000 ≤ UTC.daysFromCivil y m 1 ≤ 10000000.
Proof.
  intros Hy Hm. unfold UTC.daysFromCivil.
  destruct (m <=? 2); cbv zeta; Z.div_mod_to_equations; lia.
Qed.

(** The runtime in UTC renders every date of the years 0 to 9999. *)
Lemma utc_rendersCivilDates : @rendersCivilDates utcRuntime.
Proof.
  intros y m d Hy Hm Hd. simpl. unfold UTC.toISODate. cbv zeta.
  set (yr := if (0 <=? y) && (y <=? 99) then 1900 + y else y).
  assert (0 ≤ yr ≤ 9999) as Hyr by (subst yr; destruct ((0 <=? y) && (y <=? 99)) eqn:E; lia).
  assert (-1 ≤ m / 12 ≤ 8) as Hq by (Z.div_mod_to_equations; lia).
  assert (0 ≤ m mod 12 < 12) as Hr by (apply Z.mod_pos_bound; lia).
  destruct (Z.eq_dec (yr + m / 12) (-1)) as [Heq|Hne].
  - assert (yr = 0) as Hyr0 by lia.
    rewrite Heq. unfold UTC.msPerDay, UTC.maxTime.
    assert (-10000000 ≤ UTC.daysFromCivil (-1) (m mod 12 + 1) 1 ≤ 10000000) as Hb.
    { unfold UTC.daysFromCivil. destruct (m mod 12 + 1 <=? 2); cbv zeta;
        Z.div_mod_to_equations; lia. }
    destruct (Z.leb_spec (Z.abs ((UTC.daysFromCivil (-1) (m mod 12 + 1) 1 + d - 1) * 86400000))
                8640000000000000) as [_|Hbad]; [|lia].
    destruct (UTC.civilFromDays _) as [[? ?] ?]. by eexists.
  - pose proof (daysFromCivil_bound (yr + m / 12) (m mod 12 + 1) ltac:(lia) ltac:(lia)) as Hb.
    unfold UTC.msPerDay, UTC.maxTime.
    destruct (Z.leb_spec (Z.abs ((UTC.daysFromCivil (yr + m / 12) (m mod 12 + 1) 1 + d - 1)
                                 * 86400000)) 8640000000000000) as [_|Hbad]; [|lia].
    destruct (UTC.civilFromDays _) as [[? ?] ?]. by eexists.
Qed.

Section ParseDate.
Context `{Runtime}.

(** C4, as the code has it.  On a blank or N/A input [parseDate] returns
    the absent value and logs nothing.  On [YYYY-MM-DD], [MM/DD/YYYY] and
    [MM/DD/YY] made of digits it returns, with no warning, the ISO date
    that the runtime renders for the year (20YY for two digits), the
    month minus one and the day.  On an input that neither has a ['-']
    and a first ['-']-separated part of 4 characters nor splits into
    exactly three parts at ['/'] it logs one warning and returns the absent
    value.  A row whose date is absent is dropped. *)
Theorem parseDate_by_shape :
  rendersCivilDates →
  (∀ dateStr, normalizeValue dateStr = None → parseDate dateStr = mkEff [] (Returned ""))
  ∧ (∀ y m d, digits 4 y → digits 2 m → digits 2 d →
       ∃ date, toISODate (digitsValue y) (digitsValue m - 1) (digitsValue d) = Some date
               ∧ parseDate (dashed y m d) = mkEff [] (Returned date))
  ∧ (∀ m d y, digits 2 m → digits 2 d → digits 4 y →
       ∃ date, toISODate (digitsValue y) (digitsValue m - 1) (digitsValue d) = Some date
               ∧ parseDate (slashed m d y) = mkEff [] (Returned date))
  ∧ (∀ m d yy, digits 2 m → digits 2 d → digits 2 yy →
       ∃ date, toISODate (2000 + digitsValue yy) (digitsValue m - 1) (digitsValue d) = Some date
               ∧ parseDate (slashed m d yy) = mkEff [] (Returned date))
  ∧ (∀ dateStr normalized,
       normalizeValue dateStr = Some normalized →
       JS.includes normalized "-" = false
       ∨ JS.strlen (element (JS.split "-" normalized) 0) ≠ 4 →
       length (JS.split "/" normalized) ≠ 3%nat →
       parseDate dateStr = mkEff ["Could not parse date: " +:+ dateStr] (Returned ""))
  ∧ (∀ st row, outcome (parseDate (Date row)) = Returned "" →
       outcome (processRow st row) = Returned st).
Proof.
  intros Htotal. split_and!.
  - intros dateStr Hblank. unfold parseDate. by rewrite Hblank.
  - intros y m d Hy Hm Hd.
    pose proof (digits_bound _ _ Hy) as By. change (10 ^ Z.of_nat 4) with 10000 in By.
    destruct (isoDate_digits y m d _ _ _ (digitsValue y) Htotal Hy Hm Hd eq_refl)
      as (date & Hdate & Hiso); [lia..|].
    exists date. split; [done|].
    change (dashed y m d) with (y +:+ String "-" (m +:+ String "-" d)). unfold parseDate.
    rewrite (three_parts_normal "-" y m d 3 2 2), includes_sep,
      (three_parts_split "-" y m d 4 2 2) by done.
    unfold element.
    change ([y; m; d] !! 0%nat) with (Some y). change ([y; m; d] !! 1%nat) with (Some m).
    change ([y; m; d] !! 2%nat) with (Some d). cbn [from_option Datatypes.id].
    rewrite (strlen_digits 4 y Hy). done.
  - intros m d y Hm Hd Hy.
    pose proof (digits_bound _ _ Hy) as By. change (10 ^ Z.of_nat 4) with 10000 in By.
    destruct (isoDate_digits y m d _ _ _ (digitsValue y) Htotal Hy Hm Hd eq_refl)
      as (date & Hdate & Hiso); [lia..|].
    exists date. split; [done|].
    change (slashed m d y) with (m +:+ String "/" (d +:+ String "/" y)). unfold parseDate.
    rewrite (three_parts_normal "/" m d y 1 2 4), (three_parts_no "/" "-" m d y 2 2 4) by done.
    unfold parseDateSlashes. rewrite (three_parts_split "/" m d y 2 2 4) by done.
    rewrite (strlen_digits 4 y Hy). done.
  - intros m d yy Hm Hd Hyy.
    destruct (digits_20 yy Hyy) as [Hy Hval].
    pose proof (digits_bound _ _ Hyy) as By. change (10 ^ Z.of_nat 2) with 100 in By.
    destruct (isoDate_digits ("20" +:+ yy) m d _ _ _ (2000 + digitsValue yy) Htotal Hy Hm Hd Hval)
      as (date & Hdate & Hiso); [lia..|].
    exists date. split; [done|].
    change (slashed m d yy) with (m +:+ String "/" (d +:+ String "/" yy)). unfold parseDate.
    rewrite (three_parts_normal "/" m d yy 1 2 2), (three_parts_no "/" "-" m d yy 2 2 2) by done.
    unfold parseDateSlashes. rewrite (three_parts_split "/" m d yy 2 2 2) by done.
    rewrite (strlen_digits 2 yy Hyy). done.
  - intros dateStr normalized Hnorm Hdash Hparts.
    assert (parseDateSlashes dateStr normalized
            = mkEff ["Could not parse date: " +:+ dateStr] (Returned "")) as Hslashes.
    { unfold parseDateSlashes.
      destruct (JS.split "/" normalized) as [|a [|b [|c [|e parts]]]]; done. }
    unfold parseDate. rewrite Hnorm.
    destruct Hdash as [->|Hlen]; [done|].
    apply Z.eqb_neq in Hlen. rewrite Hlen. by destruct (JS.includes normalized "-").
  - intros st row Habsent. unfold processRow.
    destruct (missingEssential row); [done|]. by rewrite (bind_returned _ _ _ Habsent).
Qed.

End ParseDate.

(** The UTC runtime renders the civil dates; there ['2024-03-15'] and
    ['01/02/24'] give a date. *)
Lemma parseDate_by_shape_witness :
  @rendersCivilDates utcRuntime
  ∧ (∃ date, UTC.toISODate (digitsValue "2024") (digitsValue "03" - 1) (digitsValue "15")
             = Some date
             ∧ @parseDate utcRuntime (dashed "2024" "03" "15") = mkEff [] (Returned date))
  ∧ (∃ date, UTC.toISODate (2000 + digitsValue "24") (digitsValue "01" - 1) (digitsValue "02")
             = Some date
             ∧ @parseDate utcRuntime (slashed "01" "02" "24") = mkEff [] (Returned date)).
Proof.
  split; [apply utc_rendersCivilDates|].
  destruct (@parseDate_by_shape utcRuntime utc_rendersCivilDates)
    as (_ & Hdashed & _ & Hyy & _).
  split; [apply (Hdashed "2024" "03" "15")|apply (Hyy "01" "02" "24")]; by split.
Defined.

(** C4 as stated fails on an input of another shape that is blank after
    normalisation: ["N/A"] gives the absent value, and no warning. *)
Lemma parseDate_blank_is_silent :
  @parseDate utcRuntime "N/A" = mkEff [] (Returned "")
  ∧ warnings (@parseDate utcRuntime "N/A") ≠ ["Could not parse date: N/A"].
Proof. split; [reflexivity|discriminate]. Qed.

(** Three parts that are not numbers make an invalid date, whose rendering
    throws, in every runtime. *)
Lemma parseDate_throws_on_invalid_parts `{Runtime} :
  parseDate "a/b/c" = mkEff [] (Thrown (RangeError "Invalid time value"))
  ∧ parseDate "2024-01" = mkEff [] (Thrown (RangeError "Invalid time value")).
Proof. split; reflexivity. Qed.

(** A throw of [parseDate] ends the loops: no row after it is processed. *)
Lemma processRow_throw_aborts `{Runtime} (st : State) (row : CSVRow) (rest : list CSVRow)
    (e : Exn) :
  missingEssential row = false →
  outcome (parseDate (Date row)) = Thrown e →
  outcome (forEach processRow st (row :: rest)) = Thrown e.
Proof.
  intros Hess Hthrow. simpl. unfold processRow. rewrite Hess.
  unfold mbind, eff_bind, bind. rewrite Hthrow. simpl. done.
Qed.


(** ** A run of the pipeline *)

(** Two files: a first-round match that ends in the second set, and the
    same pairing with no score data, which is skipped. *)
Example ingest_run :
  let result := @ingest utcRuntime [[Sample.row]; [Sample.noScores "0" "0" "Completed"]] in
  warnings result = ["  - No Final found for Brisbane International, skipping bracket."]
  ∧ match outcome result with
    | Returned (Some out) =>
        players out = [mkPlayer "john-smith" "John Smith"; mkPlayer "jane-doe" "Jane Doe"]
        ∧ map t_name (tournaments out) = ["Brisbane International"]
        ∧ map round (matches out) = [R_1R]
        ∧ map date (matches out) = ["2024-01-02"]
        ∧ map w (matches out) = [[6; 3]]
        ∧ map l (matches out) = [[4; 0]]
        ∧ map upset (derived out) = [Some false]
        ∧ brackets out = []
    | _ => False
    end.
Proof. vm_compute. by split_and!. Qed.

(** A file whose second row has a date of three parts that are not numbers:
    the run ends with the exception and writes nothing. *)
Example ingest_aborts_on_invalid_date :
  let bad := {| Location := "Brisbane"; Tournament_ := "Brisbane International";
                Date := "a/b/c"; Series_ := "ATP250"; Court_ := "Outdoor";
                Surface_ := "Hard"; Round_ := "1st Round"; BestOf := "3";
                Winner := "John Smith"; Loser := "Jane Doe";
                WRank := "12"; LRank := "40"; WPts := "3000"; LPts := "1200";
                W1 := "6"; L1 := "4"; W2 := "6"; L2 := "2"; W3 := ""; L3 := "";
                W4 := ""; L4 := ""; W5 := ""; L5 := "";
                Wsets := "2"; Lsets := "0"; Comment := "Completed" |} in
  outcome (@ingest utcRuntime [[Sample.row; bad; Sample.row]])
  = Thrown (RangeError "Invalid time value").
Proof. vm_compute. reflexivity. Qed.

(** * Further properties of the code *)

(** ** The bracket tree *)

Lemma sideNode_attributes (all : list Match) (pm : gmap string Player) (c : Round)
    (pid : string) :
  a_round (attributes (sideNode all pm c pid)) = c
  ∧ winnerName (attributes (sideNode all pm c pid)) = playerName pm pid.
Proof.
  unfold sideNode. destruct (find (feeds c pid) all) as [prev|] eqn:Hf; [|done].
  apply feeds_round in Hf as (_ & Hr & Hw). rewrite findChildrenForMatch_eq. simpl.
  by rewrite Hr, Hw.
Qed.

Lemma fedByChildren_sideNode (all : list Match) (pm : gmap string Player) (c : Round)
    (pid : string) :
  (∀ prev, find (feeds c pid) all = Some prev →
     Forall fedByChildren (nodes (findChildrenForMatch prev all pm))) →
  Forall fedByChildren (nodes (sideNode all pm c pid)).
Proof.
  intros IH. unfold sideNode.
  destruct (find (feeds c pid) all) as [prev|] eqn:Hf; [by apply IH|].
  simpl. by repeat constructor.
Qed.

(** X1. In every reconstructed tree the two children of a node are both of
    the round that feeds the round of the node, the first child is won by
    the winner of the node and the second by its loser; a node has no or
    two children. *)
Theorem bracket_children_feed_their_parent
    (m : Match) (all : list Match) (pm : gmap string Player) :
  Forall fedByChildren (nodes (findChildrenForMatch m all pm)).
Proof.
  revert m.
  apply (findChildrenForMatch_ind' all pm (λ _ t, Forall fedByChildren (nodes t))).
  - intros m _. simpl. by repeat constructor.
  - intros m c Hc IH. rewrite nodes_matchNode2. constructor.
    + unfold fedByChildren. simpl.
      destruct (sideNode_attributes all pm c (winnerId m)) as [-> ->].
      destruct (sideNode_attributes all pm c (loserId m)) as [-> ->]. done.
    + apply Forall_app. split; apply fedByChildren_sideNode; apply IH.
Qed.

Lemma nodes_sideNode_bound (all : list Match) (pm : gmap string Player) (c : Round)
    (pid : string) :
  (∀ prev, find (feeds c pid) all = Some prev →
     (length (nodes (findChildrenForMatch prev all pm)) + 1 ≤ 2 ^ S (hops (round prev)))%nat) →
  (length (nodes (sideNode all pm c pid)) + 1 ≤ 2 ^ S (hops c))%nat.
Proof.
  intros IH. unfold sideNode.
  destruct (find (feeds c pid) all) as [prev|] eqn:Hf.
  - specialize (IH prev eq_refl). by apply feeds_round in Hf as (_ & <- & _).
  - simpl. pose proof (Nat.pow_nonzero 2 (hops c)). lia.
Qed.

(** X2. A reconstructed tree has at most [2^(k+1) - 1] nodes when [k]
    precedence steps lie below the round of its root, so at most 1023
    nodes, however many matches the list holds. *)
Theorem bracket_size_bounded (m : Match) (all : list Match) (pm : gmap string Player) :
  (length (nodes (findChildrenForMatch m all pm)) + 1 ≤ 2 ^ S (hops (round m)))%nat
  ∧ (length (nodes (findChildrenForMatch m all pm)) ≤ 1023)%nat.
Proof.
  assert (Hmain : ∀ m,
            (length (nodes (findChildrenForMatch m all pm)) + 1 ≤ 2 ^ S (hops (round m)))%nat).
  { apply (findChildrenForMatch_ind' all pm
             (λ m t, (length (nodes t) + 1 ≤ 2 ^ S (hops (round m)))%nat)).
    - intros m0 _. simpl. pose proof (Nat.pow_nonzero 2 (hops (round m0))). lia.
    - intros m0 c Hc IH. rewrite nodes_matchNode2, (roundPrecedence_hops _ _ Hc).
      pose proof (nodes_sideNode_bound all pm c (winnerId m0) (IH _)).
      pose proof (nodes_sideNode_bound all pm c (loserId m0) (IH _)).
      cbn [length]. rewrite length_app. rewrite (Nat.pow_succ_r' 2 (S (hops c))). lia. }
  split; [apply Hmain|].
  pose proof (Hmain m) as Hm. pose proof (hops_le_9 (round m)) as H9.
  assert (2 ^ S (hops (round m)) ≤ 2 ^ 10)%nat by (apply Nat.pow_le_mono_r; lia).
  change (2 ^ 10)%nat with 1024%nat in *. lia.
Qed.

Lemma find_first {A} (f : A → bool) (pre post : list A) (x : A) :
  f x = true → (∀ y, y ∈ pre → f y = false) → find f (pre ++ x :: post) = Some x.
Proof.
  intros Hx Hpre. induction pre as [|y pre IH]; simpl; [by rewrite Hx|].
  rewrite (Hpre y) by left. apply IH. intros z Hz. apply Hpre. by right.
Qed.

Lemma feeds_false (c : Round) (pid : string) (x : Match) :
  ¬ (round x = c ∧ winnerId x = pid) → feeds c pid x = false.
Proof.
  intros Hno. apply not_true_is_false. intros Hf. apply Hno.
  apply andb_true_iff in Hf as [Hr Hw].
  apply bool_decide_eq_true in Hr. by apply String.eqb_eq in Hw.
Qed.

Lemma feeds_true (c : Round) (pid : string) (x : Match) :
  round x = c → winnerId x = pid → feeds c pid x = true.
Proof.
  intros Hr Hw. unfold feeds. apply andb_true_iff. split.
  - by apply bool_decide_eq_true.
  - by apply String.eqb_eq.
Qed.

(** X3. Among several matches of the feeding round won by the same
    participant, the one that comes first in the match list becomes the
    child on that participant's side; the later ones do not appear
    there. *)
Theorem first_listed_previous_match_is_used
    (m prev : Match) (pre post : list Match) (pm : gmap string Player) (c : Round)
    (side : nat) (playerId : string) :
  roundPrecedence (round m) = Some c →
  [winnerId m; loserId m] !! side = Some playerId →
  round prev = c → winnerId prev = playerId →
  (∀ x, x ∈ pre → ¬ (round x = c ∧ winnerId x = playerId)) →
  children (findChildrenForMatch m (pre ++ prev :: post) pm) !! side
  = Some (findChildrenForMatch prev (pre ++ prev :: post) pm).
Proof.
  intros Hc Hside Hr Hw Hpre.
  assert (Hfind : find (feeds c playerId) (pre ++ prev :: post) = Some prev).
  { apply find_first; [by apply feeds_true|]. intros y Hy. by apply feeds_false, Hpre. }
  rewrite (findChildrenForMatch_eq m), Hc. simpl.
  destruct side as [|[|side]]; simpl in Hside; [| |done];
    injection Hside as ->; simpl; unfold sideNode; by rewrite Hfind.
Qed.

(** The Final of the scenario with two Semifinal rows won by its winner:
    the first row is the child. *)
Lemma first_listed_previous_match_is_used_witness :
  children (findChildrenForMatch Scenario.final Duplicate.tournament Scenario.registry)
    !! 0%nat
  = Some (findChildrenForMatch Scenario.semi1 Duplicate.tournament Scenario.registry).
Proof.
  apply (first_listed_previous_match_is_used Scenario.final Scenario.semi1
           [Scenario.final] [Duplicate.semi1'] Scenario.registry R_SF 0 "a");
    [reflexivity..|].
  intros x Hx [Hr _]. apply list_elem_of_singleton in Hx as ->. discriminate Hr.
Defined.

(** ** The bracket files *)

Lemma find_existsb {A} (f : A → bool) (l : list A) :
  existsb f l = match find f l with Some _ => true | None => false end.
Proof. induction l as [|x l IH]; simpl; [done|]. by destruct (f x). Qed.

Lemma writeBracket_eq (allMatches : list Match) (pm : gmap string Player)
    (written : list (string * BracketNode)) (t : Tournament) :
  writeBracket allMatches pm written t
  = mkEff (option_list (warningOf allMatches t))
          (Returned (written ++ option_list (bracketOf allMatches pm t))).
Proof.
  unfold writeBracket, bracketOf, warningOf.
  fold (tournamentMatchesOf allMatches t). fold isFinal. fold isRoundRobin.
  rewrite (find_existsb isFinal).
  destruct (tournamentMatchesOf allMatches t) as [|m0 tms] eqn:Htms.
  { simpl. by rewrite app_nil_r. }
  rewrite bool_decide_eq_false_2 by done. cbn [orb].
  destruct (find isFinal (m0 :: tms)) as [finalMatch|] eqn:Hfinal; [done|].
  cbn [orb]. destruct (existsb isRoundRobin (m0 :: tms)); simpl; by rewrite app_nil_r.
Qed.

Lemma omap_cons_option_list {A B} (f : A → option B) (x : A) (l : list A) :
  omap f (x :: l) = option_list (f x) ++ omap f l.
Proof. cbn [omap list_omap]. by destruct (f x). Qed.

Lemma forEach_writeBracket (allMatches : list Match) (pm : gmap string Player)
    (tournaments : list Tournament) (written : list (string * BracketNode)) :
  forEach (writeBracket allMatches pm) written tournaments
  = mkEff (omap (warningOf allMatches) tournaments)
          (Returned (written ++ omap (bracketOf allMatches pm) tournaments)).
Proof.
  revert written. induction tournaments as [|t ts IH]; intros written.
  { simpl. by rewrite app_nil_r. }
  cbn [forEach]. rewrite writeBracket_eq.
  erewrite bind_returned by reflexivity. cbn [warnings].
  rewrite IH, !omap_cons_option_list. cbn [warnings outcome]. by rewrite <- app_assoc.
Qed.

Lemma filterFinals_names (allMatches : list Match) (pm : gmap string Player)
    (tournaments : list Tournament) :
  map fst (omap (bracketOf allMatches pm) tournaments)
  = map t_id (List.filter (λ t, existsb isFinal (tournamentMatchesOf allMatches t))
                          tournaments).
Proof.
  induction tournaments as [|t ts IH]; [done|].
  cbn [omap list_omap List.filter]. unfold bracketOf at 1.
  rewrite (find_existsb isFinal).
  destruct (find isFinal (tournamentMatchesOf allMatches t)); simpl; by rewrite IH.
Qed.

Section FailingWrites.
Context {E : Type} (fs : FileSystem E) (allMatches : list Match) (pm : gmap string Player).

(** One turn of the loop, by the file and the warning of the tournament. *)
Lemma writeBrackets_cons (written : list (string * BracketNode)) (t : Tournament)
    (rest : list Tournament) :
  writeBrackets fs allMatches pm written (t :: rest)
  = match bracketOf allMatches pm t with
    | Some file =>
        match writeFileSync fs written file.1 file.2 with
        | Some e => mkBracketRun [] written (Some e)
        | None => writeBrackets fs allMatches pm (written ++ [file]) rest
        end
    | None =>
        let run := writeBrackets fs allMatches pm written rest in
        match warningOf allMatches t with
        | Some message => mkBracketRun (message :: warned run) (writtenFiles run) (failure run)
        | None => run
        end
    end.
Proof.
  cbn [writeBrackets]. unfold bracketOf, warningOf.
  fold (tournamentMatchesOf allMatches t). fold isFinal. fold isRoundRobin.
  rewrite (find_existsb isFinal).
  destruct (tournamentMatchesOf allMatches t) as [|m0 tms] eqn:Htms; [done|].
  rewrite bool_decide_eq_false_2 by done. cbn [orb].
  destruct (find isFinal (m0 :: tms)) as [finalMatch|] eqn:Hfinal; [done|].
  cbn [orb]. by destruct (existsb isRoundRobin (m0 :: tms)).
Qed.

Lemma writeBrackets_prefix (tournaments : list Tournament)
    (written : list (string * BracketNode)) :
  (∃ files, writtenFiles (writeBrackets fs allMatches pm written tournaments)
            = written ++ files
            ∧ files `prefix_of` omap (bracketOf allMatches pm) tournaments)
  ∧ warned (writeBrackets fs allMatches pm written tournaments)
    `prefix_of` omap (warningOf allMatches) tournaments.
Proof.
  revert written. induction tournaments as [|t ts IH]; intros written.
  { simpl. split; [exists []; by rewrite app_nil_r|done]. }
  rewrite writeBrackets_cons, !omap_cons_option_list.
  destruct (bracketOf allMatches pm t) as [file|] eqn:Hfile.
  - assert (warningOf allMatches t = None) as ->.
    { unfold bracketOf in Hfile. unfold warningOf. rewrite (find_existsb isFinal).
      destruct (find isFinal _); [|done]. by rewrite orb_true_r. }
    cbn [option_list app].
    destruct (writeFileSync fs written file.1 file.2) as [e|].
    + cbn [writtenFiles warned]. split; [|apply prefix_nil].
      exists []. split; [by rewrite app_nil_r|apply prefix_nil].
    + destruct (IH (written ++ [file])) as [(files & Hfiles & Hpre) Hwarn].
      split; [|done]. exists (file :: files). split; [by rewrite Hfiles, <- app_assoc|].
      by apply prefix_cons.
  - cbn [option_list app]. destruct (IH written) as [(files & Hfiles & Hpre) Hwarn].
    destruct (warningOf allMatches t) as [message|]; cbn [option_list app warned writtenFiles].
    + split; [by exists files|by apply prefix_cons].
    + split; [by exists files|done].
Qed.

Lemma writeBrackets_complete (tournaments : list Tournament)
    (written : list (string * BracketNode)) :
  failure (writeBrackets fs allMatches pm written tournaments) = None →
  writtenFiles (writeBrackets fs allMatches pm written tournaments)
  = written ++ omap (bracketOf allMatches pm) tournaments
  ∧ warned (writeBrackets fs allMatches pm written tournaments)
    = omap (warningOf allMatches) tournaments.
Proof.
  revert written. induction tournaments as [|t ts IH]; intros written.
  { simpl. by rewrite app_nil_r. }
  rewrite writeBrackets_cons, !omap_cons_option_list.
  destruct (bracketOf allMatches pm t) as [file|] eqn:Hfile.
  - assert (warningOf allMatches t = None) as ->.
    { unfold bracketOf in Hfile. unfold warningOf. rewrite (find_existsb isFinal).
      destruct (find isFinal _); [|done]. by rewrite orb_true_r. }
    cbn [option_list app].
    destruct (writeFileSync fs written file.1 file.2) as [e|]; [done|].
    intros [-> ->]%IH. by rewrite <- app_assoc.
  - cbn [option_list app].
    destruct (warningOf allMatches t) as [message|]; cbn [option_list app warned writtenFiles failure].
    + by intros [-> ->]%IH.
    + apply IH.
Qed.

Lemma writeBrackets_failure (tournaments : list Tournament)
    (written : list (string * BracketNode)) (e : E) :
  failure (writeBrackets fs allMatches pm written tournaments) = Some e →
  ∃ file,
    (written ++ omap (bracketOf allMatches pm) tournaments)
      !! length (writtenFiles (writeBrackets fs allMatches pm written tournaments))
    = Some file
    ∧ writeFileSync fs (writtenFiles (writeBrackets fs allMatches pm written tournaments))
        file.1 file.2 = Some e.
Proof.
  revert written. induction tournaments as [|t ts IH]; intros written; [done|].
  rewrite writeBrackets_cons, !omap_cons_option_list.
  destruct (bracketOf allMatches pm t) as [file|] eqn:Hfile.
  - cbn [option_list app].
    destruct (writeFileSync fs written file.1 file.2) as [e'|] eqn:Hwrite.
    + intros [= ->]. exists file. cbn [writtenFiles]. split; [|done].
      by apply list_lookup_middle.
    + intros (file' & Hlookup & Hfail)%IH. exists file'. split; [|done].
      by rewrite <- app_assoc in Hlookup.
  - cbn [option_list app].
    destruct (warningOf allMatches t) as [message|]; cbn [writtenFiles failure]; apply IH.
Qed.

Lemma writeBrackets_succeeds (tournaments : list Tournament)
    (written : list (string * BracketNode)) :
  (∀ before name tree, writeFileSync fs before name tree = None) →
  failure (writeBrackets fs allMatches pm written tournaments) = None.
Proof.
  intros Hok. revert written. induction tournaments as [|t ts IH]; intros written; [done|].
  rewrite writeBrackets_cons.
  destruct (bracketOf allMatches pm t) as [file|]; [rewrite Hok; apply IH|].
  cbn zeta. destruct (warningOf allMatches t); cbn [failure]; apply IH.
Qed.

End FailingWrites.

(** X4. On any file system, [generateBracketData] writes the first files,
    in order, of the list that has one file per tournament with a Final
    among its matches, named after the tournament and holding the tree of
    its first Final; and it gives the first warnings of the list that has
    one warning per tournament with matches but neither a Final nor a
    round-robin match.  When no call of the file system fails, it writes
    and warns all of them; the model of the pipeline is that run.  When it
    fails, the error is the one of [mkdirSync], with nothing written, or
    the one of the write of the next file of the list, the files before it
    staying written. *)
Theorem bracket_files_follow_the_finals {E : Type} (fs : FileSystem E)
    (allMatches : list Match) (allPlayers : list Player) (allTournaments : list Tournament) :
  map fst (omap (bracketOf allMatches (playerMapOf allPlayers)) allTournaments)
  = map t_id (List.filter (λ t, existsb isFinal (tournamentMatchesOf allMatches t))
                          allTournaments)
  ∧ writtenFiles (generateBracketDataOn fs allMatches allPlayers allTournaments)
    `prefix_of` omap (bracketOf allMatches (playerMapOf allPlayers)) allTournaments
  ∧ warned (generateBracketDataOn fs allMatches allPlayers allTournaments)
    `prefix_of` omap (warningOf allMatches) allTournaments
  ∧ (failure (generateBracketDataOn fs allMatches allPlayers allTournaments) = None →
       writtenFiles (generateBracketDataOn fs allMatches allPlayers allTournaments)
       = omap (bracketOf allMatches (playerMapOf allPlayers)) allTournaments
       ∧ warned (generateBracketDataOn fs allMatches allPlayers allTournaments)
         = omap (warningOf allMatches) allTournaments)
  ∧ ((existsSync fs = true ∨ mkdirSync fs = None) →
     (∀ before name tree, writeFileSync fs before name tree = None) →
       failure (generateBracketDataOn fs allMatches allPlayers allTournaments) = None
       ∧ generateBracketData allMatches allPlayers allTournaments
         = mkEff (warned (generateBracketDataOn fs allMatches allPlayers allTournaments))
                 (Returned
                    (writtenFiles
                       (generateBracketDataOn fs allMatches allPlayers allTournaments))))
  ∧ (∀ e, failure (generateBracketDataOn fs allMatches allPlayers allTournaments) = Some e →
       (existsSync fs = false ∧ mkdirSync fs = Some e
        ∧ writtenFiles (generateBracketDataOn fs allMatches allPlayers allTournaments) = []
        ∧ warned (generateBracketDataOn fs allMatches allPlayers allTournaments) = [])
       ∨ ∃ file,
           omap (bracketOf allMatches (playerMapOf allPlayers)) allTournaments
             !! length (writtenFiles
                          (generateBracketDataOn fs allMatches allPlayers allTournaments))
           = Some file
           ∧ writeFileSync fs
               (writtenFiles (generateBracketDataOn fs allMatches allPlayers allTournaments))
               file.1 file.2 = Some e).
Proof.
  set (pm := playerMapOf allPlayers).
  pose proof (writeBrackets_prefix fs allMatches pm allTournaments [])
    as [(files & Hfiles & Hpre) Hwarn].
  pose proof (writeBrackets_complete fs allMatches pm allTournaments []) as Hcomplete.
  pose proof (writeBrackets_failure fs allMatches pm allTournaments []) as Hfailure.
  pose proof (writeBrackets_succeeds fs allMatches pm allTournaments []) as Hsucceeds.
  cbn [app] in *. unfold generateBracketDataOn. fold pm.
  split; [apply filterFinals_names|].
  destruct (existsSync fs) eqn:Hdir; [|destruct (mkdirSync fs) as [e0|] eqn:Hmk].
  2: { cbn [writtenFiles warned failure].
       split_and!; [apply prefix_nil|apply prefix_nil|done| |].
       - by intros [|].
       - intros e [= ->]. by left. }
  all: split_and!; [by rewrite Hfiles|done|done| |by intros e ?; right; apply Hfailure].
  all: intros _ Hok; split; [by apply Hsucceeds|].
  all: destruct (Hcomplete (Hsucceeds Hok)) as [-> ->];
       unfold generateBracketData; by rewrite forEach_writeBracket.
Qed.

(** Two tournaments with a Final each on a disk that fails on the file of
    the second: the file of the first stays written. *)
Example bracket_run_on_full_disk :
  let run := generateBracketDataOn Disk.full Disk.matches Disk.players Disk.tournaments in
  map fst (writtenFiles run) = ["t1"] ∧ warned run = [] ∧ failure run = Some "ENOSPC".
Proof. vm_compute. done. Qed.

Lemma last_cons_match {A} (x : A) (l : list A) :
  last (x :: l) = match last l with Some y => Some y | None => Some x end.
Proof.
  destruct l as [|y l]; [done|]. change (last (x :: y :: l)) with (last (y :: l)).
  destruct (last (y :: l)) eqn:E; [done|]. by apply last_None in E.
Qed.

(** X5. In the map that the bracket reconstructor builds from the player
    list, an identifier leads to the last player of the list that carries
    it, and to nothing when no player has it: of two players with the same
    identifier only the later one is seen. *)
Theorem playerMap_keeps_last_player (allPlayers : list Player) (playerId : string) :
  playerMapOf allPlayers !! playerId
  = last (filter (λ p, p_id p = playerId) allPlayers).
Proof.
  unfold playerMapOf.
  assert (Hgen : ∀ ps (acc : gmap string Player),
            fold_left (λ acc p, <[p_id p := p]> acc) ps acc !! playerId
            = match last (filter (λ p, p_id p = playerId) ps) with
              | Some p => Some p
              | None => acc !! playerId
              end).
  { induction ps as [|p ps IH]; intros acc; [done|].
    cbn [fold_left]. rewrite IH.
    destruct (decide (p_id p = playerId)) as [Heq|Hne].
    - rewrite filter_cons_True, last_cons_match by done.
      destruct (last _); [done|]. by rewrite Heq, lookup_insert_eq.
    - rewrite filter_cons_False by done.
      destruct (last _); [done|]. by rewrite lookup_insert_ne. }
  rewrite Hgen. by destruct (last _).
Qed.

(** ** Scores *)

Lemma setScores_zip (ws ls : list Z) (i : nat) :
  (length ws + i ≤ length ls)%nat →
  setScores ws ls i = zip_with setScore ws (drop i ls).
Proof.
  revert i. induction ws as [|wScore ws IH]; intros i Hlen; [done|].
  cbn [setScores length] in *.
  destruct (lookup_lt_is_Some_2 ls i ltac:(lia)) as [lScore Hl].
  rewrite Hl, (drop_S _ _ _ Hl). cbn [zip_with]. rewrite IH by lia. done.
Qed.

Lemma setScores_lookup (ws ls : list Z) (i k : nat) (wScore : Z) :
  ws !! k = Some wScore →
  setScores ws ls i !! k
  = Some (JS.numberToString wScore +:+ "-"
          +:+ default "undefined" (JS.numberToString <$> ls !! (i + k)%nat)).
Proof.
  revert i k. induction ws as [|w0 ws IH]; intros i k Hk; [done|].
  destruct k as [|k]; cbn [setScores].
  - change (Some w0 = Some wScore) in Hk. injection Hk as ->.
    rewrite Nat.add_0_r. reflexivity.
  - change (ws !! k = Some wScore) in Hk.
    change ((?x :: ?t) !! S k) with (t !! k).
    rewrite (IH (S i) k Hk). by rewrite Nat.add_succ_comm.
Qed.

Lemma append_empty_r (s : string) : s +:+ "" = s.
Proof.
  induction s as [|c s IH]; [done|].
  change (String c s +:+ "") with (String c (s +:+ "")). by rewrite IH.
Qed.

(** X6. When the loser's array is at least as long as the winner's, the
    score of a node is the ['w-l'] items of the sets joined by spaces,
    followed by [' (RET)'] for a retirement.  A set of the winner with no
    entry in the loser's array is rendered ['w-undefined']. *)
Theorem formatScore_of_sets (w l : list Z) (comment : option string) :
  ((length w ≤ length l)%nat →
     formatScore w l comment
     = JS.join " " (zip_with setScore w l)
       +:+ (if bool_decide (comment = Some "Retired") then " (RET)" else ""))
  ∧ (∀ k wScore, w !! k = Some wScore → (length l ≤ k)%nat →
       setScores w l 0 !! k = Some (JS.numberToString wScore +:+ "-undefined")).
Proof.
  split.
  - intros Hlen. unfold formatScore. rewrite setScores_zip by lia. cbn [drop].
    destruct (bool_decide _); [done|]. by rewrite append_empty_r.
  - intros k wScore Hk Hlen. rewrite (setScores_lookup _ _ _ _ _ Hk).
    by rewrite (lookup_ge_None_2 l) by (simpl; lia).
Qed.

(** ** Slugs *)

Ltac all_chars c := destruct c as [[] [] [] [] [] [] [] []]; vm_compute; reflexivity.

Lemma toLowerChar_not_upper (c : ascii) : JS.isUpper (JS.toLowerChar c) = false.
Proof. all_chars c. Qed.

Lemma kept_char_class (c : ascii) :
  implb (negb (JS.isUpper c) && negb (isPeriod c)
         && (JS.isWord c || JS.isWhiteSpace c || isHyphen c))
        (isSlugChar c || JS.isWhiteSpace c) = true.
Proof. all_chars c. Qed.

Lemma slug_char_facts (c : ascii) :
  implb (isSlugChar c)
        (negb (JS.isUpper c) && negb (isPeriod c) && negb (JS.isWhiteSpace c)
         && (JS.isWord c || JS.isWhiteSpace c || isHyphen c)) = true.
Proof. all_chars c. Qed.

Lemma every_mapChars (q : ascii → bool) (f : ascii → ascii) (s : string) :
  (∀ c, q (f c) = true) → JS.every q (JS.mapChars f s) = true.
Proof. intros Hq. induction s as [|c s IH]; simpl; [done|]. by rewrite Hq, IH. Qed.

Lemma every_filterChars (p q keep : ascii → bool) (s : string) :
  (∀ c, p c = true → keep c = true → q c = true) →
  JS.every p s = true → JS.every q (filterChars keep s) = true.
Proof.
  intros Hq. induction s as [|c s IH]; simpl; [done|].
  intros [Hc Hs]%andb_true_iff. destruct (keep c) eqn:Hk; simpl; [|by apply IH].
  by rewrite (Hq c Hc Hk), IH.
Qed.

Lemma every_replaceRuns (p q cls : ascii → bool) (inRun : bool) (s : string) :
  (∀ c, p c = true → cls c = false → q c = true) → q "-"%char = true →
  JS.every p s = true → JS.every q (replaceRuns cls inRun s) = true.
Proof.
  intros Hq Hhy. revert inRun. induction s as [|c s IH]; intros inRun; simpl; [done|].
  intros [Hc Hs]%andb_true_iff. destruct (cls c) eqn:Hcls.
  - destruct inRun; simpl; rewrite ?Hhy; by apply IH.
  - simpl. by rewrite (Hq c Hc Hcls), IH.
Qed.

Lemma singleHyphens_replaceRuns (inRun : bool) (s : string) :
  singleHyphens inRun (replaceRuns isHyphen inRun s) = true.
Proof.
  revert inRun. induction s as [|c s IH]; intros inRun; simpl; [done|].
  destruct (isHyphen c) eqn:Hc.
  - destruct inRun; [apply IH|]. simpl. change (isHyphen "-") with true. simpl. apply IH.
  - simpl. rewrite Hc. apply IH.
Qed.

Lemma mapChars_fixed (p : ascii → bool) (f : ascii → ascii) (s : string) :
  (∀ c, p c = true → f c = c) → JS.every p s = true → JS.mapChars f s = s.
Proof.
  intros Hf. induction s as [|c s IH]; simpl; [done|].
  intros [Hc Hs]%andb_true_iff. by rewrite (Hf c Hc), IH.
Qed.

Lemma filterChars_fixed (keep : ascii → bool) (s : string) :
  JS.every keep s = true → filterChars keep s = s.
Proof.
  induction s as [|c s IH]; simpl; [done|].
  intros [Hc Hs]%andb_true_iff. by rewrite Hc, IH.
Qed.

Lemma replaceRuns_no_class (cls : ascii → bool) (s : string) :
  JS.every (λ c, negb (cls c)) s = true → replaceRuns cls false s = s.
Proof.
  induction s as [|c s IH]; simpl; [done|].
  intros [Hc Hs]%andb_true_iff. apply negb_true_iff in Hc. by rewrite Hc, IH.
Qed.

Lemma replaceRuns_singleHyphens (inRun : bool) (s : string) :
  singleHyphens inRun s = true → replaceRuns isHyphen inRun s = s.
Proof.
  revert inRun. induction s as [|c s IH]; intros inRun; simpl; [done|].
  destruct (isHyphen c) eqn:Hc.
  - intros [Hrun Hs]%andb_true_iff. apply negb_true_iff in Hrun as ->.
    rewrite (IH true Hs). unfold isHyphen in Hc. by apply Ascii.eqb_eq in Hc as ->.
  - intros Hs. by rewrite (IH false Hs).
Qed.

Lemma slug_char (c : ascii) :
  isSlugChar c = true →
  JS.isUpper c = false ∧ isPeriod c = false ∧ JS.isWhiteSpace c = false
  ∧ JS.isWord c || JS.isWhiteSpace c || isHyphen c = true.
Proof.
  intros Hc. pose proof (slug_char_facts c) as Hf. rewrite Hc in Hf. cbn [implb] in Hf.
  apply andb_true_iff in Hf as [[[Hu Hp]%andb_true_iff Hw]%andb_true_iff Hk].
  by apply negb_true_iff in Hu, Hp, Hw.
Qed.

Lemma slugify_alphabet_aux (text : string) :
  JS.every isSlugChar (slugify text) = true ∧ singleHyphens false (slugify text) = true.
Proof.
  unfold slugify. cbv zeta.
  set (s3 := filterChars _ (filterChars _ (JS.toLowerCase text))).
  assert (H3 : JS.every (λ c, isSlugChar c || JS.isWhiteSpace c) s3 = true).
  { apply (every_filterChars (λ c, negb (JS.isUpper c) && negb (isPeriod c))).
    - intros c Hc Hk. pose proof (kept_char_class c) as Hf. by rewrite Hc, Hk in Hf.
    - apply (every_filterChars (λ c, negb (JS.isUpper c))).
      + intros c Hc Hk. apply andb_true_iff. by split.
      + apply every_mapChars. intros c. by rewrite toLowerChar_not_upper. }
  assert (H5 : JS.every isSlugChar
                 (replaceRuns isHyphen false (replaceRuns JS.isWhiteSpace false s3)) = true).
  { apply (every_replaceRuns isSlugChar); [done|done|].
    apply (every_replaceRuns (λ c, isSlugChar c || JS.isWhiteSpace c)); [|done|done].
    intros c Hc Hws. by rewrite Hws, orb_false_r in Hc. }
  rewrite trim_no_space.
  - split; [done|]. apply singleHyphens_replaceRuns.
  - revert H5. apply every_impl. intros c Hc.
    by destruct (slug_char c Hc) as (_ & _ & -> & _).
Qed.

(** X7. A slug holds only lower-case letters, digits, underscores and
    hyphens, and no two hyphens in a row, whatever the text. *)
Theorem slugify_alphabet (text : string) :
  JS.every isSlugChar (slugify text) = true ∧ singleHyphens false (slugify text) = true.
Proof. apply slugify_alphabet_aux. Qed.

(** X8. A text that is already a slug is its own slug, so [slugify] is
    idempotent. *)
Theorem slugify_idempotent (text : string) :
  (JS.every isSlugChar text = true → singleHyphens false text = true → slugify text = text)
  ∧ slugify (slugify text) = slugify text.
Proof.
  assert (Hfix : ∀ t, JS.every isSlugChar t = true → singleHyphens false t = true →
                      slugify t = t).
  { intros t Ht Hh. unfold slugify. cbv zeta.
    assert (Hall : ∀ q : ascii → bool,
              (∀ c, isSlugChar c = true → q c = true) → JS.every q t = true).
    { intros q Hq. revert Ht. by apply every_impl. }
    unfold JS.toLowerCase. rewrite (mapChars_fixed isSlugChar); [| |done].
    2:{ intros c Hc. destruct (slug_char c Hc) as (Hu & _). unfold JS.toLowerChar.
        by rewrite Hu. }
    rewrite (filterChars_fixed (λ c, negb (isPeriod c)) t)
      by (apply Hall; intros c Hc; by destruct (slug_char c Hc) as (_ & -> & _)).
    rewrite (filterChars_fixed _ t)
      by (apply Hall; intros c Hc; by destruct (slug_char c Hc) as (_ & _ & _ & ->)).
    rewrite (replaceRuns_no_class JS.isWhiteSpace t)
      by (apply Hall; intros c Hc; by destruct (slug_char c Hc) as (_ & _ & -> & _)).
    rewrite (replaceRuns_singleHyphens false t Hh).
    apply trim_no_space, Hall. intros c Hc. by destruct (slug_char c Hc) as (_ & _ & -> & _). }
  split; [apply Hfix|].
  destruct (slugify_alphabet_aux text) as [Ha Hh]. by apply Hfix.
Qed.

(** ** Identifiers of players, once more *)

Lemma numberToString_inj (a b : Z) : JS.numberToString a = JS.numberToString b → a = b.
Proof.
  unfold JS.numberToString. intros Heq.
  assert (Hnn : ∀ z, Z.to_int z ≠ Decimal.Pos Decimal.Nil ∧ Z.to_int z ≠ Decimal.Neg Decimal.Nil).
  { intros [|p|p]; simpl; split; try discriminate;
      intros [= Hp]; by apply DecimalPos.Unsigned.to_uint_nonnil in Hp. }
  apply DecimalZ.to_int_inj.
  assert (Some (Z.to_int a) = Some (Z.to_int b)) as [= ->]; [|done].
  rewrite <- (NilZero.isi (Z.to_int a)), <- (NilZero.isi (Z.to_int b)) by apply Hnn.
  by rewrite Heq.
Qed.

Lemma append_length (a b : string) :
  String.length (a +:+ b) = (String.length a + String.length b)%nat.
Proof.
  induction a as [|c a IH]; [done|].
  change (String c a +:+ b) with (String c (a +:+ b)). simpl. by rewrite IH.
Qed.

Lemma append_inj_r (a b1 b2 : string) : a +:+ b1 = a +:+ b2 → b1 = b2.
Proof.
  induction a as [|c a IH]; [done|].
  change (String c a +:+ ?b) with (String c (a +:+ b)). intros [= Heq]. by apply IH.
Qed.

Lemma playerIdFor_inj (slug : string) (k1 k2 : nat) :
  playerIdFor slug k1 = playerIdFor slug k2 → k1 = k2.
Proof.
  destruct k1 as [|k1], k2 as [|k2]; simpl; [done| | |].
  - intros Heq. apply (f_equal String.length) in Heq.
    rewrite append_length in Heq. simpl in Heq. lia.
  - intros Heq. apply (f_equal String.length) in Heq.
    rewrite append_length in Heq. simpl in Heq. lia.
  - intros Heq%append_inj_r. injection Heq as Heq.
    apply numberToString_inj in Heq. lia.
Qed.

Lemma playerIdOf_expected (names : list string) (name : string) (playerId : string) :
  playerIdOf names name = Some playerId →
  ∃ i, firstSeen names !! i = Some name
       ∧ playerId = playerIdFor (slugify name) (sameSlugCount name (take i (firstSeen names))).
Proof.
  unfold playerIdOf. intros Hid.
  destruct (registryOf_resolvePlayers names _ _ registryOf_initial) as (Hfst & _ & _ & Hget).
  fold (firstSeen names) in Hfst, Hget.
  destruct (OMap.get name _) as [p|] eqn:Hp; [|done]. injection Hid as <-.
  assert (name ∈ firstSeen names) as [i Hi]%list_elem_of_lookup_1.
  { rewrite <- Hfst. apply OMap_get_fst. by eexists. }
  exists i. split; [done|]. rewrite (Hget i name Hi) in Hp. by injection Hp as <-.
Qed.

(** X9. Two different names with the same slug never get the same
    identifier in a run. *)
Theorem same_slug_players_get_distinct_ids
    (names : list string) (name1 name2 id1 id2 : string) :
  name1 ≠ name2 → slugify name1 = slugify name2 →
  playerIdOf names name1 = Some id1 → playerIdOf names name2 = Some id2 →
  id1 ≠ id2.
Proof.
  intros Hne Hslug (i & Hi & ->)%playerIdOf_expected (j & Hj & ->)%playerIdOf_expected.
  rewrite <- Hslug. intros Heq%playerIdFor_inj.
  destruct (Nat.lt_trichotomy i j) as [Hlt|[->|Hlt]].
  - pose proof (sameSlugCount_increases _ _ _ _ _ Hi Hj Hlt Hslug). lia.
  - congruence.
  - pose proof (sameSlugCount_increases _ _ _ _ _ Hj Hi Hlt (eq_sym Hslug)). lia.
Qed.

Lemma same_slug_players_get_distinct_ids_witness : "a-smith" ≠ "a-smith-1".
Proof.
  apply (same_slug_players_get_distinct_ids Clash.names "A Smith" "A. Smith");
    [discriminate|reflexivity|reflexivity|reflexivity].
Defined.

(** X10. Identifiers of players of different slugs can be the same: when
    a name is the second of its slug and another name is the first of the
    slug that is the former slug followed by ['-1'], both get that
    identifier. *)
Theorem player_ids_clash_across_slugs
    (names : list string) (i j : nat) (name1 name2 : string) :
  firstSeen names !! i = Some name1 →
  firstSeen names !! j = Some name2 →
  sameSlugCount name1 (take i (firstSeen names)) = 1%nat →
  sameSlugCount name2 (take j (firstSeen names)) = 0%nat →
  slugify name2 = slugify name1 +:+ "-1" →
  name1 ≠ name2 ∧ ∃ playerId, playerIdOf names name1 = Some playerId
                              ∧ playerIdOf names name2 = Some playerId.
Proof.
  intros Hi Hj H1 H2 Hslug. split.
  - intros ->. apply (f_equal String.length) in Hslug.
    rewrite append_length in Hslug. simpl in Hslug. lia.
  - destruct (registryOf_resolvePlayers names _ _ registryOf_initial) as (_ & _ & _ & Hget).
    fold (firstSeen names) in Hget. unfold playerIdOf.
    rewrite (Hget i name1 Hi), (Hget j name2 Hj). unfold expectedPlayer. simpl.
    rewrite H1, H2, Hslug. simpl. by eexists.
Qed.

Lemma player_ids_clash_across_slugs_witness :
  "A. Smith" ≠ "A Smith 1"
  ∧ ∃ playerId, playerIdOf Clash.names "A. Smith" = Some playerId
                ∧ playerIdOf Clash.names "A Smith 1" = Some playerId.
Proof.
  apply (player_ids_clash_across_slugs Clash.names 1 2 "A. Smith" "A Smith 1");
    reflexivity.
Defined.

(** ** The hash of a concatenation *)

Lemma charCodes_app (a b : string) : JS.charCodes (a +:+ b) = JS.charCodes a ++ JS.charCodes b.
Proof.
  induction a as [|c a IH]; [done|].
  change (String c a +:+ b) with (String c (a +:+ b)). simpl. by rewrite IH.
Qed.

Lemma charCodes_length (s : string) : length (JS.charCodes s) = String.length s.
Proof. induction s as [|c s IH]; simpl; [done|]. by rewrite IH. Qed.

Lemma toInt32_small (z : Z) : - 2 ^ 31 ≤ z < 2 ^ 31 → toInt32 z = z.
Proof.
  intros Hz. unfold toInt32.
  destruct (Z.ltb_spec (z mod 2 ^ 32) (2 ^ 31)) as [Hlt|Hge].
  - destruct (Z_lt_le_dec z 0) as [Hneg|Hpos].
    + rewrite <- (Z_mod_plus_full z 1 (2 ^ 32)) in Hlt.
      rewrite Z.mod_small in Hlt by lia. lia.
    + apply Z.mod_small. lia.
  - destruct (Z_lt_le_dec z 0) as [Hneg|Hpos].
    + rewrite <- (Z_mod_plus_full z 1 (2 ^ 32)). rewrite Z.mod_small by lia. lia.
    + rewrite Z.mod_small in Hge by lia. lia.
Qed.

Lemma fold_hashStep_range (codes : list Z) (h : Z) :
  - 2 ^ 31 ≤ h < 2 ^ 31 → - 2 ^ 31 ≤ fold_left hashStep codes h < 2 ^ 31.
Proof.
  revert h. induction codes as [|c codes IH]; intros h Hh; [done|].
  simpl. apply IH. rewrite hashStep_spec. apply toInt32_range.
Qed.

Lemma toInt32_affine (x k y : Z) : toInt32 (toInt32 x * k + y) = toInt32 (x * k + y).
Proof.
  apply toInt32_congr.
  rewrite Z.add_mod, Z.mul_mod, toInt32_mod, <- Z.mul_mod, <- Z.add_mod by lia. done.
Qed.

Lemma toInt32_add_r (x y : Z) : toInt32 (x + toInt32 y) = toInt32 (x + y).
Proof.
  apply toInt32_congr. rewrite Z.add_mod, toInt32_mod, <- Z.add_mod by lia. done.
Qed.

Lemma fold_hashStep_from (codes : list Z) (h : Z) :
  toInt32 (fold_left hashStep codes h)
  = toInt32 (h * 31 ^ Z.of_nat (length codes) + fold_left hashStep codes 0).
Proof.
  revert h. induction codes as [|c codes IH]; intros h.
  { simpl. f_equal. lia. }
  cbn [fold_left length]. rewrite IH.
  rewrite <- (toInt32_add_r (h * 31 ^ Z.of_nat (S (length codes)))
                            (fold_left hashStep codes (hashStep 0 c))).
  rewrite (IH (hashStep 0 c)), toInt32_add_r.
  rewrite !hashStep_spec, toInt32_affine.
  replace (h * 31 ^ Z.of_nat (S (length codes))
           + (toInt32 (0 * 31 + c) * 31 ^ Z.of_nat (length codes) + fold_left hashStep codes 0))
    with (toInt32 (0 * 31 + c) * 31 ^ Z.of_nat (length codes)
          + (h * 31 ^ Z.of_nat (S (length codes)) + fold_left hashStep codes 0)) by lia.
  rewrite toInt32_affine, Nat2Z.inj_succ, Z.pow_succ_r by lia. f_equal. lia.
Qed.

Lemma hashString_app_aux (a b : string) :
  hashString (a +:+ b)
  = toInt32 (hashString a * 31 ^ Z.of_nat (String.length b) + hashString b).
Proof.
  unfold hashString. rewrite charCodes_app, fold_left_app, <- charCodes_length.
  rewrite <- fold_hashStep_from. symmetry. apply toInt32_small.
  apply fold_hashStep_range, fold_hashStep_range. lia.
Qed.

(** X11. The hash of a concatenation is the hash of the first part times
    [31] to the length of the second part, plus the hash of the second
    part, wrapped to 32 bits.  So two keys with the same hash still have
    the same hash after the same text is put behind them, and also after
    the same text is put in front of them when they are equally long. *)
Theorem hashString_of_concatenation :
  (∀ a b, hashString (a +:+ b)
          = toInt32 (hashString a * 31 ^ Z.of_nat (String.length b) + hashString b))
  ∧ (∀ a a' b, hashString a = hashString a' → hashString (a +:+ b) = hashString (a' +:+ b))
  ∧ (∀ p a a', String.length a = String.length a' → hashString a = hashString a' →
               hashString (p +:+ a) = hashString (p +:+ a')).
Proof.
  split_and!.
  - apply hashString_app_aux.
  - intros a a' b Heq. by rewrite !hashString_app_aux, Heq.
  - intros p a a' Hlen Heq. by rewrite !hashString_app_aux, Hlen, Heq.
Qed.

(** ** Normalised values *)

Lemma trimEnd_idem (s : string) : JS.trimEnd (JS.trimEnd s) = JS.trimEnd s.
Proof.
  induction s as [|c s IH]; [done|]. cbn [JS.trimEnd].
  destruct (JS.trimEnd s) as [|d t] eqn:Ht.
  - destruct (JS.isWhiteSpace c) eqn:Hc; [done|]. cbn [JS.trimEnd]. by rewrite Hc.
  - change (JS.trimEnd (String c (String d t)))
      with (match JS.trimEnd (String d t) with
            | EmptyString => if JS.isWhiteSpace c then EmptyString else String c EmptyString
            | r => String c r
            end).
    by rewrite IH.
Qed.

Lemma trimStart_head (s : string) :
  JS.trimStart s = "" ∨ ∃ c r, JS.trimStart s = String c r ∧ JS.isWhiteSpace c = false.
Proof.
  induction s as [|c s IH]; [by left|]. cbn [JS.trimStart].
  destruct (JS.isWhiteSpace c) eqn:Hc; [done|]. right. by exists c, s.
Qed.

Lemma trimEnd_head (c : ascii) (r : string) :
  JS.isWhiteSpace c = false → ∃ r', JS.trimEnd (String c r) = String c r'.
Proof.
  intros Hc. cbn [JS.trimEnd]. destruct (JS.trimEnd r); [|by eexists].
  rewrite Hc. by eexists.
Qed.

Lemma trim_idem (s : string) : JS.trim (JS.trim s) = JS.trim s.
Proof.
  unfold JS.trim.
  assert (JS.trimStart (JS.trimEnd (JS.trimStart s)) = JS.trimEnd (JS.trimStart s)) as ->;
    [|apply trimEnd_idem].
  destruct (trimStart_head s) as [->|(c & r & -> & Hc)]; [done|].
  destruct (trimEnd_head c r Hc) as [r' ->]. cbn [JS.trimStart]. by rewrite Hc.
Qed.

Lemma normalizeValue_normal (value normalized : string) :
  normalizeValue value = Some normalized →
  normalized = JS.trim value ∧ normalized ≠ "" ∧ JS.toUpperCase normalized ≠ "N/A"
  ∧ normalizeValue normalized = Some normalized.
Proof.
  unfold normalizeValue.
  destruct (String.eqb value "") eqn:H0; [done|]. cbn [orb].
  destruct (String.eqb (JS.trim value) "") eqn:H1; [done|]. cbn [orb].
  destruct (String.eqb (JS.toUpperCase (JS.trim value)) "N/A") eqn:H2; [done|].
  intros [= <-]. rewrite trim_idem, H1, H2. cbn [orb].
  apply String.eqb_neq in H1, H2. done.
Qed.

(** X12. A normalised value is the trimmed input, is not empty, is not
    N/A in any case, and is its own normal form: normalising twice is
    normalising once. *)
Theorem normalizeValue_idempotent (value : string) :
  match normalizeValue value with
  | Some normalized =>
      normalized = JS.trim value ∧ normalized ≠ "" ∧ JS.toUpperCase normalized ≠ "N/A"
      ∧ normalizeValue normalized = Some normalized
  | None => True
  end.
Proof.
  destruct (normalizeValue value) as [normalized|] eqn:Hn; [|done].
  by apply normalizeValue_normal.
Qed.

(** ** Categorical values *)

(** X13. [normalizeRound] never throws, and it warns only when it falls
    back to the first round.  It reads every round code of the pipeline
    back as itself, except the code of the Final: ['F'] is none of the
    spellings it knows and becomes the first round, with the warning.  The
    other normalizers read their own values back. *)
Theorem normalizers_read_back_their_values :
  (∀ round, ∃ r, outcome (normalizeRound round) = Returned r
                 ∧ (warnings (normalizeRound round) = []
                    ∨ r = R_1R
                      ∧ warnings (normalizeRound round)
                        = ["Unknown round type: " +:+ round +:+ ". Defaulting to 1R."]))
  ∧ (∀ r, r ≠ R_F → normalizeRound (roundName r) = mkEff [] (Returned r))
  ∧ normalizeRound (roundName R_F)
    = mkEff ["Unknown round type: F. Defaulting to 1R."] (Returned R_1R)
  ∧ (∀ x, normalizeSeries (seriesName x) = x)
  ∧ (∀ x, normalizeCourt (courtName x) = x)
  ∧ (∀ x, normalizeSurface (surfaceName x) = x).
Proof.
  split_and!.
  - intros round. unfold normalizeRound.
    repeat match goal with
           | |- context [if ?b then _ else _] => destruct b; [by eexists; split; [|left]|]
           end.
    eexists. split; [done|]. by right.
  - intros [] Hr; try done; reflexivity.
  - reflexivity.
  - by intros [].
  - by intros [].
  - by intros [].
Qed.

(** ** Derived statistics *)

(** X14. [upset] is defined exactly when [rankDiff] is, and is then its
    sign: the match is an upset when the rank of the winner exceeds the
    rank of the loser, and is none when the ranks are equal. *)
Theorem upset_is_sign_of_rankDiff (m : Match) :
  upset (computeDerived m) = (λ diff, 0 <? diff) <$> rankDiff (computeDerived m).
Proof.
  unfold computeDerived. cbn [upset rankDiff].
  destruct (truthy (wRank m) && truthy (lRank m)); [|done].
  cbn [fmap option_fmap option_map]. f_equal.
  apply eq_iff_eq_true. rewrite !Z.ltb_lt. lia.
Qed.

Lemma sumOf_take_drop (ls : list Z) (i n : nat) :
  sumOf (take (S n) (drop i ls)) = at0 ls i + sumOf (take n (drop (S i) ls)).
Proof.
  unfold at0. destruct (ls !! i) as [x|] eqn:Hi.
  - by rewrite (drop_S _ _ _ Hi).
  - apply lookup_ge_None in Hi. rewrite !drop_ge by lia. by rewrite !take_nil.
Qed.

Lemma sumGames_spec (ws ls : list Z) (i : nat) (sum : Z) :
  sumGames ws ls i sum = sum + sumOf ws + sumOf (take (length ws) (drop i ls)).
Proof.
  revert i sum. induction ws as [|w ws IH]; intros i sum.
  - simpl. unfold sumOf. simpl. lia.
  - cbn [sumGames length]. rewrite IH, sumOf_take_drop.
    unfold sumOf at 3. cbn [foldr]. fold (sumOf ws). lia.
Qed.

(** X15. [totalGames] is the sum of the games of the winner plus the
    games of the loser in the sets that the winner's array has: a missing
    entry of the loser counts as 0, an entry of the loser beyond the
    winner's array is not counted; a total that is not positive is left
    out. *)
Theorem totalGames_is_sum_over_winner_sets (m : Match) :
  let total := sumOf (w m) + sumOf (take (length (w m)) (l m)) in
  totalGames (computeDerived m) = if 0 <? total then Some total else None.
Proof.
  unfold computeDerived. cbn [totalGames].
  rewrite sumGames_spec, drop_0. by rewrite Z.add_0_l.
Qed.

(** ** The consolidated data *)

Lemma OMap_get_elem {V} (key : string) (m : list (string * V)) (v : V) :
  OMap.get key m = Some v → (key, v) ∈ m.
Proof.
  induction m as [|[k v'] m IH]; [done|]. cbn [OMap.get].
  destruct (String.eqb_spec k key) as [->|Hne].
  - intros [= ->]. apply list_elem_of_here.
  - intros Hget. apply list_elem_of_further. by apply IH.
Qed.

Lemma OMap_get_values {V} (key : string) (m : list (string * V)) (v : V) :
  OMap.get key m = Some v → v ∈ OMap.values m.
Proof.
  intros Hget. apply OMap_get_elem in Hget. unfold OMap.values.
  apply list_elem_of_fmap. by exists (key, v).
Qed.

Lemma OMap_fresh_NoDup {V} (key : string) (value : V) (m : list (string * V)) :
  OMap.has key m = false → NoDup (map fst m) → NoDup (map fst (m ++ [(key, value)])).
Proof.
  intros Hhas Hnd. rewrite map_app. apply NoDup_app. split_and!; [done| |apply NoDup_singleton].
  intros k Hk ->%list_elem_of_singleton. apply OMap_get_fst in Hk.
  apply OMap_has_get in Hk. simpl in Hk. congruence.
Qed.

Lemma resolvePlayer_step (name : string) (st : State) :
  resolvePlayer name st = st
  ∨ OMap.has name (playersMap st) = false
    ∧ playersMap (resolvePlayer name st)
      = playersMap st ++ [(name, mkPlayer (createPlayerID name (playerIDs st)).1 name)].
Proof.
  unfold resolvePlayer. destruct (OMap.has name (playersMap st)) eqn:Hhas; [by left|].
  right. split; [done|]. destruct (createPlayerID name (playerIDs st)) as [pid ids].
  simpl. by apply OMap_set_fresh.
Qed.

Lemma refersTo_mono (ps ps' : list Player) (ts ts' : list Tournament) (m : Match) :
  ps ⊆ ps' → ts ⊆ ts' → refersTo ps ts m → refersTo ps' ts' m.
Proof.
  intros Hp Ht (Hw & Hl & Htid). unfold refersTo.
  split_and!; eapply list_elem_of_fmap; (apply list_elem_of_fmap in Hw, Hl, Htid);
    [destruct Hw as (x & -> & Hx)|destruct Hl as (x & -> & Hx)|destruct Htid as (x & -> & Hx)];
    exists x; (split; [done|]); auto.
Qed.

Lemma consistent_resolvePlayer (name : string) (st : State) :
  normalizeValue name = Some name → consistent st → consistent (resolvePlayer name st).
Proof.
  intros Hname Hc.
  destruct (resolvePlayer_step name st) as [->|[Hhas Hp]]; [done|].
  destruct (resolvePlayer_others name st) as (Ht & Hm & Hd).
  destruct Hc as (Hder & Href & Hwf & Hps & Hts & Hk1 & Hk2).
  unfold consistent. rewrite Hp, Ht, Hm, Hd. split_and!; try done.
  - eapply Forall_impl; [exact Href|]. intros m. apply refersTo_mono; [|done].
    unfold OMap.values. rewrite map_app. intros x Hx. apply elem_of_app. by left.
  - apply Forall_app. split; [done|]. by repeat constructor.
  - by apply OMap_fresh_NoDup.
Qed.

Section Consolidated.
Context `{Runtime}.

Lemma consistent_resolveTournament (year : option Z) (row : CSVRow) (st : State) :
  consistent st → consistent (resolveTournament year row st).2.
Proof.
  intros (Hder & Href & Hwf & Hps & Hts & Hk1 & Hk2). unfold resolveTournament.
  destruct (OMap.has _ (tournamentsMap st)) eqn:Hhas; [done|].
  unfold consistent. cbn [snd playersMap tournamentsMap allMatches allDerived].
  rewrite (OMap_set_fresh _ _ _ Hhas). split_and!; try done.
  - eapply Forall_impl; [exact Href|]. intros m. apply refersTo_mono; [done|].
    unfold OMap.values. rewrite map_app. intros x Hx. apply elem_of_app. by left.
  - apply Forall_app. split; [done|]. constructor; [|constructor].
    split; [done|]. split; [done|]. cbn [snd t_name t_location].
    split.
    + destruct (normalizeValue (Tournament_ row)) as [name|] eqn:Hn; [|done].
      by apply normalizeValue_normal in Hn as (_ & ? & _).
    + destruct (normalizeValue (Location row)) as [name|] eqn:Hn; [|done].
      by apply normalizeValue_normal in Hn as (_ & ? & _).
  - by apply OMap_fresh_NoDup.
Qed.

Lemma buildMatch_fields (row : CSVRow) (day : string) (rnd : Round)
    (winner loser : Player) (tournament : Tournament) :
  let m := buildMatch row day rnd winner loser tournament in
  tournamentId m = t_id tournament ∧ winnerId m = p_id winner ∧ loserId m = p_id loser
  ∧ date m = day ∧ round m = rnd ∧ (bestOf m = 3 ∨ bestOf m = 5)
  ∧ selfIdentified m.
Proof.
  unfold selfIdentified, buildMatch. destruct (scanSets (slots row)) as [ws ls].
  cbn. split_and!; try done. case_bool_decide; [by right|by left].
Qed.

(** The builder of a row, with the records that it reads back from the
    shared maps. *)
Lemma processRow_builder_records (st : State) (row : CSVRow)
    (date winnerName loserName : string) :
  missingEssential row = false →
  outcome (parseDate (Date row)) = Returned date →
  date ≠ "" →
  normalizeValue (Winner row) = Some winnerName →
  normalizeValue (Loser row) = Some loserName →
  ∃ rnd winner loser tournament,
    OMap.get winnerName (playersMap (resolved row date winnerName loserName st)) = Some winner ∧
    OMap.get loserName (playersMap (resolved row date winnerName loserName st)) = Some loser ∧
    OMap.get (resolveTournament (JS.parseInt (JS.take 4 date)) row
                (resolvePlayer loserName (resolvePlayer winnerName st))).1
             (tournamentsMap (resolved row date winnerName loserName st)) = Some tournament ∧
    outcome (processRow st row) =
      Returned (if skipsRow row then resolved row date winnerName loserName st
                else pushMatch (buildMatch row date rnd winner loser tournament)
                               (resolved row date winnerName loserName st)).
Proof.
  intros Hess Hdate Hne Hw Hl.
  destruct (normalizeRound_returns (Round_ row)) as [rnd Hrnd].
  destruct (resolvePlayer_get_self loserName (resolvePlayer winnerName st)) as [loser Hloser].
  destruct (resolvePlayer_get_self winnerName st) as [winner Hwinner].
  rewrite <- (resolvePlayer_get_mono loserName) in Hwinner by by eexists.
  unfold resolved. set (st1 := resolvePlayer loserName (resolvePlayer winnerName st)) in *.
  pose proof (resolveTournament_get (JS.parseInt (JS.take 4 date)) row st1) as [tournament Ht].
  pose proof (resolveTournament_others (JS.parseInt (JS.take 4 date)) row st1) as (Hp & _).
  exists rnd, winner, loser, tournament.
  rewrite Hp. split_and!; [done..|].
  unfold processRow. rewrite Hess, (bind_returned _ _ _ Hdate).
  apply String.eqb_neq in Hne as ->.
  rewrite (bind_returned _ _ _ Hrnd), Hw, Hl. fold st1.
  rewrite !(getOrThrow_some _ _ _ Hwinner), !mret_bind.
  rewrite !(getOrThrow_some _ _ _ Hloser), !mret_bind.
  destruct (resolveTournament _ row st1) as [key st2] eqn:Hrt. simpl in *.
  rewrite !(getOrThrow_some _ _ _ Ht), !mret_bind.
  by destruct (skipsRow row).
Qed.

Lemma consistent_resolved (row : CSVRow) (date winnerName loserName : string) (st : State) :
  normalizeValue winnerName = Some winnerName →
  normalizeValue loserName = Some loserName →
  consistent st → consistent (resolved row date winnerName loserName st).
Proof.
  intros Hw Hl Hc. unfold resolved.
  by apply consistent_resolveTournament, consistent_resolvePlayer,
           consistent_resolvePlayer.
Qed.

Lemma consistent_pushMatch (m : Match) (st : State) :
  refersTo (OMap.values (playersMap st)) (OMap.values (tournamentsMap st)) m →
  (bestOf m = 3 ∨ bestOf m = 5) → date m ≠ "" → selfIdentified m →
  consistent st → consistent (pushMatch m st).
Proof.
  intros Href Hb Hd Hid (Hder & Hrefs & Hwf & Hps & Hts & Hk1 & Hk2).
  unfold consistent, pushMatch. cbn [playersMap tournamentsMap allMatches allDerived].
  split_and!; try done.
  - by rewrite map_app, Hder.
  - apply Forall_app. split; [done|]. constructor; [done|constructor].
  - apply Forall_app. split; [done|]. constructor; [done|constructor].
Qed.

Lemma consistent_processRow (st : State) (row : CSVRow) (st' : State) :
  consistent st → outcome (processRow st row) = Returned st' → consistent st'.
Proof.
  intros Hc Hrun.
  destruct (processRow_cases st row st' Hrun)
    as [[-> _]|(date & wn & ln & _ & _ & _ & _ & Hess & Hdate & Hne & Hw & Hl & _ & _)];
    [done|].
  destruct (processRow_builder_records st row date wn ln Hess Hdate Hne Hw Hl)
    as (rnd & winner & loser & t & Hwin & Hlos & Ht & Heq).
  rewrite Heq in Hrun. injection Hrun as <-.
  pose proof (normalizeValue_normal _ _ Hw) as (_ & _ & _ & Hw').
  pose proof (normalizeValue_normal _ _ Hl) as (_ & _ & _ & Hl').
  pose proof (consistent_resolved row date wn ln st Hw' Hl' Hc) as Hc'.
  destruct (skipsRow row); [done|].
  destruct (buildMatch_fields row date rnd winner loser t)
    as (Htid & Hwid & Hlid & Hd & _ & Hb & Hid).
  apply consistent_pushMatch; try done; [|by rewrite Hd].
  unfold refersTo. rewrite Htid, Hwid, Hlid.
  split_and!; apply list_elem_of_fmap; eexists; (split; [done|]);
    by eapply OMap_get_values.
Qed.

Lemma processFiles_consistent (csvFiles : list (list CSVRow)) (st : State) :
  outcome (processFiles csvFiles) = Returned st → consistent st.
Proof.
  unfold processFiles.
  apply (forEach_invariant (forEach processRow) consistent).
  - intros st0 rows st1. apply (forEach_invariant processRow consistent).
    intros ? ? ?. apply consistent_processRow.
  - unfold consistent, initialState. simpl. split_and!; try done; constructor.
Qed.

Lemma ingest_output (csvFiles : list (list CSVRow)) (out : Output) :
  outcome (ingest csvFiles) = Returned (Some out) →
  ∃ st, outcome (processFiles csvFiles) = Returned st
        ∧ players out = OMap.values (playersMap st)
        ∧ tournaments out = OMap.values (tournamentsMap st)
        ∧ matches out = allMatches st ∧ derived out = allDerived st.
Proof.
  unfold ingest. destruct csvFiles as [|rows files]; [done|].
  intros Hrun. apply outcome_bind in Hrun as (st & Hst & Hrun).
  apply outcome_bind in Hrun as (written & _ & Hrun).
  injection Hrun as <-. by exists st.
Qed.

End Consolidated.


Lemma names_of_registered (m : list (string * Player)) :
  Forall (λ e : string * Player, p_name e.2 = e.1 ∧ normalizeValue e.1 = Some e.1) m →
  map p_name (OMap.values m) = map fst m
  ∧ Forall (λ p, normalizeValue (p_name p) = Some (p_name p)) (OMap.values m).
Proof.
  induction 1 as [|[k p] m [Hk Hn] _ [IH1 IH2]]; [by split; [|constructor]|].
  simpl in *. subst k. split; [by rewrite IH1|by constructor].
Qed.

(** X16. The derived file has one entry per match, in the order of the
    matches: the statistics of that match, under its identifier. *)
Theorem derived_follow_matches `{Runtime} (csvFiles : list (list CSVRow)) (out : Output) :
  outcome (ingest csvFiles) = Returned (Some out) →
  derived out = map computeDerived (matches out)
  ∧ map matchId (derived out) = map id (matches out).
Proof.
  intros (st & Hst & _ & _ & -> & ->)%ingest_output.
  apply processFiles_consistent in Hst as (-> & _). split; [done|].
  by rewrite map_map.
Qed.

Lemma derived_follow_matches_witness :
  ∃ out, outcome (@ingest utcRuntime Run.files) = Returned (Some out)
         ∧ derived out = map computeDerived (matches out)
         ∧ map matchId (derived out) = map id (matches out).
Proof.
  eexists. split; [vm_compute; reflexivity|].
  apply (@derived_follow_matches utcRuntime Run.files). vm_compute. reflexivity.
Defined.

(** X17. Every match that the pipeline writes names a winner and a loser
    of the players file and a tournament of the tournaments file. *)
Theorem matches_refer_to_the_data `{Runtime} (csvFiles : list (list CSVRow)) (out : Output) :
  outcome (ingest csvFiles) = Returned (Some out) →
  Forall (refersTo (players out) (tournaments out)) (matches out).
Proof.
  intros (st & Hst & -> & -> & -> & _)%ingest_output.
  by apply processFiles_consistent in Hst as (_ & ? & _).
Qed.

Lemma matches_refer_to_the_data_witness :
  ∃ out, outcome (@ingest utcRuntime Run.files) = Returned (Some out)
         ∧ Forall (refersTo (players out) (tournaments out)) (matches out).
Proof.
  eexists. split; [vm_compute; reflexivity|].
  apply (@matches_refer_to_the_data utcRuntime Run.files). vm_compute. reflexivity.
Defined.

(** X18. Every match that the pipeline writes is best of 3 or of 5, has a
    date, and has the identifier that [createMatchID] gives for its own
    tournament, date, round, winner and loser. *)
Theorem matches_are_self_identified `{Runtime} (csvFiles : list (list CSVRow))
    (out : Output) :
  outcome (ingest csvFiles) = Returned (Some out) →
  Forall (λ m, (bestOf m = 3 ∨ bestOf m = 5) ∧ date m ≠ "" ∧ selfIdentified m)
         (matches out).
Proof.
  intros (st & Hst & _ & _ & -> & _)%ingest_output.
  by apply processFiles_consistent in Hst as (_ & _ & ? & _).
Qed.

Lemma matches_are_self_identified_witness :
  ∃ out, outcome (@ingest utcRuntime Run.files) = Returned (Some out)
         ∧ Forall (λ m, (bestOf m = 3 ∨ bestOf m = 5) ∧ date m ≠ "" ∧ selfIdentified m)
                  (matches out).
Proof.
  eexists. split; [vm_compute; reflexivity|].
  apply (@matches_are_self_identified utcRuntime Run.files). vm_compute. reflexivity.
Defined.



(** X20. No two players of the players file have the same name, and every
    name is a normalised value: trimmed, not empty and not N/A. *)
Theorem players_have_normal_names `{Runtime} (csvFiles : list (list CSVRow))
    (out : Output) :
  outcome (ingest csvFiles) = Returned (Some out) →
  NoDup (map p_name (players out))
  ∧ Forall (λ p, normalizeValue (p_name p) = Some (p_name p)) (players out).
Proof.
  intros (st & Hst & -> & _)%ingest_output.
  apply processFiles_consistent in Hst as (_ & _ & _ & Hps & _ & Hnd & _).
  apply names_of_registered in Hps as [-> ?]. done.
Qed.

Lemma players_have_normal_names_witness :
  ∃ out, outcome (@ingest utcRuntime Run.files) = Returned (Some out)
         ∧ NoDup (map p_name (players out))
         ∧ Forall (λ p, normalizeValue (p_name p) = Some (p_name p)) (players out).
Proof.
  eexists. split; [vm_compute; reflexivity|].
  apply (@players_have_normal_names utcRuntime Run.files). vm_compute. reflexivity.
Defined.

(** ** Runs on more files *)

Lemma forEach_app_returned {S A} (body : S → A → Eff S) (items rest : list A) (st st' : S) :
  outcome (forEach body st items) = Returned st' →
  outcome (forEach body st (items ++ rest)) = outcome (forEach body st' rest).
Proof.
  revert st. induction items as [|item items IH]; intros st Hrun.
  - by injection Hrun as ->.
  - cbn [forEach app] in *. apply outcome_bind in Hrun as (st1 & Hst1 & Hrun).
    rewrite (bind_returned _ _ _ Hst1). cbn [outcome]. by apply IH.
Qed.

Lemma forEach_app_inv {S A} (body : S → A → Eff S) (items rest : list A) (st st'' : S) :
  outcome (forEach body st (items ++ rest)) = Returned st'' →
  ∃ st', outcome (forEach body st items) = Returned st'
         ∧ outcome (forEach body st' rest) = Returned st''.
Proof.
  revert st. induction items as [|item items IH]; intros st Hrun.
  - by exists st.
  - cbn [forEach app] in *. apply outcome_bind in Hrun as (st1 & Hst1 & Hrun).
    destruct (IH _ Hrun) as (st' & Hitems & Hrest). exists st'. split; [|done].
    by rewrite (bind_returned _ _ _ Hst1).
Qed.

Lemma extends_refl (st : State) : extends st st.
Proof. by unfold extends. Qed.

Lemma extends_trans (st1 st2 st3 : State) : extends st1 st2 → extends st2 st3 → extends st1 st3.
Proof.
  intros (? & ? & ? & ?) (? & ? & ? & ?). unfold extends. split_and!; by etrans.
Qed.

Lemma extends_resolvePlayer (name : string) (st : State) : extends st (resolvePlayer name st).
Proof.
  destruct (resolvePlayer_others name st) as (Ht & Hm & Hd). unfold extends.
  rewrite Ht, Hm, Hd. split_and!; try done.
  destruct (resolvePlayer_step name st) as [->|[_ ->]]; [done|]. by apply prefix_app_r.
Qed.

Lemma extends_pushMatch (m : Match) (st : State) : extends st (pushMatch m st).
Proof. unfold extends, pushMatch. simpl. split_and!; try done; by apply prefix_app_r. Qed.

Section MoreFiles.
Context `{Runtime}.

Lemma extends_resolveTournament (year : option Z) (row : CSVRow) (st : State) :
  extends st (resolveTournament year row st).2.
Proof.
  unfold resolveTournament. destruct (OMap.has _ (tournamentsMap st)) eqn:Hhas;
    [apply extends_refl|].
  unfold extends. cbn [snd playersMap tournamentsMap allMatches allDerived].
  rewrite (OMap_set_fresh _ _ _ Hhas). split_and!; try done. by apply prefix_app_r.
Qed.

Lemma extends_resolved (row : CSVRow) (date winnerName loserName : string) (st : State) :
  extends st (resolved row date winnerName loserName st).
Proof.
  unfold resolved.
  eapply extends_trans; [apply (extends_resolvePlayer winnerName)|].
  eapply extends_trans; [apply (extends_resolvePlayer loserName)|].
  apply extends_resolveTournament.
Qed.

Lemma extends_processRow (st : State) (row : CSVRow) (st' : State) :
  outcome (processRow st row) = Returned st' → extends st st'.
Proof.
  intros Hrun.
  destruct (processRow_cases st row st' Hrun)
    as [[-> _]|(date & wn & ln & rnd & winner & loser & t & _ & _ & _ & _ & _ & _ & ->)];
    [apply extends_refl|].
  destruct (skipsRow row); [apply extends_resolved|].
  eapply extends_trans; [apply extends_resolved|apply extends_pushMatch].
Qed.

Lemma extends_files (csvFiles : list (list CSVRow)) (st st' : State) :
  outcome (forEach (forEach processRow) st csvFiles) = Returned st' → extends st st'.
Proof.
  apply (forEach_invariant (forEach processRow) (extends st)); [|apply extends_refl].
  intros st0 rows st1 Hext.
  apply (forEach_invariant processRow (extends st)); [|done].
  intros st2 row st3 Hext' Hrow. eapply extends_trans; [done|by eapply extends_processRow].
Qed.

(** X21. Year files that are added after the others leave the records of
    the others in place: the players, tournaments, matches and derived
    entries of the run on the first files are the first entries, in the
    same order, of the run on all files. *)
Theorem records_of_earlier_files_stay (csvFiles more : list (list CSVRow))
    (out out' : Output) :
  outcome (ingest csvFiles) = Returned (Some out) →
  outcome (ingest (csvFiles ++ more)) = Returned (Some out') →
  players out `prefix_of` players out'
  ∧ tournaments out `prefix_of` tournaments out'
  ∧ matches out `prefix_of` matches out'
  ∧ derived out `prefix_of` derived out'.
Proof.
  intros (st & Hst & -> & -> & -> & ->)%ingest_output
         (st' & Hst' & -> & -> & -> & ->)%ingest_output.
  unfold processFiles in *. apply forEach_app_inv in Hst' as (st0 & Hst0 & Hmore).
  rewrite Hst in Hst0. injection Hst0 as <-.
  apply extends_files in Hmore as (Hp & Ht & Hm & Hd).
  split_and!; try done; unfold OMap.values.
  - destruct Hp as [k ->]. rewrite map_app. by apply prefix_app_r.
  - destruct Ht as [k ->]. rewrite map_app. by apply prefix_app_r.
Qed.

End MoreFiles.

Lemma records_of_earlier_files_stay_witness :
  ∃ out out',
    outcome (@ingest utcRuntime [Run.firstYear]) = Returned (Some out)
    ∧ outcome (@ingest utcRuntime ([Run.firstYear] ++ [Run.secondYear])) = Returned (Some out')
    ∧ players out `prefix_of` players out'
    ∧ tournaments out `prefix_of` tournaments out'
    ∧ matches out `prefix_of` matches out'
    ∧ derived out `prefix_of` derived out'.
Proof.
  eexists _, _. split; [vm_compute; reflexivity|]. split; [vm_compute; reflexivity|].
  apply (@records_of_earlier_files_stay utcRuntime [Run.firstYear] [Run.secondYear]);
    vm_compute; reflexivity.
Defined.

(** ** Dates that are not dates *)

Section Dates.
Context `{Runtime}.

Lemma isoDate_outcomes (year month date : option Z) :
  isoDate year month date = mkEff [] (Thrown (RangeError "Invalid time value"))
  ∨ ∃ y m d s, toISODate y m d = Some s ∧ isoDate year month date = mkEff [] (Returned s).
Proof.
  unfold isoDate. destruct year as [y|], month as [m|], date as [d|]; try by left.
  destruct (toISODate y m d) as [s|] eqn:Hs; [right|by left]. by exists y, m, d, s.
Qed.

Lemma parseDateSlashes_outcomes (dateStr normalized : string) :
  parseDateSlashes dateStr normalized
    = mkEff ["Could not parse date: " +:+ dateStr] (Returned "")
  ∨ parseDateSlashes dateStr normalized
    = mkEff [] (Thrown (RangeError "Invalid time value"))
  ∨ ∃ y m d s, toISODate y m d = Some s
               ∧ parseDateSlashes dateStr normalized = mkEff [] (Returned s).
Proof.
  unfold parseDateSlashes.
  destruct (JS.split "/" normalized) as [|a [|b [|c [|]]]]; try by left.
  right. apply isoDate_outcomes.
Qed.

(** X22. [parseDate] ends in one of four ways: the empty date in silence,
    the empty date with the one warning that names the input, a rendering
    of the runtime in silence, or the [RangeError] of an invalid date in
    silence.  It throws nothing else, and it warns only when it returns the
    empty date. *)
Theorem parseDate_outcomes (dateStr : string) :
  parseDate dateStr = mkEff [] (Returned "")
  ∨ parseDate dateStr = mkEff ["Could not parse date: " +:+ dateStr] (Returned "")
  ∨ parseDate dateStr = mkEff [] (Thrown (RangeError "Invalid time value"))
  ∨ ∃ y m d s, toISODate y m d = Some s ∧ parseDate dateStr = mkEff [] (Returned s).
Proof.
  unfold parseDate. destruct (normalizeValue dateStr) as [normalized|]; [|by left].
  right.
  destruct (JS.includes normalized "-"); [|apply parseDateSlashes_outcomes].
  destruct (JS.strlen _ =? 4); [|apply parseDateSlashes_outcomes].
  right. apply isoDate_outcomes.
Qed.

Lemma outcome_bind_thrown {A B} (m : Eff A) (k : A → Eff B) (e : Exn) :
  outcome m = Thrown e → outcome (m ≫= k) = Thrown e.
Proof. intros Hthrow. unfold mbind, eff_bind, bind. by rewrite Hthrow. Qed.

(** X23. A row that has its essential fields and whose date makes
    [parseDate] throw ends the run with that exception, whatever rows and
    files come before it without throwing and whatever comes after it:
    nothing is written, not even the records of the files before. *)
Theorem invalid_date_aborts_the_run (before after : list (list CSVRow))
    (rows rest : list CSVRow) (row : CSVRow) (st : State) (e : Exn) :
  outcome (processFiles (before ++ [rows])) = Returned st →
  missingEssential row = false →
  outcome (parseDate (Date row)) = Thrown e →
  outcome (ingest (before ++ (rows ++ row :: rest) :: after)) = Thrown e.
Proof.
  intros Hst Hess Hthrow. unfold processFiles in Hst.
  apply forEach_app_inv in Hst as (st0 & Hst0 & Hrows). cbn [forEach] in Hrows.
  apply outcome_bind in Hrows as (st1 & Hst1 & Hret). injection Hret as ->.
  assert (outcome (processFiles (before ++ (rows ++ row :: rest) :: after)) = Thrown e)
    as Hfiles.
  { unfold processFiles. rewrite (forEach_app_returned _ _ _ _ _ Hst0). cbn [forEach].
    apply outcome_bind_thrown. rewrite (forEach_app_returned _ _ _ _ _ Hst1).
    by apply processRow_throw_aborts. }
  unfold ingest. destruct (before ++ _ :: after) as [|file files] eqn:Hlist;
    [by destruct before|].
  by apply outcome_bind_thrown.
Qed.

(** X24. A row that reaches the builder and is skipped for its lack of
    score data has by then registered its two players and its tournament:
    the loop returns, the matches and the derived entries are as before,
    and the maps have the names and the key of the row. *)
Theorem skipped_row_registers_its_names (st : State) (row : CSVRow)
    (date winnerName loserName : string) :
  missingEssential row = false →
  outcome (parseDate (Date row)) = Returned date →
  date ≠ "" →
  normalizeValue (Winner row) = Some winnerName →
  normalizeValue (Loser row) = Some loserName →
  skipsRow row = true →
  ∃ st', outcome (processRow st row) = Returned st'
         ∧ allMatches st' = allMatches st ∧ allDerived st' = allDerived st
         ∧ OMap.has winnerName (playersMap st') = true
         ∧ OMap.has loserName (playersMap st') = true
         ∧ OMap.has (tournamentKeyOf (JS.parseInt (JS.take 4 date))
                       (default "Unknown Tournament" (normalizeValue (Tournament_ row)))
                       (default "Unknown Location" (normalizeValue (Location row))))
                    (tournamentsMap st') = true.
Proof.
  intros Hess Hdate Hne Hw Hl Hskip.
  destruct (processRow_builder_records st row date winnerName loserName Hess Hdate Hne Hw Hl)
    as (rnd & winner & loser & t & Hwin & Hlos & Ht & Heq).
  rewrite Hskip in Heq. eexists. split; [exact Heq|].
  destruct (resolved_matches row date winnerName loserName st) as [-> ->].
  split_and!; try done; apply OMap_has_get; try by eexists.
  replace (tournamentKeyOf _ _ _)
    with (resolveTournament (JS.parseInt (JS.take 4 date)) row
            (resolvePlayer loserName (resolvePlayer winnerName st))).1; [by eexists|].
  unfold resolveTournament. by destruct (OMap.has _ (tournamentsMap _)).
Qed.

End Dates.

Lemma invalid_date_aborts_the_run_witness :
  outcome (@ingest utcRuntime
             ([Run.firstYear] ++ ([Sample.row] ++ Run.invalidDate :: [Sample.row])
                :: [Run.secondYear]))
  = Thrown (RangeError "Invalid time value").
Proof.
  refine (@invalid_date_aborts_the_run utcRuntime [Run.firstYear] [Run.secondYear]
            [Sample.row] [Sample.row] Run.invalidDate _ _ _ _ _).
  - vm_compute. reflexivity.
  - reflexivity.
  - reflexivity.
Defined.

Lemma skipped_row_registers_its_names_witness :
  ∃ st', outcome (@processRow utcRuntime initialState (Sample.noScores "0" "0" "Completed"))
         = Returned st'
         ∧ allMatches st' = [] ∧ allDerived st' = []
         ∧ OMap.has "John Smith" (playersMap st') = true
         ∧ OMap.has "Jane Doe" (playersMap st') = true
         ∧ OMap.has "2024-Brisbane International-Brisbane" (tournamentsMap st') = true.
Proof.
  apply (@skipped_row_registers_its_names utcRuntime initialState
           (Sample.noScores "0" "0" "Completed") "2024-01-02" "John Smith" "Jane Doe");
    [reflexivity|reflexivity|discriminate|reflexivity|reflexivity|reflexivity].
Defined.

(** ** The augmenter and the display name *)

Lemma withoutProperty_set (key : string) (value : JSON) (object : list (string * JSON)) :
  withoutProperty key (OMap.set key value object) = withoutProperty key object.
Proof.
  unfold withoutProperty. induction object as [|[k v] object IH]; simpl.
  - by rewrite String.eqb_refl.
  - destruct (String.eqb k key) eqn:E; simpl; [by rewrite String.eqb_refl|].
    by rewrite E, IH.
Qed.

(** X25. The pass touches the [commonName] property only: the other
    properties of a tournament are the same, with the same values, in the
    same order, whatever the table. *)
Theorem mergeCommonName_keeps_the_other_properties (table : gmap string string)
    (tournament : list (string * JSON)) :
  withoutProperty "commonName" (mergeCommonName table tournament)
  = withoutProperty "commonName" tournament.
Proof.
  unfold mergeCommonName.
  destruct (_ ≫= _); [apply withoutProperty_set|apply withoutProperty_idem].
Qed.



